(** * Kinematics engine of the rock-climbing robot

    A shallow embedding of [src/kinematics.ts]: the joint-tree
    configuration model, the configuration index, the forward-kinematics
    evaluator with its save/apply/restore protocol, the chain extractor,
    the CCD inverse-kinematics loop and the finite-difference Jacobian.

    The scene graph and the linear algebra come from three.js, which is
    not part of the repository; they enter through the interfaces
    [JSNumber] and [Three] below and every theorem holds for all their
    implementations. *)

From Stdlib Require Import String Ascii List Bool Arith PeanoNat Lia ZArith.
From Stdlib Require Import Sorted Permutation Orders Mergesort.
Import ListNotations.

Set Implicit Arguments.

Local Open Scope string_scope.
Local Open Scope list_scope.

(** ** JavaScript strings *)

Module JSString.

(** [s.startsWith(p)] *)
Definition startsWith (p s : string) : bool := String.prefix p s.

(** [s.includes(needle)] *)
Fixpoint includes (needle s : string) : bool :=
  String.prefix needle s ||
  match s with
  | EmptyString => false
  | String _ s' => includes needle s'
  end.

(** [s.endsWith(suffix)] *)
Definition endsWith (suffix s : string) : bool :=
  Nat.leb (String.length suffix) (String.length s) &&
  String.eqb
    (String.substring (String.length s - String.length suffix)
                      (String.length suffix) s)
    suffix.

(** [s.substring(0, s.length - 2)] *)
Definition dropLast2 (s : string) : string :=
  String.substring 0 (String.length s - 2) s.

End JSString.
Import JSString.

(** ** JavaScript objects used as dictionaries

    An object is kept as the list of its own properties in enumeration
    order ([for ... in] and [Object.keys]): a key is enumerated at the
    place where it was first written.  The keys the engine enumerates and
    acts on are joint names and DOF labels, which are never array-index
    strings, so the rule that moves integer-like keys to the front does
    not come into play.  Inherited properties are not modelled. *)

Section JSObject.
Variable V : Type.

Definition JSObj := list (string * V).

(** [o[k]], [None] standing for [undefined] *)
Fixpoint obj_get (k : string) (o : JSObj) : option V :=
  match o with
  | [] => None
  | (k', v) :: o' => if String.eqb k k' then Some v else obj_get k o'
  end.

(** [o[k] = v] *)
Fixpoint obj_set (k : string) (v : V) (o : JSObj) : JSObj :=
  match o with
  | [] => [(k, v)]
  | (k', v') :: o' =>
      if String.eqb k k' then (k', v) :: o' else (k', v') :: obj_set k v o'
  end.

Definition obj_keys (o : JSObj) : list string := map fst o.

End JSObject.

Arguments obj_get {V} k o.
Arguments obj_set {V} k v o.
Arguments obj_keys {V} o.

(** [Array.prototype.sort] without a comparator orders strings by code
    unit; names are taken to be ASCII. *)
Module StringOrder <: TotalLeBool.
Definition t := string.
Definition leb (a b : string) : bool := String.leb a b.
Definition leb_total : forall a b, leb a b = true \/ leb b a = true :=
  String.leb_total.
End StringOrder.

Module KeySort := Sort StringOrder.

(** [sortObjectKeys]: a fresh object that receives the properties of
    [obj] in sorted key order. *)
Definition sortObjectKeys {V} (obj : JSObj V) : JSObj V :=
  fold_left
    (fun sortedObj key =>
       match obj_get key obj with
       | Some v => obj_set key v sortedObj
       | None => sortedObj
       end)
    (KeySort.sort (obj_keys obj)) [].

(** ** Effects

    A method runs on a mutable state and either completes normally or
    throws; the only exception of the engine is the [TypeError] of a
    property access on [undefined].  The state reached is kept in both
    cases: nothing is rolled back when a method throws. *)
Inductive Completion (A : Type) :=
| Normal (a : A)
| Throw.
Arguments Normal {A} a.
Arguments Throw {A}.

(** The call completed normally. *)
Definition returned {A} (c : Completion A) : bool :=
  match c with
  | Normal _ => true
  | Throw => false
  end.

Definition EffM (St A : Type) := St -> Completion A * St.

Definition ret {St A} (a : A) : EffM St A := fun k => (Normal a, k).

Definition throw {St A} : EffM St A := fun k => (Throw, k).

Definition bind {St A B} (m : EffM St A) (f : A -> EffM St B) : EffM St B :=
  fun k =>
    match m k with
    | (Normal a, k') => f a k'
    | (Throw, k') => (Throw, k')
    end.

Definition lift {St A} (c : Completion A) : EffM St A := fun k => (c, k).

Definition get_this {St} : EffM St St := fun k => (Normal k, k).

Declare Scope eff_scope.
Delimit Scope eff_scope with eff.
Notation "x <- m ;; f" := (bind m (fun x => f))
  (at level 61, m at next level, right associativity) : eff_scope.
Notation "m ;;; f" := (bind m (fun _ => f))
  (at level 61, right associativity) : eff_scope.

(** [for (x of xs) { body x }] *)
Fixpoint for_each {St A} (xs : list A) (body : A -> EffM St unit)
  : EffM St unit :=
  match xs with
  | [] => ret tt
  | x :: xs' => bind (body x) (fun _ => for_each xs' body)
  end.

(** A loop that threads the local variables [L] it assigns. *)
Fixpoint for_fold {St A L} (xs : list A) (body : A -> L -> EffM St L)
    (st : L) : EffM St L :=
  match xs with
  | [] => ret st
  | x :: xs' => bind (body x st) (fun st' => for_fold xs' body st')
  end.

(** ** Numbers and three.js

    A JavaScript [number] slot.  TypeScript casts are unchecked, so such a
    slot can also hold [undefined] (an absent property read through a
    cast); [undefined] is therefore one of the values of [num]. *)
Class JSNumber := {
  num : Type;
  undefined : num;
  is_undefined : num -> bool;
  lit : Z -> num;                         (* integer literals *)
  lit_1e_4 : num;                         (* the literal 0.0001 *)
  PI : num;                               (* Math.PI *)
  nadd : num -> num -> num;
  nsub : num -> num -> num;
  nmul : num -> num -> num;
  ndiv : num -> num -> num;
  ngt : num -> num -> bool;               (* a > b *)
  nlt : num -> num -> bool;               (* a < b *)
  nmax : num -> num -> num;               (* Math.max *)
  nmin : num -> num -> num;               (* Math.min *)
  natan2 : num -> num -> num;             (* Math.atan2 *)
  nsqrt : num -> num;                     (* Math.sqrt *)
  ntruthy : num -> bool                   (* truthiness, as in [v || 1] *)
}.

(** What the engine uses of three.js matrices and of a node's local
    transform: [elements] reads the column-major array of a [Matrix4],
    [compose] is the local matrix of a node from its position and scale
    (its [Pose]) and its Euler angles, [multiplyMatrices] the product. *)
Class Three `{JSNumber} := {
  Matrix4 : Type;
  elements : Matrix4 -> nat -> num;
  Pose : Type;
  compose : Pose -> num -> num -> num -> Matrix4;
  identity : Matrix4;                     (* new Matrix4() *)
  multiplyMatrices : Matrix4 -> Matrix4 -> Matrix4
}.

Section Engine.
Context {JSN : JSNumber} {THREE : Three}.

(** *** Vector3 *)
Record Vector3 := mkVector3 { vx : num; vy : num; vz : num }.

Definition subVectors (a b : Vector3) : Vector3 :=
  mkVector3 (nsub (vx a) (vx b)) (nsub (vy a) (vy b)) (nsub (vz a) (vz b)).

Definition multiplyScalar (v : Vector3) (s : num) : Vector3 :=
  mkVector3 (nmul (vx v) s) (nmul (vy v) s) (nmul (vz v) s).

Definition divideScalar (v : Vector3) (s : num) : Vector3 :=
  multiplyScalar v (ndiv (lit 1) s).

Definition dot (a b : Vector3) : num :=
  nadd (nadd (nmul (vx a) (vx b)) (nmul (vy a) (vy b))) (nmul (vz a) (vz b)).

Definition lengthSq (v : Vector3) : num := dot v v.

Definition normalize (v : Vector3) : Vector3 :=
  let len := nsqrt (lengthSq v) in
  divideScalar v (if ntruthy len then len else lit 1).

Definition cross (a b : Vector3) : Vector3 :=
  mkVector3 (nsub (nmul (vy a) (vz b)) (nmul (vz a) (vy b)))
            (nsub (nmul (vz a) (vx b)) (nmul (vx a) (vz b)))
            (nsub (nmul (vx a) (vy b)) (nmul (vy a) (vx b))).

(** *** The scene graph

    The shape of the tree (names, local poses, children) never changes
    while the engine runs.  What is mutated in place, the Euler rotation
    and the cached world matrix of each node, lives in two stores indexed
    by node identity.  A node is identified by the child indices that
    lead to it from the root, innermost first, so that its parent is the
    tail. *)
Record Euler := mkEuler { ex : num; ey : num; ez : num }.

#[warnings="-register-all"]
Inductive Object3D : Type :=
  mkObject3D (name : string) (pose : Pose) (children : list Object3D).

Definition name (o : Object3D) : string :=
  match o with mkObject3D n _ _ => n end.
Definition pose (o : Object3D) : Pose :=
  match o with mkObject3D _ p _ => p end.
Definition children (o : Object3D) : list Object3D :=
  match o with mkObject3D _ _ cs => cs end.

Definition NodeId := list nat.

Definition NodeId_eq_dec : forall a b : NodeId, {a = b} + {a <> b} :=
  list_eq_dec Nat.eq_dec.

Definition store_set {A} (id : NodeId) (a : A) (st : NodeId -> A)
  : NodeId -> A :=
  fun j => if NodeId_eq_dec j id then a else st j.

(** A node above the engine's root: [root.parent] and so on upwards. *)
Record Ancestor := mkAncestor {
  anc_name : string;
  anc_matrixWorld : Matrix4
}.

Record Scene := mkScene {
  root : Object3D;
  ancestors : list Ancestor;              (* nearest first *)
  rotationOf : NodeId -> Euler;
  matrixWorldOf : NodeId -> Matrix4
}.

(** The node reached from [o] along the child indices [path], outermost
    first. *)
Fixpoint node_at (o : Object3D) (path : list nat) : option Object3D :=
  match path with
  | [] => Some o
  | i :: path' =>
      match nth_error (children o) i with
      | Some c => node_at c path'
      | None => None
      end
  end.

Definition nameOf (s : Scene) (id : NodeId) : string :=
  match node_at (root s) (rev id) with
  | Some o => name o
  | None => ""
  end.

(** [Object3D.traverse]: the node itself, then its children in order. *)
Fixpoint traverse (o : Object3D) (id : NodeId) : list (string * NodeId) :=
  match o with
  | mkObject3D n _ cs =>
      (n, id) ::
      (fix each (cs : list Object3D) (i : nat) : list (string * NodeId) :=
         match cs with
         | [] => []
         | c :: cs' => traverse c (i :: id) ++ each cs' (S i)
         end) cs 0
  end.

(** [o.updateMatrixWorld(true)] on the node [o] with identity [id]: its
    world matrix is recomputed from its parent's cached world matrix, and
    then those of all its descendants. *)
Fixpoint updateWorldFrom (rot : NodeId -> Euler) (o : Object3D) (id : NodeId)
    (parentWorld : option Matrix4) (mw : NodeId -> Matrix4)
  : NodeId -> Matrix4 :=
  match o with
  | mkObject3D _ p cs =>
      let r := rot id in
      let m := compose p (ex r) (ey r) (ez r) in
      let w := match parentWorld with
               | None => m
               | Some pw => multiplyMatrices pw m
               end in
      (fix each (cs : list Object3D) (i : nat) (mw : NodeId -> Matrix4) :=
         match cs with
         | [] => mw
         | c :: cs' =>
             each cs' (S i) (updateWorldFrom rot c (i :: id) (Some w) mw)
         end) cs 0 (store_set id w mw)
  end.

Definition updateMatrixWorld (s : Scene) (id : NodeId) : Scene :=
  match node_at (root s) (rev id) with
  | None => s
  | Some o =>
      let parentWorld :=
        match id with
        | [] => option_map anc_matrixWorld (hd_error (ancestors s))
        | _ :: parent => Some (matrixWorldOf s parent)
        end in
      mkScene (root s) (ancestors s) (rotationOf s)
              (updateWorldFrom (rotationOf s) o id parentWorld
                               (matrixWorldOf s))
  end.

(** [child.rotation.set(x, y, z, 'XYZ')] *)
Definition setRotation (s : Scene) (id : NodeId) (e : Euler) : Scene :=
  mkScene (root s) (ancestors s) (store_set id e (rotationOf s))
          (matrixWorldOf s).

(** *** Values exchanged with the host *)

(** [number | Rot3Angles] *)
Inductive JointValue :=
| Scalar (v : num)
| Rot3 (x y z : num).

Definition JointAngles := JSObj JointValue.
Definition NameChildMap := JSObj NodeId.
Definition LinkTransformations := JSObj Matrix4.

(** [isDictionary(qv)] *)
Definition isDictionary (qv : JointValue) : bool :=
  match qv with
  | Rot3 _ _ _ => true
  | Scalar _ => false
  end.

(** *** The engine object *)
Record Kinematics := mkKinematics {
  scene : Scene;                          (* this.root and the tree below *)
  map : NameChildMap;
  homePositionConfig : JointAngles;
  homePositionFwd : LinkTransformations;
  qConfigIndex : JSObj nat;
  qConfigIndexReversed : list string;
  qConfigLength : nat;
  yup : bool
}.

Definition with_scene (k : Kinematics) (s : Scene) : Kinematics :=
  mkKinematics s (map k) (homePositionConfig k) (homePositionFwd k)
               (qConfigIndex k) (qConfigIndexReversed k) (qConfigLength k)
               (yup k).

Definition Eff := EffM Kinematics.

Definition modify_scene (f : Scene -> Scene) : Eff unit :=
  fun k => (Normal tt, with_scene k (f (scene k))).

Local Open Scope eff_scope.

(** *** Construction of the index *)

(** [getNameChildMap]: every node of the tree under its name; of two
    nodes with one name the later one in traversal order stays. *)
Definition getNameChildMap (s : Scene) : NameChildMap :=
  fold_left (fun m '(n, child) => obj_set n child m)
            (traverse (root s) []) [].

(** The template literal [`${joint}/${dof}`] *)
Definition axisLabel (joint dof : string) : string :=
  (joint ++ "/" ++ dof)%string.

(** The body of [for (const joint in map)] in [confIndex]. *)
Definition confIndexStep (st : JSObj nat * list string * nat)
    (entry : string * NodeId) : JSObj nat * list string * nat :=
  let '(qConfigIndex, qConfigIndexReversed, count) := st in
  let '(joint, _) := entry in
  if includes "_XYZ_" joint then
    let qConfigIndex := obj_set (axisLabel joint "x") count qConfigIndex in
    let qConfigIndexReversed := qConfigIndexReversed ++ [axisLabel joint "x"] in
    let count := count + 1 in
    let qConfigIndex := obj_set (axisLabel joint "y") count qConfigIndex in
    let qConfigIndexReversed := qConfigIndexReversed ++ [axisLabel joint "y"] in
    let count := count + 1 in
    let qConfigIndex := obj_set (axisLabel joint "z") count qConfigIndex in
    let qConfigIndexReversed := qConfigIndexReversed ++ [axisLabel joint "z"] in
    let count := count + 1 in
    (qConfigIndex, qConfigIndexReversed, count)
  else if includes "_Z_" joint then
    let qConfigIndex := obj_set joint count qConfigIndex in
    let qConfigIndexReversed := qConfigIndexReversed ++ [joint] in
    let count := count + 1 in
    (qConfigIndex, qConfigIndexReversed, count)
  else (qConfigIndex, qConfigIndexReversed, count).

Definition confIndex (m : NameChildMap) : JSObj nat * list string :=
  let '(qConfigIndex, qConfigIndexReversed, _) :=
    fold_left confIndexStep m ([], [], 0) in
  (qConfigIndex, qConfigIndexReversed).

(** *** Reading and writing the tree *)

(** [child.rotation && child.rotation.isEuler] holds of every
    [Object3D], so the test does not appear. *)
Definition getCurrentStateConfig (k : Kinematics) : JointAngles :=
  fold_left
    (fun q '(name, child) =>
       if startsWith "RJoint_" name then
         let rotation := rotationOf (scene k) child in
         if includes "_XYZ_" name then
           obj_set name (Rot3 (ex rotation) (ey rotation) (ez rotation)) q
         else if includes "_Z_" name then
           obj_set name (Scalar (ez rotation)) q
         else q
       else q)
    (map k) [].

(** One turn of the loop of [setConfiguration].  [child] is [undefined]
    for a name that is not in the tree, and [child.rotation] then
    throws. *)
Definition setJoint (joint : string) (qv : JointValue) : Eff unit :=
  k <- get_this ;;
  match obj_get joint (map k) with
  | None => throw
  | Some child =>
      let rotation := rotationOf (scene k) child in
      let e :=
        match qv with
        | Rot3 x y z => mkEuler x y z
        | Scalar v =>
            if negb (yup k)
            then mkEuler (ex rotation) (ey rotation) v
            else mkEuler (ex rotation) v (ez rotation)
        end in
      modify_scene (fun s => updateMatrixWorld (setRotation s child e) child)
  end.

Definition setConfiguration (q : JointAngles) : Eff unit :=
  for_each q (fun '(joint, qv) => setJoint joint qv).

(** *** Forward kinematics *)

Fixpoint forwardKinematicsRec (mw : NodeId -> Matrix4) (o : Object3D)
    (id : NodeId) (q : JointAngles) (A : Matrix4)
    (links : LinkTransformations) : LinkTransformations :=
  match o with
  | mkObject3D n _ cs =>
      (fix each (cs : list Object3D) (i : nat) (links : LinkTransformations) :=
         match cs with
         | [] => links
         | c :: cs' =>
             each cs' (S i) (forwardKinematicsRec mw c (i :: id) q A links)
         end) cs 0 (obj_set n (mw id) links)
  end.

Definition forwardKinematics (q : JointAngles) (A : Matrix4)
  : Eff LinkTransformations :=
  k <- get_this ;;
  let q_old := getCurrentStateConfig k in
  setConfiguration q ;;;
  k <- get_this ;;
  let links :=
    forwardKinematicsRec (matrixWorldOf (scene k)) (root (scene k)) []
                         q A [] in
  setConfiguration q_old ;;;
  ret links.

(** [getPosition(m)]; [m.elements] throws when [m] is [undefined]. *)
Definition getPosition (m : Matrix4) : Vector3 :=
  mkVector3 (elements m (0 + 3 * 4)) (elements m (1 + 3 * 4))
            (elements m (2 + 3 * 4)).

Definition getPositionOf (m : option Matrix4) : Eff Vector3 :=
  match m with
  | Some m => ret (getPosition m)
  | None => throw
  end.

(** *** Chain extraction *)

(** The [while] loop of [getChain] once [current] is above the root. *)
Fixpoint climbAbove (rootName : string) (above : list Ancestor)
    (chain : list string) : list string :=
  match above with
  | [] => chain
  | current :: above' =>
      if negb (String.eqb (anc_name current) rootName) then
        climbAbove rootName above'
          (if startsWith "RJoint_" (anc_name current)
           then chain ++ [anc_name current] else chain)
      else chain
  end.

(** The same loop while [current] is the node [id] of the tree. *)
Fixpoint climb (s : Scene) (id : NodeId) (chain : list string)
  : list string :=
  if negb (String.eqb (nameOf s id) (name (root s))) then
    let chain :=
      if startsWith "RJoint_" (nameOf s id)
      then chain ++ [nameOf s id] else chain in
    match id with
    | [] => climbAbove (name (root s)) (ancestors s) chain
    | _ :: parent => climb s parent chain
    end
  else chain.

Definition getChain (k : Kinematics) (endEffector : string) : list string :=
  let chain := [endEffector] in
  let chain :=
    match obj_get endEffector (map k) with
    | None => chain
    | Some [] =>
        climbAbove (name (root (scene k))) (ancestors (scene k)) chain
    | Some (_ :: parent) => climb (scene k) parent chain
    end in
  rev chain.

(** *** Configurations as vectors *)

(** [vec[i] = v] on an array: in range the slot is overwritten, beyond
    the end the array grows and the slots in between read [undefined]. *)
Definition array_set (i : nat) (v : num) (vec : list num) : list num :=
  if Nat.ltb i (length vec)
  then firstn i vec ++ v :: skipn (S i) vec
  else vec ++ repeat undefined (i - length vec) ++ [v].

(** [vec[ix[label]] = v]: when the label is not indexed the subscript is
    [undefined] and the assignment creates a property of that name,
    which no indexed read, spread or [length] ever sees. *)
Definition array_set_at (i : option nat) (v : num) (vec : list num)
  : list num :=
  match i with
  | Some i => array_set i v vec
  | None => vec
  end.

Definition configToVector (k : Kinematics) (q : JointAngles) : list num :=
  fold_left
    (fun vec '(joint, qv) =>
       match qv with
       | Rot3 x y z =>
           let vec :=
             array_set_at (obj_get (axisLabel joint "x") (qConfigIndex k)) x vec in
           let vec :=
             array_set_at (obj_get (axisLabel joint "y") (qConfigIndex k)) y vec in
           array_set_at (obj_get (axisLabel joint "z") (qConfigIndex k)) z vec
       | Scalar v => array_set_at (obj_get joint (qConfigIndex k)) v vec
       end)
    q (repeat (lit (-1000)) (qConfigLength k)).

Inductive Dof := DofX | DofY | DofZ.

Definition dofName (d : Dof) : string :=
  match d with DofX => "x" | DofY => "y" | DofZ => "z" end.

(** [q[j] === undefined] *)
Definition reads_undefined (j : string) (q : JointAngles) : bool :=
  match obj_get j q with
  | None => true
  | Some (Scalar v) => is_undefined v
  | Some (Rot3 _ _ _) => false
  end.

(** The three branches on a label that ends in [/x], [/y] or [/z]: the
    entry of the joint is created empty when it reads [undefined], then
    one component is assigned.  Assigning a property of a number throws
    in module (strict) code. *)
Definition setComponent (j : string) (d : Dof) (v : num) (q : JointAngles)
  : Completion JointAngles :=
  let q :=
    if reads_undefined j q
    then obj_set j (Rot3 undefined undefined undefined) q else q in
  match obj_get j q with
  | Some (Rot3 x y z) =>
      Normal (obj_set j
                (match d with
                 | DofX => Rot3 v y z
                 | DofY => Rot3 x v z
                 | DofZ => Rot3 x y v
                 end) q)
  | _ => Throw
  end.

(** The loop of [vectorToConfig] from slot [i] on, [labels] being
    [qConfigIndexReversed] from [i] on.  Past the end of the index
    [jLabel] is [undefined] and [jLabel.endsWith] throws. *)
Fixpoint vectorToConfigFrom (labels : list string) (vec : list num)
    (q : JointAngles) : Completion JointAngles :=
  match vec with
  | [] => Normal q
  | v :: vec' =>
      match labels with
      | [] => Throw
      | jLabel :: labels' =>
          let q' :=
            if endsWith "/x" jLabel then
              setComponent (dropLast2 jLabel) DofX v q
            else if endsWith "/y" jLabel then
              setComponent (dropLast2 jLabel) DofY v q
            else if endsWith "/z" jLabel then
              setComponent (dropLast2 jLabel) DofZ v q
            else Normal (obj_set jLabel (Scalar v) q) in
          match q' with
          | Normal q' => vectorToConfigFrom labels' vec' q'
          | Throw => Throw
          end
      end
  end.

Definition vectorToConfig (k : Kinematics) (vec : list num)
  : Completion JointAngles :=
  vectorToConfigFrom (qConfigIndexReversed k) vec [].

Definition getCurrentStateVector (k : Kinematics) : list num :=
  configToVector k (getCurrentStateConfig k).

(** *** Jacobian by finite differences *)
Definition calcJacobian (q : JointAngles) (joint : string) (pos : Vector3)
    (dq : num) (A : Matrix4) : Eff (list Vector3) :=
  k <- get_this ;;
  let cVec := configToVector k q in
  for_fold (seq 0 (qConfigLength k))
    (fun i jac =>
       let vec := array_set i (nadd (nth i cVec undefined) dq) cVec in
       q2 <- lift (vectorToConfig k vec) ;;
       fwd2 <- forwardKinematics q2 A ;;
       pos2 <- getPositionOf (obj_get joint fwd2) ;;
       let diff := divideScalar (subVectors pos2 pos) dq in
       ret (jac ++ [diff]))
    [].

(** *** Inverse kinematics by cyclic coordinate descent *)

(** The variables the loops of [inverseKinematics] assign.  [p_end] is
    recomputed from [fwd] before each use and is not carried. *)
Record IKVars := mkIKVars {
  ik_vec : list num;
  ik_fwd : LinkTransformations;
  ik_dErr : Vector3
}.

(** The [switch (dof)]: the rotation axis in world space, a column of the
    rotation block. *)
Definition axisOf (matrix : Matrix4) (dof : Dof) : Vector3 :=
  let me := elements matrix in
  match dof with
  | DofX => normalize (mkVector3 (me 0) (me 1) (me 2))
  | DofY => normalize (mkVector3 (me 4) (me 5) (me 6))
  | DofZ => normalize (mkVector3 (me 8) (me 9) (me 10))
  end.

(** The body of [for (const dof of dofs)]; returning [st] unchanged is
    [continue]. *)
Definition ccdStep (joint : string) (target : Vector3) (A : Matrix4)
    (alpha : num) (jointName : string) (dof : Dof) (st : IKVars)
  : Eff IKVars :=
  k <- get_this ;;
  let label :=
    if includes "_XYZ_" jointName
    then axisLabel jointName (dofName dof) else jointName in
  match obj_get label (qConfigIndex k) with
  | None => ret st
  | Some i =>
      match obj_get jointName (ik_fwd st) with
      | None => throw
      | Some matrix =>
          let axis := axisOf matrix dof in
          let p_joint := getPosition matrix in
          p_end <- getPositionOf (obj_get joint (ik_fwd st)) ;;
          let v_current := subVectors p_end p_joint in
          let v_target := subVectors target p_joint in
          let v_curr_proj :=
            subVectors v_current
                       (multiplyScalar axis (dot v_current axis)) in
          let v_targ_proj :=
            subVectors v_target
                       (multiplyScalar axis (dot v_target axis)) in
          if nlt (lengthSq v_curr_proj) lit_1e_4
             || nlt (lengthSq v_targ_proj) lit_1e_4
          then ret st
          else
            let v_curr_proj := normalize v_curr_proj in
            let v_targ_proj := normalize v_targ_proj in
            let d :=
              nmax (lit (-1)) (nmin (lit 1) (dot v_curr_proj v_targ_proj)) in
            let c := cross v_curr_proj v_targ_proj in
            let theta := natan2 (dot c axis) d in
            let vec :=
              array_set i
                (nadd (nth i (ik_vec st) undefined) (nmul alpha theta))
                (ik_vec st) in
            q' <- lift (vectorToConfig k vec) ;;
            fwd <- forwardKinematics q' A ;;
            p_end <- getPositionOf (obj_get joint fwd) ;;
            ret (mkIKVars vec fwd (subVectors target p_end))
      end
  end.

(** One pass of [for (let j = chain.length - 1; j >= 0; j--)]. *)
Definition ccdSweep (joint : string) (target : Vector3) (A : Matrix4)
    (alpha : num) (chain : list string) (st : IKVars) : Eff IKVars :=
  for_fold (rev chain)
    (fun jointName st =>
       let dofs :=
         if includes "_XYZ_" jointName
         then [DofX; DofY; DofZ] else [DofZ] in
       for_fold dofs (ccdStep joint target A alpha jointName) st)
    st.

(** The [while] loop.  [count] only grows by one per pass, so the test
    [count < maxIterations] is a test on [remaining], which stands for
    [maxIterations - count]. *)
Fixpoint ccdLoop (joint : string) (target : Vector3) (A : Matrix4)
    (alpha limit : num) (chain : list string)
    (remaining count : nat) (st : IKVars) : Eff (nat * IKVars) :=
  if ngt (lengthSq (ik_dErr st)) limit then
    match remaining with
    | 0 => ret (count, st)
    | S remaining' =>
        st' <- ccdSweep joint target A alpha chain st ;;
        ccdLoop joint target A alpha limit chain remaining' (S count) st'
    end
  else ret (count, st).

Definition inverseKinematics (q : JointAngles) (joint : string)
    (target : Vector3) (A : Matrix4) (alpha limit : num)
    (maxIterations : nat)
  : Eff (JointAngles * Vector3 * nat * LinkTransformations) :=
  k <- get_this ;;
  let count := 0 in
  let vec := configToVector k q in
  q0 <- lift (vectorToConfig k vec) ;;
  fwd <- forwardKinematics q0 A ;;
  p_end <- getPositionOf (obj_get joint fwd) ;;
  let dErr := subVectors target p_end in
  let chain := getChain k joint in
  r <- ccdLoop joint target A alpha limit chain maxIterations count
               (mkIKVars vec fwd dErr) ;;
  let '(count, st) := r in
  finalQ <- lift (vectorToConfig k (ik_vec st)) ;;
  ret (finalQ, ik_dErr st, count, ik_fwd st).

(** *** Construction *)

(** [(q[joint] as number)]: an absent entry reads [undefined].  The four
    biased joints carry no 3-DOF marker, so [getCurrentStateConfig]
    never holds a triple for them and the last case is not reached. *)
Definition asNumber (qv : option JointValue) : num :=
  match qv with
  | Some (Scalar v) => v
  | None => undefined
  | Some (Rot3 _ _ _) => undefined
  end.

Definition homeBias (q : JointAngles) : JointAngles :=
  let q :=
    obj_set "RJoint_Back_Lower_Z_L"
      (Scalar (nadd (asNumber (obj_get "RJoint_Back_Lower_Z_L" q))
                    (ndiv PI (lit 4)))) q in
  let q :=
    obj_set "RJoint_Back_Lower_Z_R"
      (Scalar (nsub (asNumber (obj_get "RJoint_Back_Lower_Z_R" q))
                    (ndiv PI (lit 4)))) q in
  let q :=
    obj_set "RJoint_Front_Lower_Z_L"
      (Scalar (nsub (asNumber (obj_get "RJoint_Front_Lower_Z_L" q))
                    (ndiv PI (lit 8)))) q in
  obj_set "RJoint_Front_Lower_Z_R"
    (Scalar (nadd (asNumber (obj_get "RJoint_Front_Lower_Z_R" q))
                  (ndiv PI (lit 8)))) q.

Definition with_homePositionConfig (k : Kinematics) (q : JointAngles)
  : Kinematics :=
  mkKinematics (scene k) (map k) q (homePositionFwd k)
               (qConfigIndex k) (qConfigIndexReversed k) (qConfigLength k)
               (yup k).

Definition with_homePositionFwd (k : Kinematics) (fwd : LinkTransformations)
  : Kinematics :=
  mkKinematics (scene k) (map k) (homePositionConfig k) fwd
               (qConfigIndex k) (qConfigIndexReversed k) (qConfigLength k)
               (yup k).

(** [new Kinematics(root, yup)].  When the constructor throws no engine
    comes into being, but the rotations already written to the tree
    stay: the tree reached is returned in both cases. *)
Definition constructor (root : Scene) (yup : bool)
  : Completion Kinematics * Scene :=
  let nameChildMap := sortObjectKeys (getNameChildMap root) in
  let '(ind, indRev) := confIndex nameChildMap in
  let this :=
    mkKinematics root nameChildMap [] [] ind indRev (length indRev) yup in
  let q := homeBias (getCurrentStateConfig this) in
  let this := with_homePositionConfig this q in
  match forwardKinematics (homePositionConfig this) identity this with
  | (Normal fwd, this) => (Normal (with_homePositionFwd this fwd), scene this)
  | (Throw, this) => (Throw, scene this)
  end.

(** *** Vocabulary of the specification *)

Unset Implicit Arguments.

(** Induction over a tree and the trees below it. *)
Fixpoint Object3D_tree_ind (P : Object3D -> Prop)
    (step : forall n p cs, Forall P cs -> P (mkObject3D n p cs))
    (o : Object3D) : P o :=
  match o with
  | mkObject3D n p cs =>
      step n p cs
        ((fix all (cs : list Object3D) : Forall P cs :=
            match cs with
            | [] => Forall_nil P
            | c :: cs' =>
                @Forall_cons _ P c cs' (Object3D_tree_ind P step c) (all cs')
            end) cs)
  end.

(** The children loop of [traverse]. *)
Fixpoint traverseEach (cs : list Object3D) (i : nat) (id : NodeId)
  : list (string * NodeId) :=
  match cs with
  | [] => []
  | c :: cs' => traverse c (i :: id) ++ traverseEach cs' (S i) id
  end.

Definition treeNames (s : Scene) : list string :=
  List.map fst (traverse (root s) []).

(** [id] is the identity of a node of the tree. *)
Definition validId (s : Scene) (id : NodeId) : Prop :=
  exists o, node_at (root s) (rev id) = Some o.

(** The fields a constructor call computes from the tree; no method
    assigns them afterwards. *)
Definition constructed (k : Kinematics) : Prop :=
  map k = sortObjectKeys (getNameChildMap (scene k)) /\
  (qConfigIndex k, qConfigIndexReversed k) = confIndex (map k) /\
  qConfigLength k = length (qConfigIndexReversed k).

Definition ascending (l : list string) : Prop :=
  Sorted (fun a b => String.leb a b = true) l.

(** The DOF labels a node name contributes, in slot order. *)
Definition dofLabels (joint : string) : list string :=
  if includes "_XYZ_" joint then
    [axisLabel joint "x"; axisLabel joint "y"; axisLabel joint "z"]
  else if includes "_Z_" joint then [joint]
  else [].

(** The index that sends each label of a list to its position. *)
Definition enumerate (labels : list string) : JSObj nat :=
  combine labels (seq 0 (length labels)).

(** [k'] is [k] up to the rotations and cached world matrices of the
    nodes. *)
Definition sameEngine (k k' : Kinematics) : Prop :=
  map k' = map k /\
  homePositionConfig k' = homePositionConfig k /\
  homePositionFwd k' = homePositionFwd k /\
  qConfigIndex k' = qConfigIndex k /\
  qConfigIndexReversed k' = qConfigIndexReversed k /\
  qConfigLength k' = qConfigLength k /\
  yup k' = yup k /\
  root (scene k') = root (scene k) /\
  ancestors (scene k') = ancestors (scene k).

Definition keeps {A} (m : Eff A) : Prop :=
  forall k, sameEngine k (snd (m k)).

(** The rotation [setConfiguration] writes to a node that holds [r]. *)
Definition applyValue (yup : bool) (qv : JointValue) (r : Euler) : Euler :=
  match qv with
  | Rot3 x y z => mkEuler x y z
  | Scalar v =>
      if negb yup then mkEuler (ex r) (ey r) v else mkEuler (ex r) v (ez r)
  end.

(** The entry [joint] of a configuration addresses the node [id]. *)
Definition targets (k : Kinematics) (joint : string) (id : NodeId) : bool :=
  match obj_get joint (map k) with
  | Some child => if NodeId_eq_dec child id then true else false
  | None => false
  end.

(** The four joints of the resting stance. *)
Definition stanceJoints : list string :=
  ["RJoint_Back_Lower_Z_L"; "RJoint_Back_Lower_Z_R";
   "RJoint_Front_Lower_Z_L"; "RJoint_Front_Lower_Z_R"].

(** The methods that run on the engine as a state. *)
Inductive Operation :=
| OpSetConfiguration (q : JointAngles)
| OpForwardKinematics (q : JointAngles) (A : Matrix4)
| OpInverseKinematics (q : JointAngles) (joint : string) (target : Vector3)
    (A : Matrix4) (alpha limit : num) (maxIterations : nat)
| OpCalcJacobian (q : JointAngles) (joint : string) (pos : Vector3)
    (dq : num) (A : Matrix4).

(** The engine after a call, whether it returned or threw. *)
Definition after (op : Operation) (k : Kinematics) : Kinematics :=
  match op with
  | OpSetConfiguration q => snd (setConfiguration q k)
  | OpForwardKinematics q A => snd (forwardKinematics q A k)
  | OpInverseKinematics q joint target A alpha limit maxIterations =>
      snd (inverseKinematics q joint target A alpha limit maxIterations k)
  | OpCalcJacobian q joint pos dq A => snd (calcJacobian q joint pos dq A k)
  end.

Definition indexOf (k : Kinematics) : JSObj nat * list string * nat :=
  (qConfigIndex k, qConfigIndexReversed k, qConfigLength k).

(** The entry [getCurrentStateConfig] writes for one property of [map]. *)
Definition stateEntry (k : Kinematics) (entry : string * NodeId)
  : JointAngles :=
  let '(name, child) := entry in
  if startsWith "RJoint_" name then
    let rotation := rotationOf (scene k) child in
    if includes "_XYZ_" name then
      [(name, Rot3 (ex rotation) (ey rotation) (ez rotation))]
    else if includes "_Z_" name then [(name, Scalar (ez rotation))]
    else []
  else [].

(** What [getCurrentStateConfig] holds under a name. *)
Definition stateValue (k : Kinematics) (name : string) : option JointValue :=
  match obj_get name (map k) with
  | Some child =>
      let rotation := rotationOf (scene k) child in
      if startsWith "RJoint_" name then
        if includes "_XYZ_" name then
          Some (Rot3 (ex rotation) (ey rotation) (ez rotation))
        else if includes "_Z_" name then Some (Scalar (ez rotation))
        else None
      else None
  | None => None
  end.

(** A node below the root and its ancestors below the root, nearest
    first. *)
Fixpoint fromNodeUp (id : NodeId) : list NodeId :=
  match id with
  | [] => []
  | _ :: parent => id :: fromNodeUp parent
  end.

(** The strict ancestors of a node that lie strictly below the root,
    nearest first. *)
Definition ancestorsBelowRoot (id : NodeId) : list NodeId :=
  match id with
  | [] => []
  | _ :: parent => fromNodeUp parent
  end.

(** A decidable form of [NoDup] on names. *)
Fixpoint distinct (l : list string) : bool :=
  match l with
  | [] => true
  | a :: l' => negb (existsb (String.eqb a) l') && distinct l'
  end.

(** The step by which the rotation of the node [id] follows the entries
    of a configuration being applied. *)
Definition applyTo (k : Kinematics) (id : NodeId) (r : Euler)
    (entry : string * JointValue) : Euler :=
  let '(joint, qv) := entry in
  if targets k joint id then applyValue (yup k) qv r else r.

(** The value an entry of a configuration writes to the slot of a
    label, if it writes to it. *)
Definition writes (joint : string) (qv : JointValue) (label : string)
  : option num :=
  match qv with
  | Scalar v => if String.eqb label joint then Some v else None
  | Rot3 x y z =>
      if String.eqb label (axisLabel joint "z") then Some z
      else if String.eqb label (axisLabel joint "y") then Some y
      else if String.eqb label (axisLabel joint "x") then Some x
      else None
  end.

(** What [configToVector] leaves in the slot of a label: the last value
    written to it, or the sentinel. *)
Definition slotValue (q : JointAngles) (label : string) : num :=
  fold_left
    (fun acc '(joint, qv) =>
       match writes joint qv label with
       | Some v => v
       | None => acc
       end)
    q (lit (-1000)).

(** Some entry of [q] writes to the slot of the label. *)
Definition covered (q : JointAngles) (label : string) : bool :=
  existsb
    (fun '(joint, qv) =>
       match writes joint qv label with
       | Some _ => true
       | None => false
       end) q.

(** A vector that holds [f label] in the slot of every label. *)
Definition holds (k : Kinematics) (vec : list num) (f : string -> num)
  : Prop :=
  length vec = qConfigLength k /\
  forall i label,
    nth_error (qConfigIndexReversed k) i = Some label ->
    nth_error vec i = Some (f label).

(** No 1-DOF joint name ends like the label of an axis. *)
Definition plainName (n : string) : bool :=
  includes "_XYZ_" n || negb (includes "_Z_" n)
  || negb (endsWith "/x" n || endsWith "/y" n || endsWith "/z" n).

Definition plainNames (k : Kinematics) : bool :=
  forallb plainName (obj_keys (map k)).

(** The entry of a joint in the configuration that gives every label
    [l] the value [f l]. *)
Definition jointEntry (f : string -> num) (n : string) : JointAngles :=
  if includes "_XYZ_" n then
    [(n, Rot3 (f (axisLabel n "x")) (f (axisLabel n "y"))
              (f (axisLabel n "z")))]
  else if includes "_Z_" n then [(n, Scalar (f n))]
  else [].

Definition configFrom (f : string -> num) (names : list string)
  : JointAngles :=
  flat_map (jointEntry f) names.

(** The value of a vector in the slot of a label. *)
Definition slotOf (k : Kinematics) (vec : list num) (label : string) : num :=
  match obj_get label (qConfigIndex k) with
  | Some i => nth i vec undefined
  | None => undefined
  end.

(** The entry names a node of the tree and its value has the kind its
    name asks for. *)
Definition wellKinded (k : Kinematics) (entry : string * JointValue) : bool :=
  let '(joint, qv) := entry in
  existsb (String.eqb joint) (obj_keys (map k)) &&
  match qv with
  | Rot3 _ _ _ => includes "_XYZ_" joint
  | Scalar _ => negb (includes "_XYZ_" joint) && includes "_Z_" joint
  end.

(** [q] is an object (no key twice) that gives a value of the right kind
    to every joint of the index and to nothing else. *)
Definition fullConfig (k : Kinematics) (q : JointAngles) : bool :=
  distinct (obj_keys q) && forallb (wellKinded k) q &&
  forallb
    (fun n =>
       negb (includes "_XYZ_" n || includes "_Z_" n)
       || existsb (String.eqb n) (obj_keys q))
    (obj_keys (map k)).

(** The children loop of [forwardKinematicsRec]. *)
Fixpoint forwardKinematicsEach (mw : NodeId -> Matrix4)
    (cs : list Object3D) (i : nat) (id : NodeId) (q : JointAngles)
    (A : Matrix4) (links : LinkTransformations) : LinkTransformations :=
  match cs with
  | [] => links
  | c :: cs' =>
      forwardKinematicsEach mw cs' (S i) id q A
        (forwardKinematicsRec mw c (i :: id) q A links)
  end.

(** The engine is built, its labels are plain, its index has [n] slots
    and its tree bears the names [names]. *)
Definition ready (n : nat) (names : list string) (k : Kinematics) : Prop :=
  constructed k /\ plainNames k = true /\
  qConfigLength k = n /\ treeNames (scene k) = names.

(** From a ready engine the computation returns a value that satisfies
    [Q] and leaves the engine ready. *)
Definition returns_with {A} (n : nat) (names : list string) (m : Eff A)
    (Q : A -> Prop) : Prop :=
  forall k, ready n names k ->
  exists a k', m k = (Normal a, k') /\ ready n names k' /\ Q a.

(** Every name of the tree has a matrix in the snapshot. *)
Definition snapshotOf (names : list string) (fwd : LinkTransformations)
  : Prop :=
  forall n, In n names -> exists m, obj_get n fwd = Some m.

(** The loop variables fit the engine: one slot per label, one matrix
    per node. *)
Definition fits (n : nat) (names : list string) (st : IKVars) : Prop :=
  length (ik_vec st) = n /\ snapshotOf names (ik_fwd st).

(** The residual the solver computes before its first pass. *)
Definition initialResidual (q : JointAngles) (joint : string)
    (target : Vector3) (A : Matrix4) : Eff Vector3 :=
  (k <- get_this ;;
   q0 <- lift (vectorToConfig k (configToVector k q)) ;;
   fwd <- forwardKinematics q0 A ;;
   p_end <- getPositionOf (obj_get joint fwd) ;;
   ret (subVectors target p_end))%eff.

(** The solver's own test finds the residual within the tolerance: the
    squared residual is not greater than [limit]. *)
Definition converged (k : Kinematics) (q : JointAngles) (joint : string)
    (target : Vector3) (A : Matrix4) (limit : num) : bool :=
  match fst (initialResidual q joint target A k) with
  | Normal dErr => negb (ngt (lengthSq dErr) limit)
  | Throw => false
  end.


(** A computation that returns from a ready engine leaves the joint
    state as it found it. *)
Definition still {A} (n : nat) (names : list string) (m : Eff A) : Prop :=
  forall k a k', ready n names k -> m k = (Normal a, k') ->
  getCurrentStateConfig k' = getCurrentStateConfig k.


(** [q] is an object (no key twice) whose entries name recognized joints
    of the tree and carry values of the kind the names ask for: a
    configuration over a subset of the recognized joints. *)
Definition partialConfig (k : Kinematics) (q : JointAngles) : bool :=
  distinct (obj_keys q) && forallb (wellKinded k) q.

(** The entry of a recognized joint whose every slot holds the
    sentinel. *)
Definition sentinelEntry (joint : string) : option JointValue :=
  if includes "_XYZ_" joint then
    Some (Rot3 (lit (-1000)) (lit (-1000)) (lit (-1000)))
  else if includes "_Z_" joint then Some (Scalar (lit (-1000)))
  else None.

(** [q] with the sentinel for every recognized joint of the tree that it
    leaves out. *)
Definition filledEntry (k : Kinematics) (q : JointAngles) (joint : string)
  : option JointValue :=
  match obj_get joint q with
  | Some qv => Some qv
  | None =>
      if existsb (String.eqb joint) (obj_keys (map k))
      then sentinelEntry joint else None
  end.

Definition filled (k : Kinematics) (q q' : JointAngles) : Prop :=
  forall joint, obj_get joint q' = filledEntry k q joint.




End Engine.

(** ** An instance to run the engine on

    Integers are computed exactly and the literal 0.0001 is compared
    exactly; any other number is [Untracked].  A comparison on an
    untracked number answers [false], so a run is to be read off this
    instance only if no untracked number reaches a test.  Matrices are
    tracked as long as they are pure translations. *)
Module Exact.

Inductive enum :=
| Int (z : Z)
| Tiny                                    (* 0.0001 *)
| Untracked.

Definition lift2 (f : Z -> Z -> Z) (a b : enum) : enum :=
  match a, b with
  | Int x, Int y => Int (f x y)
  | _, _ => Untracked
  end.

Definition ediv (a b : enum) : enum :=
  match a, b with
  | Int x, Int y =>
      if negb (Z.eqb y 0) && Z.eqb (Z.modulo x y) 0
      then Int (Z.div x y) else Untracked
  | _, _ => Untracked
  end.

Definition egt (a b : enum) : bool :=
  match a, b with
  | Int x, Int y => Z.ltb y x
  | Int x, Tiny => Z.ltb 0 x
  | Tiny, Int y => Z.leb y 0
  | _, _ => false
  end.

Definition esqrt (a : enum) : enum :=
  match a with
  | Int x =>
      if Z.leb 0 x && Z.eqb (Z.sqrt x * Z.sqrt x) x
      then Int (Z.sqrt x) else Untracked
  | _ => Untracked
  end.

Definition eatan2 (y x : enum) : enum :=
  match y, x with
  | Int 0, Int x => if Z.ltb 0 x then Int 0 else Untracked
  | _, _ => Untracked
  end.

#[export] Instance number : JSNumber := {|
  num := enum;
  undefined := Untracked;
  is_undefined := fun a => match a with Untracked => true | _ => false end;
  lit := Int;
  lit_1e_4 := Tiny;
  PI := Untracked;
  nadd := lift2 Z.add;
  nsub := lift2 Z.sub;
  nmul := lift2 Z.mul;
  ndiv := ediv;
  ngt := egt;
  nlt := fun a b => egt b a;
  nmax := lift2 Z.max;
  nmin := lift2 Z.min;
  natan2 := eatan2;
  nsqrt := esqrt;
  ntruthy := fun a => match a with Int 0 => false | Untracked => false | _ => true end
|}.

(** A translation, or a matrix that is not tracked. *)
Definition ematrix := option (Z * Z * Z).

Definition eelements (m : ematrix) (i : nat) : enum :=
  match m with
  | None => Untracked
  | Some (x, y, z) =>
      match i with
      | 0 | 5 | 10 | 15 => Int 1
      | 12 => Int x
      | 13 => Int y
      | 14 => Int z
      | _ => Int 0
      end
  end.

#[export] Instance three : Three := {|
  Matrix4 := ematrix;
  elements := eelements;
  Pose := Z * Z * Z;
  compose := fun p x y z =>
    match x, y, z with
    | Int 0, Int 0, Int 0 => Some p
    | _, _, _ => None
    end;
  identity := Some (0, 0, 0)%Z;
  multiplyMatrices := fun a b =>
    match a, b with
    | Some (x, y, z), Some (x', y', z') => Some (x + x', y + y', z + z')%Z
    | _, _ => None
    end
|}.

End Exact.

(** ** Scenes to run the engine on *)
Module Demo.
Import Exact.

Definition leaf (n : string) : Object3D := mkObject3D n (0, 0, 1)%Z [].

Definition limb (joint effector : string) (at_ : Z * Z * Z) : Object3D :=
  mkObject3D joint at_ [leaf effector].

(** A small bear: one 3-DOF joint, the four lower joints, five
    effectors. *)
Definition bear : Object3D :=
  mkObject3D "Bear" (0, 0, 0)%Z
    [ mkObject3D "RJoint_Back_Upper_XYZ_L" (1, 0, 0)%Z
        [ limb "RJoint_Back_Lower_Z_L" "Effector_Back_L" (1, 0, 0)%Z ];
      limb "RJoint_Back_Lower_Z_R" "Effector_Back_R" (0, 1, 0)%Z;
      limb "RJoint_Front_Lower_Z_L" "Effector_Front_L" (0, 2, 0)%Z;
      limb "RJoint_Front_Lower_Z_R" "Effector_Front_R" (0, 3, 0)%Z;
      limb "Neck" "Effector_Head" (0, 0, 5)%Z ].

(** The same bear with a joint that is marked but not prefixed. *)
Definition bearWithTail : Object3D :=
  mkObject3D "Bear" (0, 0, 0)%Z
    (children bear ++ [limb "Tail_Z_Base" "Tail_Tip" (0, 0, (-1))%Z]).

Definition atRest (id : NodeId) : Euler := mkEuler (Int 0) (Int 0) (Int 0).

(** A tree at rest under the given nodes, world matrices propagated. *)
Definition sceneOf (o : Object3D) (above : list string) : Scene :=
  updateMatrixWorld
    (mkScene o (List.map (fun n => mkAncestor n (Some (0, 0, 0)%Z)) above)
             atRest (fun _ => Some (0, 0, 0)%Z))
    [].

(** The engine of a constructor call that returned. *)
Definition newKinematics (s : Scene) (yup : bool) : Kinematics :=
  match constructor s yup with
  | (Normal k, _) => k
  | (Throw, s') => mkKinematics s' [] [] [] [] [] 0 yup
  end.

Definition bearScene : Scene := sceneOf bear ["Scene"].
Definition engine : Kinematics := newKinematics bearScene false.
Definition engineYup : Kinematics := newKinematics bearScene true.
Definition engineWithTail : Kinematics :=
  newKinematics (sceneOf bearWithTail ["Scene"]) false.

(** The bear mounted below a joint of a rig. *)
Definition engineOnRig : Kinematics :=
  newKinematics (sceneOf bear ["RJoint_Mount_Z_Rig"; "Scene"]) false.

(** A lone node: none of the four lower joints. *)
Definition stumpScene : Scene := sceneOf (leaf "Bear") ["Scene"].

Definition origin : Vector3 := mkVector3 (Int 0) (Int 0) (Int 0).

(** The bear with a 1-DOF joint whose name ends like an axis label. *)
Definition bearOdd : Object3D :=
  mkObject3D "Bear" (0, 0, 0)%Z
    (children bear ++ [limb "RJoint_Odd_Z_A/x" "Odd_Tip" (0, 0, (-1))%Z]).

Definition engineOdd : Kinematics :=
  newKinematics (sceneOf bearOdd ["Scene"]) false.

End Demo.


(** ** The host page

    [findClosestHold], [marker_on_off] and [hang_on_wall] of the page
    that drives the engine. *)

(** The numbers and comparisons the page uses beyond the engine's. *)
Class JSHostNumber `{JSNumber} := {
  infinity : num;                         (* Infinity *)
  lit_0_1 : num;                          (* the literal 0.1 *)
  lit_0_3 : num;                          (* the literal 0.3 *)
  nge : num -> num -> bool;               (* a >= b *)
  nle : num -> num -> bool                (* a <= b *)
}.

Class ThreeHost `{Three} := {
  position : Pose -> Vector3              (* object.position *)
}.

Section Host.
Context {JSN : JSNumber} {THREE : Three}.
Context {JSH : JSHostNumber} {THREEH : ThreeHost}.

Local Open Scope eff_scope.

(** A hold of the wall: its name, its position and the [visible] flag
    of each of its children, the two markers first. *)
Record Hold := mkHold {
  hold_name : string;
  hold_position : Vector3;
  hold_children : list bool
}.

(** [a.distanceToSquared(b)] *)
Definition distanceToSquared (a b : Vector3) : num :=
  let dx := nsub (vx a) (vx b) in
  let dy := nsub (vy a) (vy b) in
  let dz := nsub (vz a) (vz b) in
  nadd (nadd (nmul dx dx) (nmul dy dy)) (nmul dz dz).

(** The test of [findClosestHold] on a hold, the distance apart. *)
Definition eligible (coM : Vector3) (isHead : bool) (h : Hold) : bool :=
  let isValidHeadHold :=
    if isHead then ngt (vz (hold_position h)) (vz coM) else true in
  isValidHeadHold &&
  ((includes "Left" (hold_name h)
      && nge (vx (hold_position h)) (vx coM))
   || (includes "Right" (hold_name h)
         && nle (vx (hold_position h)) (vx coM))
   || includes "Center" (hold_name h)).

(** The loop of [findClosestHold] from the hold of index [i] on.  A hold
    object is named by its index in [holds]; [None] is [undefined]. *)
Fixpoint closestFrom (pos coM : Vector3) (isHead : bool) (hs : list Hold)
    (i : nat) (min : num) (minHold : option nat) : option nat :=
  match hs with
  | [] => minHold
  | h :: hs' =>
      let dist := distanceToSquared pos (hold_position h) in
      if eligible coM isHead h && nlt dist min
      then closestFrom pos coM isHead hs' (S i) dist (Some i)
      else closestFrom pos coM isHead hs' (S i) min minHold
  end.

Definition findClosestHold (pos : Vector3) (holds : list Hold)
    (coM : Vector3) (isHead : bool) : option nat :=
  closestFrom pos coM isHead holds 0 infinity
    (match holds with [] => None | _ :: _ => Some 0 end).

(** The page's state: the engine and the hold objects of the route. *)
Definition Host := EffM (Kinematics * list Hold).

Definition on_engine {A} (m : Eff A) : Host A :=
  fun st => let (c, k) := m (fst st) in (c, (k, snd st)).

Definition get_holds : Host (list Hold) := fun st => (Normal (snd st), st).

(** The hold of index [i] with the flags [cs]. *)
Fixpoint set_children (i : nat) (cs : list bool) (hs : list Hold)
  : list Hold :=
  match hs, i with
  | [], _ => []
  | h :: hs', 0 => mkHold (hold_name h) (hold_position h) cs :: hs'
  | h :: hs', S i' => h :: set_children i' cs hs'
  end.

(** [marker_on_off(hold, on)]: [children[0]] or [children[1]] of a hold
    without them is [undefined], and setting [visible] on it throws. *)
Definition marker_on_off (hold : nat) (on : bool) : Host unit :=
  fun st =>
    match nth_error (snd st) hold with
    | None => (Throw, st)
    | Some h =>
        match hold_children h with
        | [] => (Throw, st)
        | [_] => (Throw, (fst st, set_children hold [on] (snd st)))
        | _ :: _ :: cs =>
            (Normal tt,
             (fst st, set_children hold (on :: negb on :: cs) (snd st)))
        end
    end.

Definition effectors : list string :=
  [ "Effector_Back_L"; "Effector_Back_R"; "Effector_Front_L";
    "Effector_Front_R"; "Effector_Head" ].

(** The body of [for (const eff of effectors)]; returning [init]
    unchanged is [continue]. *)
Definition hang (setMarkers : bool) (eff : string) (init : bool)
  : Host bool :=
  k <- on_engine get_this ;;
  let q := getCurrentStateConfig k in
  let origin := matrixWorldOf (scene k) [] in
  match obj_get eff (homePositionFwd k) with
  | None => ret init
  | Some def_m =>
      let m := multiplyMatrices origin def_m in
      let current :=
        mkVector3 (elements m 12) (elements m 13) (elements m 14) in
      let isHead := String.eqb eff "Effector_Head" in
      holds <- get_holds ;;
      let h :=
        findClosestHold current holds (position (pose (root (scene k))))
                        isHead in
      match h with
      | None => throw
      | Some h =>
          match nth_error holds h with
          | None => throw
          | Some hold =>
              r <- on_engine
                     (inverseKinematics q eff (hold_position hold) origin
                        (if isHead then lit_0_1 else lit_0_3) lit_1e_4
                        (if isHead then 50 else 100)) ;;
              let '(newConfig, err, _, _) := r in
              (if setMarkers && nle (lengthSq err) lit_1e_4
               then marker_on_off h true else ret tt) ;;;
              on_engine (setConfiguration newConfig) ;;;
              ret true
          end
      end
  end.

Definition hang_on_wall (setMarkers : bool) : Host bool :=
  holds <- get_holds ;;
  if Nat.eqb (length holds) 0 then ret false
  else
    for_each (seq 0 (length holds)) (fun h => marker_on_off h false) ;;;
    for_fold effectors (hang setMarkers) false.

End Host.

(** The numbers of [Exact] with [Infinity], for the comparisons of the
    page.  Only sums, differences and products of integers are tracked. *)
Module Ordered.

Inductive onum :=
| Fin (z : Z)
| Inf
| Unknown.

Definition olift2 (f : Z -> Z -> Z) (a b : onum) : onum :=
  match a, b with
  | Fin x, Fin y => Fin (f x y)
  | _, _ => Unknown
  end.

Definition ogt (a b : onum) : bool :=
  match a, b with
  | Fin x, Fin y => Z.ltb y x
  | Inf, Fin _ => true
  | _, _ => false
  end.

Definition oge (a b : onum) : bool :=
  match a, b with
  | Fin x, Fin y => Z.leb y x
  | Inf, Fin _ => true
  | Inf, Inf => true
  | _, _ => false
  end.

#[export] Instance number : JSNumber := {|
  num := onum;
  undefined := Unknown;
  is_undefined := fun _ => false;
  lit := Fin;
  lit_1e_4 := Unknown;
  PI := Unknown;
  nadd := olift2 Z.add;
  nsub := olift2 Z.sub;
  nmul := olift2 Z.mul;
  ndiv := fun _ _ => Unknown;
  ngt := ogt;
  nlt := fun a b => ogt b a;
  nmax := olift2 Z.max;
  nmin := olift2 Z.min;
  natan2 := fun _ _ => Unknown;
  nsqrt := fun _ => Unknown;
  ntruthy := fun a => match a with Fin 0 => false | Unknown => false | _ => true end
|}.

#[export] Instance host : @JSHostNumber number := {|
  infinity := Inf;
  lit_0_1 := Unknown;
  lit_0_3 := Unknown;
  nge := oge;
  nle := fun a b => oge b a
|}.

Definition at_ (x y z : Z) : Vector3 := mkVector3 (Fin x) (Fin y) (Fin z).

(** A row of a route. *)
Definition row : list Hold :=
  [ mkHold "Hold_Left_0" (at_ 4 0 1) [false; true];
    mkHold "Hold_Center_1" (at_ 0 0 3) [false; true];
    mkHold "Hold_Right_2" (at_ (-1) 0 2) [false; true];
    mkHold "Hold_Right_3" (at_ 5 0 2) [false; true] ].

End Ordered.

(** The page over the numbers of [Exact]: [Infinity] and the two
    fractions are not tracked. *)
Module HostDemo.
Import Exact.

Definition ege (a b : enum) : bool :=
  match a, b with
  | Int x, Int y => Z.leb y x
  | Int x, Tiny => Z.ltb 0 x
  | Tiny, Int y => Z.leb y 0
  | Tiny, Tiny => true
  | _, _ => false
  end.

#[export] Instance host : @JSHostNumber number := {|
  infinity := Untracked;
  lit_0_1 := Untracked;
  lit_0_3 := Untracked;
  nge := ege;
  nle := fun a b => ege b a
|}.

Definition eposition (p : Z * Z * Z) : Vector3 :=
  let '(x, y, z) := p in mkVector3 (Int x) (Int y) (Int z).

#[export] Instance threeHost : @ThreeHost number three := {|
  position := eposition
|}.

Definition holds : list Hold :=
  [ mkHold "Hold_Left_0" (mkVector3 (Int 1) (Int 0) (Int 7)) [false; true];
    mkHold "Hold_Center_1" (mkVector3 (Int 0) (Int 0) (Int 9))
           [true; false; true] ].

End HostDemo.


(** * Verification *)

Unset Implicit Arguments.

(** ** Facts about strings *)
Section StringFacts.

Lemma substring_append_left (s t : string) :
  String.substring 0 (String.length s) (s ++ t) = s.
Proof.
  induction s as [|c s IH]; simpl.
  - destruct t; reflexivity.
  - now rewrite IH.
Qed.

Lemma substring_append_right (s t : string) :
  String.substring (String.length s) (String.length t) (s ++ t) = t.
Proof.
  induction s as [|c s IH]; simpl; [|exact IH].
  induction t as [|c t IH]; simpl; [reflexivity|now rewrite IH].
Qed.

Lemma length_append (s t : string) :
  String.length (s ++ t) = String.length s + String.length t.
Proof. induction s; simpl; congruence. Qed.

Lemma endsWith_append (s suffix : string) :
  endsWith suffix (s ++ suffix) = true.
Proof.
  unfold endsWith. rewrite length_append.
  replace (String.length s + String.length suffix - String.length suffix)
    with (String.length s) by lia.
  rewrite substring_append_right, String.eqb_refl.
  rewrite andb_true_r. apply Nat.leb_le. lia.
Qed.

Lemma endsWith_append_inv (s a b : string) :
  String.length a = String.length b ->
  endsWith a (s ++ b) = true -> a = b.
Proof.
  unfold endsWith. intros Hl H. apply andb_prop in H as [_ H].
  rewrite length_append, Hl in H.
  replace (String.length s + String.length b - String.length b)
    with (String.length s) in H by lia.
  rewrite substring_append_right in H.
  apply String.eqb_eq in H. congruence.
Qed.

Lemma dropLast2_axisLabel (joint dof : string) :
  String.length dof = 1 -> dropLast2 (axisLabel joint dof) = joint.
Proof.
  intros Hd. unfold dropLast2, axisLabel.
  rewrite length_append. simpl String.length. rewrite Hd.
  replace (String.length joint + 2 - 2) with (String.length joint) by lia.
  apply substring_append_left.
Qed.

Lemma append_inj_left (s s' t t' : string) :
  String.length t = String.length t' ->
  (s ++ t)%string = (s' ++ t')%string -> s = s' /\ t = t'.
Proof.
  intros Hl. revert s'.
  induction s as [|c s IH]; intros [|c' s'] H; simpl in H.
  - now split.
  - exfalso. apply (f_equal String.length) in H. simpl in H.
    rewrite length_append in H. lia.
  - exfalso. apply (f_equal String.length) in H. simpl in H.
    rewrite length_append in H. lia.
  - injection H as -> H. destruct (IH _ H) as [-> ->]. now split.
Qed.

Lemma axisLabel_inj (j j' d d' : string) :
  String.length d = String.length d' ->
  axisLabel j d = axisLabel j' d' -> j = j' /\ d = d'.
Proof.
  unfold axisLabel. intros Hl H.
  apply append_inj_left in H; [|simpl; now rewrite Hl].
  destruct H as [-> H]. injection H as ->. now split.
Qed.

Lemma prefix_append (p s t : string) :
  String.prefix p s = true -> String.prefix p (s ++ t) = true.
Proof.
  revert s. induction p as [|c p IH]; intros s H.
  - destruct s; destruct t; reflexivity.
  - destruct s as [|c' s]; simpl in *; [discriminate|].
    destruct (ascii_dec c c'); [now apply IH|discriminate].
Qed.

Lemma includes_append (needle s t : string) :
  includes needle s = true -> includes needle (s ++ t) = true.
Proof.
  induction s as [|c s IH]; intros H.
  - simpl in H. rewrite orb_false_r in H.
    destruct needle; [|discriminate].
    destruct t; reflexivity.
  - change (includes needle (String c s))
      with (String.prefix needle (String c s) || includes needle s) in H.
    change (includes needle (String c s ++ t))
      with (String.prefix needle (String c s ++ t)
            || includes needle (s ++ t)).
    apply orb_true_iff in H as [H|H]; apply orb_true_iff.
    + left. now apply prefix_append.
    + right. now apply IH.
Qed.

Lemma includes_axisLabel (needle joint dof : string) :
  includes needle joint = true ->
  includes needle (axisLabel joint dof) = true.
Proof. apply includes_append. Qed.

End StringFacts.

(** ** Facts about objects *)
Section JSObjectFacts.
Context {V : Type}.
Implicit Types (o : JSObj V) (k : string) (v : V).

Lemma obj_get_set_eq k v o : obj_get k (obj_set k v o) = Some v.
Proof.
  induction o as [|[k' v'] o IH]; simpl.
  - now rewrite String.eqb_refl.
  - destruct (String.eqb k k') eqn:E; simpl; rewrite E; auto.
Qed.

Lemma obj_get_set_neq k k' v o :
  k <> k' -> obj_get k' (obj_set k v o) = obj_get k' o.
Proof.
  intros Hne. induction o as [|[k0 v0] o IH]; simpl.
  - destruct (String.eqb_spec k' k); congruence.
  - destruct (String.eqb_spec k k0); simpl.
    + subst k0. destruct (String.eqb_spec k' k); congruence.
    + destruct (String.eqb k' k0); auto.
Qed.

Lemma obj_get_None k o : obj_get k o = None <-> ~ In k (obj_keys o).
Proof.
  induction o as [|[k' v'] o IH]; simpl.
  - tauto.
  - destruct (String.eqb_spec k k').
    + subst. split; [discriminate|tauto].
    + rewrite IH. intuition congruence.
Qed.

Lemma obj_get_Some_In k v o : obj_get k o = Some v -> In (k, v) o.
Proof.
  induction o as [|[k' v'] o IH]; simpl; [discriminate|].
  destruct (String.eqb_spec k k').
  - intros [= ->]. subst. now left.
  - auto.
Qed.

Lemma obj_get_Some_key k v o : obj_get k o = Some v -> In k (obj_keys o).
Proof.
  intros H. apply obj_get_Some_In in H.
  unfold obj_keys. now apply (in_map fst) in H.
Qed.

Lemma obj_get_NoDup k v o :
  NoDup (obj_keys o) -> In (k, v) o -> obj_get k o = Some v.
Proof.
  induction o as [|[k' v'] o IH]; simpl; [tauto|].
  intros Hnd [H|H].
  - injection H as -> ->. now rewrite String.eqb_refl.
  - inversion Hnd as [|? ? Hni Hnd']; subst.
    destruct (String.eqb_spec k k').
    + subst. exfalso. apply Hni. unfold obj_keys.
      now apply (in_map fst) in H.
    + auto.
Qed.

Lemma obj_set_fresh k v o :
  ~ In k (obj_keys o) -> obj_set k v o = o ++ [(k, v)].
Proof.
  induction o as [|[k' v'] o IH]; simpl; [reflexivity|].
  intros H. destruct (String.eqb_spec k k'); [subst; tauto|].
  rewrite IH; tauto.
Qed.

Lemma obj_keys_set_present k v o :
  In k (obj_keys o) -> obj_keys (obj_set k v o) = obj_keys o.
Proof.
  induction o as [|[k' v'] o IH]; simpl; [tauto|].
  intros H. destruct (String.eqb_spec k k'); simpl; [reflexivity|].
  f_equal. apply IH. destruct H; congruence.
Qed.

Lemma obj_keys_set_In k k' v o :
  In k' (obj_keys (obj_set k v o)) <-> k' = k \/ In k' (obj_keys o).
Proof.
  induction o as [|[k0 v0] o IH]; simpl.
  - intuition.
  - destruct (String.eqb_spec k k0); simpl.
    + subst. intuition.
    + rewrite IH. intuition.
Qed.

Lemma obj_keys_set_NoDup k v o :
  NoDup (obj_keys o) -> NoDup (obj_keys (obj_set k v o)).
Proof.
  induction o as [|[k0 v0] o IH]; simpl; intros Hnd.
  - repeat constructor. tauto.
  - inversion Hnd as [|? ? Hni Hnd']; subst.
    destruct (String.eqb_spec k k0); simpl.
    + now constructor.
    + constructor; [|auto].
      rewrite obj_keys_set_In. intuition.
Qed.

Lemma obj_keys_app o o' : obj_keys (o ++ o') = obj_keys o ++ obj_keys o'.
Proof. apply map_app. Qed.

(** The loop of [sortObjectKeys] over any list of distinct own keys. *)
Lemma copy_keys_spec (obj : JSObj V) (ks : list string) (acc : JSObj V) :
  NoDup ks ->
  (forall k, In k ks -> In k (obj_keys obj)) ->
  (forall k, In k ks -> ~ In k (obj_keys acc)) ->
  let r :=
    fold_left
      (fun sortedObj key =>
         match obj_get key obj with
         | Some v => obj_set key v sortedObj
         | None => sortedObj
         end) ks acc in
  obj_keys r = obj_keys acc ++ ks /\
  forall k, obj_get k r = if in_dec string_dec k ks then obj_get k obj
                          else obj_get k acc.
Proof.
  revert acc. induction ks as [|k0 ks IH]; intros acc Hnd Hin Hfresh; simpl.
  - split; [now rewrite app_nil_r|reflexivity].
  - inversion Hnd as [|? ? Hni Hnd']; subst.
    destruct (obj_get k0 obj) as [v0|] eqn:Eg.
    2:{ exfalso. apply obj_get_None in Eg. apply Eg, Hin. now left. }
    assert (Hf0 : ~ In k0 (obj_keys acc)) by (apply Hfresh; now left).
    destruct (IH (obj_set k0 v0 acc) Hnd') as [Hk Hg].
    + intros; apply Hin; now right.
    + intros k Hk. rewrite obj_keys_set_In. intros [->|H]; [tauto|].
      apply (Hfresh k); [now right|assumption].
    + split.
      * rewrite Hk, (obj_set_fresh _ v0 _ Hf0), obj_keys_app. simpl.
        now rewrite <- app_assoc.
      * intros k. rewrite Hg.
        destruct (in_dec string_dec k ks) as [Hi|Hi].
        -- destruct (string_dec k0 k); [subst; tauto|reflexivity].
        -- destruct (string_dec k0 k) as [->|Hne].
           ++ now rewrite obj_get_set_eq.
           ++ now rewrite obj_get_set_neq.
Qed.

Lemma sortObjectKeys_spec (obj : JSObj V) :
  NoDup (obj_keys obj) ->
  obj_keys (sortObjectKeys obj) = KeySort.sort (obj_keys obj) /\
  forall k, obj_get k (sortObjectKeys obj) = obj_get k obj.
Proof.
  intros Hnd.
  pose proof (KeySort.Permuted_sort (obj_keys obj)) as Hp.
  destruct (copy_keys_spec obj (KeySort.sort (obj_keys obj)) []) as [Hk Hg].
  - eapply Permutation_NoDup; eauto.
  - intros k Hk. eapply Permutation_in; [symmetry; exact Hp|exact Hk].
  - intros k _ [].
  - split; [exact Hk|].
    intros k. unfold sortObjectKeys. rewrite Hg.
    destruct (in_dec string_dec k (KeySort.sort (obj_keys obj))) as [Hi|Hi].
    + reflexivity.
    + simpl. symmetry. apply obj_get_None. intros Hin. apply Hi.
      eapply Permutation_in; eauto.
Qed.

(** The loop of [getNameChildMap]. *)
Lemma collect_spec (l : list (string * V)) (acc : JSObj V) :
  let m := fold_left (fun m '(n, c) => obj_set n c m) l acc in
  (NoDup (obj_keys acc) -> NoDup (obj_keys m)) /\
  (forall n, In n (obj_keys m) <->
             In n (obj_keys acc) \/ In n (List.map fst l)) /\
  (forall n c, obj_get n m = Some c ->
               In (n, c) l \/ obj_get n acc = Some c).
Proof.
  revert acc. induction l as [|[n0 c0] l IH]; intros acc; simpl.
  - repeat split; auto; tauto.
  - destruct (IH (obj_set n0 c0 acc)) as (H1 & H2 & H3).
    repeat split.
    + intros Hnd. apply H1. now apply obj_keys_set_NoDup.
    + intros H. apply H2 in H. rewrite obj_keys_set_In in H.
      intuition.
    + intros H. apply H2. rewrite obj_keys_set_In. intuition.
    + intros n c H. apply H3 in H as [H|H]; [auto|].
      destruct (string_dec n0 n) as [->|Hne].
      * rewrite obj_get_set_eq in H. injection H as ->. auto.
      * rewrite obj_get_set_neq in H by assumption. auto.
Qed.

End JSObjectFacts.

(** ** Facts about the scene graph *)
Section SceneFacts.
Context {JSN : JSNumber} {THREE : Three}.

Lemma traverse_eq n p cs id :
  traverse (mkObject3D n p cs) id = (n, id) :: traverseEach cs 0 id.
Proof.
  simpl. f_equal. generalize 0.
  induction cs as [|c cs IH]; intros i; simpl; [reflexivity|].
  now rewrite IH.
Qed.

Lemma node_at_app o p1 p2 :
  node_at o (p1 ++ p2) =
  match node_at o p1 with
  | Some o1 => node_at o1 p2
  | None => None
  end.
Proof.
  revert o. induction p1 as [|i p1 IH]; intros o; simpl; [reflexivity|].
  destruct (nth_error (children o) i); [apply IH|reflexivity].
Qed.

(** A pair is listed by [traverse] exactly when it is the name and the
    identity of a node below. *)
Lemma traverse_In o : forall id n id',
  In (n, id') (traverse o id) <->
  exists path o', id' = rev path ++ id /\ node_at o path = Some o' /\
                  name o' = n.
Proof.
  induction o as [n0 p0 cs IH] using Object3D_tree_ind.
  intros id n id'. rewrite traverse_eq.
  assert (Hcs : forall i,
    In (n, id') (traverseEach cs i id) <->
    exists j c path o', nth_error cs j = Some c /\
      id' = rev path ++ (i + j) :: id /\ node_at c path = Some o' /\
      name o' = n).
  { induction IH as [|c cs Hc _ IHcs]; intros i; simpl.
    - split; [tauto|]. intros (j & c & path & o' & H & _).
      destruct j; discriminate.
    - rewrite in_app_iff, Hc, IHcs. split.
      + intros [(path & o' & H1 & H2 & H3)|(j & c' & path & o' & H0 & H1 & H2 & H3)].
        * exists 0, c, path, o'. rewrite Nat.add_0_r. auto.
        * exists (S j), c', path, o'. rewrite <- plus_n_Sm. auto.
      + intros (j & c' & path & o' & H0 & H1 & H2 & H3).
        destruct j as [|j]; simpl in H0.
        * injection H0 as <-. left. exists path, o'.
          rewrite Nat.add_0_r in H1. auto.
        * right. exists j, c', path, o'. rewrite <- plus_n_Sm in H1. auto. }
  simpl. rewrite Hcs. split.
  - intros [H|(j & c & path & o' & H0 & H1 & H2 & H3)].
    + injection H as <- <-. exists [], (mkObject3D n0 p0 cs). auto.
    + exists (j :: path), o'. simpl. rewrite H0.
      rewrite <- app_assoc. auto.
  - intros (path & o' & H1 & H2 & H3). destruct path as [|j path]; simpl in *.
    + injection H2 as <-. left. simpl in H3. congruence.
    + right. destruct (nth_error cs j) as [c|] eqn:E; [|discriminate].
      exists j, c, path, o'. rewrite <- app_assoc in H1. auto.
Qed.

Lemma traverse_nameOf s n id :
  In (n, id) (traverse (root s) []) <-> validId s id /\ nameOf s id = n.
Proof.
  rewrite traverse_In. unfold validId, nameOf. split.
  - intros (path & o' & H1 & H2 & H3). rewrite app_nil_r in H1. subst id.
    rewrite rev_involutive, H2. eauto.
  - intros [[o Ho] H]. rewrite Ho in H. exists (rev id), o.
    rewrite rev_involutive, app_nil_r. auto.
Qed.

Lemma validId_root s : validId s [].
Proof. exists (root s). reflexivity. Qed.

Lemma validId_parent s i p : validId s (i :: p) -> validId s p.
Proof.
  intros [o Ho]. simpl in Ho. rewrite node_at_app in Ho.
  unfold validId. destruct (node_at (root s) (rev p)); [eauto|discriminate].
Qed.

Lemma nameOf_root s : nameOf s [] = name (root s).
Proof. reflexivity. Qed.

Lemma NoDup_fst_inj {A B} (l : list (A * B)) a b b' :
  NoDup (List.map fst l) -> In (a, b) l -> In (a, b') l -> b = b'.
Proof.
  induction l as [|[a0 b0] l IH]; simpl; [tauto|].
  intros Hnd H1 H2. inversion Hnd as [|? ? Hni Hnd']; subst.
  destruct H1 as [H1|H1], H2 as [H2|H2].
  - congruence.
  - injection H1 as -> ->. exfalso. apply Hni.
    now apply (in_map fst) in H2.
  - injection H2 as -> ->. exfalso. apply Hni.
    now apply (in_map fst) in H1.
  - eauto.
Qed.

(** In a tree with unique names only the root bears the root's name. *)
Lemma unique_root_name s id :
  NoDup (treeNames s) -> validId s id -> nameOf s id = name (root s) ->
  id = [].
Proof.
  intros Hnd Hv Hn.
  apply (NoDup_fst_inj (traverse (root s) []) (name (root s))); auto.
  - apply traverse_nameOf. auto.
  - apply traverse_nameOf. split; [apply validId_root|reflexivity].
Qed.

End SceneFacts.

(** ** The name map and the configuration index *)
Section IndexFacts.
Context {JSN : JSNumber} {THREE : Three}.

Lemma getNameChildMap_spec (s : Scene) :
  NoDup (obj_keys (getNameChildMap s)) /\
  (forall n, In n (obj_keys (getNameChildMap s)) <-> In n (treeNames s)) /\
  (forall n id, obj_get n (getNameChildMap s) = Some id ->
                In (n, id) (traverse (root s) [])).
Proof.
  destruct (collect_spec (traverse (root s) []) []) as (H1 & H2 & H3).
  repeat split.
  - apply H1. constructor.
  - intros H. apply H2 in H as [[]|H]. exact H.
  - intros H. apply H2. now right.
  - intros n id H. apply H3 in H as [H|H]; [exact H|discriminate].
Qed.

Lemma map_spec (k : Kinematics) :
  constructed k ->
  NoDup (obj_keys (map k)) /\
  ascending (obj_keys (map k)) /\
  (forall n, In n (obj_keys (map k)) <-> In n (treeNames (scene k))) /\
  (forall n id, obj_get n (map k) = Some id ->
                In (n, id) (traverse (root (scene k)) [])).
Proof.
  intros (Hm & _). rewrite Hm.
  destruct (getNameChildMap_spec (scene k)) as (H1 & H2 & H3).
  destruct (sortObjectKeys_spec (getNameChildMap (scene k)) H1) as [Hk Hg].
  pose proof (KeySort.Permuted_sort (obj_keys (getNameChildMap (scene k))))
    as Hp.
  rewrite Hk. repeat split.
  - eapply Permutation_NoDup; eauto.
  - apply KeySort.Sorted_sort.
  - intros H. apply H2. eapply Permutation_in; [symmetry|]; eauto.
  - intros H. eapply Permutation_in; eauto. now apply H2.
  - intros n id H. rewrite Hg in H. auto.
Qed.

Lemma map_get_nameOf (k : Kinematics) n id :
  constructed k -> obj_get n (map k) = Some id ->
  validId (scene k) id /\ nameOf (scene k) id = n.
Proof.
  intros Hc H. apply traverse_nameOf.
  now apply (map_spec k Hc).
Qed.

(** Distinct names lead to distinct nodes. *)
Lemma map_injective (k : Kinematics) n n' id :
  constructed k ->
  obj_get n (map k) = Some id -> obj_get n' (map k) = Some id -> n = n'.
Proof.
  intros Hc H H'.
  apply (map_get_nameOf k _ _ Hc) in H, H'. destruct H, H'. congruence.
Qed.

(** *** Labels *)

Lemma dofLabels_In label joint :
  In label (dofLabels joint) ->
  (includes "_XYZ_" joint = true /\
   (label = axisLabel joint "x" \/ label = axisLabel joint "y" \/
    label = axisLabel joint "z")) \/
  (includes "_XYZ_" joint = false /\ includes "_Z_" joint = true /\
   label = joint).
Proof.
  unfold dofLabels.
  destruct (includes "_XYZ_" joint); [|destruct (includes "_Z_" joint)];
    simpl; intuition.
Qed.

Lemma dofLabels_NoDup joint : NoDup (dofLabels joint).
Proof.
  unfold dofLabels.
  destruct (includes "_XYZ_" joint); [|destruct (includes "_Z_" joint)];
    repeat constructor; simpl; try tauto;
    intros H; repeat destruct H as [H|H]; try tauto;
    apply axisLabel_inj in H; try reflexivity; destruct H; discriminate.
Qed.

Lemma dofLabels_disjoint label joint joint' :
  In label (dofLabels joint) -> In label (dofLabels joint') -> joint = joint'.
Proof.
  intros H H'. apply dofLabels_In in H, H'.
  destruct H as [[Hx H]|(Hx & Hz & H)], H' as [[Hx' H']|(Hx' & Hz' & H')].
  - repeat destruct H as [H|H]; repeat destruct H' as [H'|H']; subst label;
      apply axisLabel_inj in H'; try reflexivity; destruct H'; congruence.
  - subst joint'. exfalso.
    repeat destruct H as [H|H]; subst label;
      rewrite includes_axisLabel in Hx' by assumption; discriminate.
  - subst joint. exfalso.
    repeat destruct H' as [H'|H']; subst label;
      rewrite includes_axisLabel in Hx by assumption; discriminate.
  - congruence.
Qed.

Lemma flat_map_NoDup {A B} (f : A -> list B) (l : list A) :
  NoDup l -> (forall a, NoDup (f a)) ->
  (forall a b x, In x (f a) -> In x (f b) -> a = b) ->
  NoDup (flat_map f l).
Proof.
  intros Hnd Hf Hdis. induction Hnd as [|a l Hni Hnd IH]; simpl.
  - constructor.
  - apply NoDup_app; auto.
    intros x Hx Hx'. apply in_flat_map in Hx' as (b & Hb & Hxb).
    rewrite (Hdis a b x Hx Hxb) in Hni. tauto.
Qed.

Lemma labels_NoDup (names : list string) :
  NoDup names -> NoDup (flat_map dofLabels names).
Proof.
  intros H. apply flat_map_NoDup; auto using dofLabels_NoDup.
  intros a b x. apply dofLabels_disjoint.
Qed.

End IndexFacts.

Section ConfIndexFacts.
Context {JSN : JSNumber} {THREE : Three}.

Lemma combine_seq_snoc (labels : list string) l : forall a,
  combine (labels ++ [l]) (seq a (length labels + 1)) =
  combine labels (seq a (length labels)) ++ [(l, a + length labels)].
Proof.
  induction labels as [|l0 labels IH]; intros a; simpl.
  - now rewrite Nat.add_0_r.
  - rewrite IH. now rewrite <- plus_n_Sm.
Qed.

Lemma enumerate_snoc labels l :
  enumerate (labels ++ [l]) = enumerate labels ++ [(l, length labels)].
Proof.
  unfold enumerate. rewrite length_app. simpl length.
  apply combine_seq_snoc.
Qed.

Lemma obj_keys_enumerate labels : obj_keys (enumerate labels) = labels.
Proof.
  unfold enumerate, obj_keys. generalize 0.
  induction labels as [|l labels IH]; intros a; simpl; [reflexivity|].
  now rewrite IH.
Qed.

Lemma push_label rv label :
  ~ In label rv ->
  obj_set label (length rv) (enumerate rv) = enumerate (rv ++ [label]) /\
  length rv + 1 = length (rv ++ [label]).
Proof.
  intros H. split.
  - rewrite obj_set_fresh by now rewrite obj_keys_enumerate.
    now rewrite enumerate_snoc.
  - rewrite length_app. reflexivity.
Qed.

Lemma In_combine_seq (labels : list string) : forall a l i,
  In (l, i) (combine labels (seq a (length labels))) <->
  a <= i /\ nth_error labels (i - a) = Some l.
Proof.
  induction labels as [|l0 labels IH]; intros a l i; simpl.
  - split; [tauto|]. intros [_ H]. destruct (i - a); discriminate.
  - rewrite IH. split.
    + intros [H|[H1 H2]].
      * injection H as -> ->. rewrite Nat.sub_diag. auto.
      * split; [lia|]. replace (i - a) with (S (i - S a)) by lia. exact H2.
    + intros [H1 H2]. destruct (i - a) as [|d] eqn:E; simpl in H2.
      * left. injection H2 as ->. f_equal. lia.
      * right. split; [lia|]. replace (i - S a) with d by lia. exact H2.
Qed.

Lemma enumerate_get labels label i :
  NoDup labels ->
  obj_get label (enumerate labels) = Some i <->
  nth_error labels i = Some label.
Proof.
  intros Hnd. split.
  - intros H. apply obj_get_Some_In in H. unfold enumerate in H.
    apply In_combine_seq in H as [_ H]. now rewrite Nat.sub_0_r in H.
  - intros H. apply obj_get_NoDup.
    + now rewrite obj_keys_enumerate.
    + unfold enumerate. apply In_combine_seq. rewrite Nat.sub_0_r.
      split; [lia|exact H].
Qed.

Lemma dofLabels_xyz joint :
  includes "_XYZ_" joint = true ->
  dofLabels joint =
  [axisLabel joint "x"; axisLabel joint "y"; axisLabel joint "z"].
Proof. unfold dofLabels. now intros ->. Qed.

Lemma dofLabels_z joint :
  includes "_XYZ_" joint = false -> includes "_Z_" joint = true ->
  dofLabels joint = [joint].
Proof. unfold dofLabels. now intros -> ->. Qed.

Lemma dofLabels_none joint :
  includes "_XYZ_" joint = false -> includes "_Z_" joint = false ->
  dofLabels joint = [].
Proof. unfold dofLabels. now intros -> ->. Qed.

Lemma NoDup_snoc_fresh {A} (l : list A) a rest :
  NoDup ((l ++ [a]) ++ rest) -> ~ In a l.
Proof.
  intros H. apply NoDup_app_remove_r in H. apply NoDup_remove_2 in H.
  now rewrite app_nil_r in H.
Qed.

Lemma confIndex_fold (m : NameChildMap) : forall rv,
  NoDup (rv ++ flat_map dofLabels (obj_keys m)) ->
  fold_left confIndexStep m (enumerate rv, rv, length rv) =
  (enumerate (rv ++ flat_map dofLabels (obj_keys m)),
   rv ++ flat_map dofLabels (obj_keys m),
   length (rv ++ flat_map dofLabels (obj_keys m))).
Proof.
  induction m as [|[joint c] m IH]; intros rv Hnd.
  - simpl. now rewrite app_nil_r.
  - cbn [fold_left obj_keys List.map flat_map fst] in *.
    fold (obj_keys m) in *.
    unfold confIndexStep at 2.
    destruct (includes "_XYZ_" joint) eqn:EX;
      [|destruct (includes "_Z_" joint) eqn:EZ].
    + rewrite (dofLabels_xyz _ EX) in *.
      replace (rv ++ [axisLabel joint "x"; axisLabel joint "y";
                      axisLabel joint "z"] ++ flat_map dofLabels (obj_keys m))
        with ((((rv ++ [axisLabel joint "x"]) ++ [axisLabel joint "y"])
                ++ [axisLabel joint "z"]) ++ flat_map dofLabels (obj_keys m))
        in * by (rewrite <- !app_assoc; reflexivity).
      pose proof (NoDup_snoc_fresh _ _ _ Hnd) as F3.
      pose proof (NoDup_app_remove_r _ _ Hnd) as H3.
      pose proof (NoDup_snoc_fresh _ _ _ H3) as F2.
      pose proof (NoDup_app_remove_r _ _ H3) as H2.
      pose proof (NoDup_snoc_fresh _ _ _ H2) as F1.
      cbv zeta.
      destruct (push_label _ _ F1) as [-> ->].
      destruct (push_label _ _ F2) as [-> ->].
      destruct (push_label _ _ F3) as [-> ->].
      apply IH. exact Hnd.
    + rewrite (dofLabels_z _ EX EZ) in *.
      replace (rv ++ [joint] ++ flat_map dofLabels (obj_keys m))
        with ((rv ++ [joint]) ++ flat_map dofLabels (obj_keys m))
        in * by (rewrite <- app_assoc; reflexivity).
      pose proof (NoDup_snoc_fresh _ _ _ Hnd) as F1.
      cbv zeta.
      destruct (push_label _ _ F1) as [-> ->].
      apply IH. exact Hnd.
    + rewrite (dofLabels_none _ EX EZ) in *. simpl app in *.
      apply IH. exact Hnd.
Qed.

Lemma confIndex_spec (m : NameChildMap) :
  NoDup (obj_keys m) ->
  confIndex m = (enumerate (flat_map dofLabels (obj_keys m)),
                 flat_map dofLabels (obj_keys m)).
Proof.
  intros Hnd. unfold confIndex.
  change (@nil (string * nat)) with (enumerate []).
  change 0 with (length (@nil string)) at 1.
  rewrite confIndex_fold; [reflexivity|].
  simpl. now apply labels_NoDup.
Qed.

Lemma index_spec (k : Kinematics) :
  constructed k ->
  qConfigIndexReversed k = flat_map dofLabels (obj_keys (map k)) /\
  qConfigIndex k = enumerate (qConfigIndexReversed k) /\
  NoDup (qConfigIndexReversed k) /\
  qConfigLength k = length (qConfigIndexReversed k).
Proof.
  intros Hc. destruct (map_spec k Hc) as (Hnd & _).
  destruct Hc as (_ & Hi & Hl).
  rewrite (confIndex_spec _ Hnd) in Hi. injection Hi as Hix Hrv.
  rewrite Hix, Hrv. repeat split; auto.
  - now apply labels_NoDup.
  - now rewrite Hl, Hrv.
Qed.

Lemma index_lookup (k : Kinematics) label i :
  constructed k ->
  obj_get label (qConfigIndex k) = Some i <->
  nth_error (qConfigIndexReversed k) i = Some label.
Proof.
  intros Hc. destruct (index_spec k Hc) as (_ & -> & Hnd & _).
  now apply enumerate_get.
Qed.

End ConfIndexFacts.

(** ** What no method changes *)
Section FrameFacts.
Context {JSN : JSNumber} {THREE : Three}.

Lemma sameEngine_refl k : sameEngine k k.
Proof. repeat split. Qed.

Lemma sameEngine_trans k1 k2 k3 :
  sameEngine k1 k2 -> sameEngine k2 k3 -> sameEngine k1 k3.
Proof.
  unfold sameEngine. intros H1 H2.
  decompose [and] H1. decompose [and] H2. repeat split; congruence.
Qed.

Lemma keeps_ret {A} (a : A) : keeps (ret a).
Proof. intros k. apply sameEngine_refl. Qed.

Lemma keeps_throw {A} : keeps (@throw Kinematics A).
Proof. intros k. apply sameEngine_refl. Qed.

Lemma keeps_lift {A} (c : Completion A) : keeps (lift c).
Proof. intros k. apply sameEngine_refl. Qed.

Lemma keeps_get_this : keeps get_this.
Proof. intros k. apply sameEngine_refl. Qed.

Lemma keeps_bind {A B} (m : Eff A) (f : A -> Eff B) :
  keeps m -> (forall a, keeps (f a)) -> keeps (bind m f).
Proof.
  intros Hm Hf k. unfold bind. specialize (Hm k).
  destruct (m k) as [[a|] k']; simpl in *; [|exact Hm].
  eapply sameEngine_trans; [exact Hm|apply Hf].
Qed.

Lemma keeps_for_each {A} (xs : list A) (body : A -> Eff unit) :
  (forall x, keeps (body x)) -> keeps (for_each xs body).
Proof.
  intros Hb. induction xs as [|x xs IH]; simpl.
  - apply keeps_ret.
  - apply keeps_bind; auto.
Qed.

Lemma keeps_for_fold {A L} (xs : list A) (body : A -> L -> Eff L) :
  (forall x st, keeps (body x st)) -> forall st, keeps (for_fold xs body st).
Proof.
  intros Hb. induction xs as [|x xs IH]; intros st; simpl.
  - apply keeps_ret.
  - apply keeps_bind; auto.
Qed.

Lemma updateMatrixWorld_frame s id :
  root (updateMatrixWorld s id) = root s /\
  ancestors (updateMatrixWorld s id) = ancestors s /\
  rotationOf (updateMatrixWorld s id) = rotationOf s.
Proof.
  unfold updateMatrixWorld.
  destruct (node_at (root s) (rev id)); simpl; auto.
Qed.

Lemma keeps_setJoint joint qv : keeps (setJoint joint qv).
Proof.
  intros k. unfold setJoint, bind, get_this, modify_scene, throw.
  destruct (obj_get joint (map k)) as [child|]; simpl.
  - destruct (updateMatrixWorld_frame
                (setRotation (scene k) child
                   match qv with
                   | Scalar v =>
                       if negb (yup k)
                       then mkEuler (ex (rotationOf (scene k) child))
                                    (ey (rotationOf (scene k) child)) v
                       else mkEuler (ex (rotationOf (scene k) child)) v
                                    (ez (rotationOf (scene k) child))
                   | Rot3 x y z => mkEuler x y z
                   end) child) as (H1 & H2 & _).
    repeat split; auto.
  - apply sameEngine_refl.
Qed.

Lemma keeps_setConfiguration q : keeps (setConfiguration q).
Proof.
  apply keeps_for_each. intros [joint qv]. apply keeps_setJoint.
Qed.

Lemma keeps_forwardKinematics q A : keeps (forwardKinematics q A).
Proof.
  unfold forwardKinematics.
  repeat (apply keeps_bind; [|intros ?]);
    auto using keeps_get_this, keeps_setConfiguration, keeps_ret.
Qed.

Lemma keeps_getPositionOf m : keeps (getPositionOf m).
Proof. destruct m; [apply keeps_ret|apply keeps_throw]. Qed.

Lemma keeps_ccdStep joint target A alpha jointName dof st :
  keeps (ccdStep joint target A alpha jointName dof st).
Proof.
  unfold ccdStep. apply keeps_bind; [apply keeps_get_this|intros k].
  destruct (obj_get _ (qConfigIndex k)); [|apply keeps_ret].
  destruct (obj_get jointName (ik_fwd st)); [|apply keeps_throw].
  apply keeps_bind; [apply keeps_getPositionOf|intros p_end].
  match goal with |- keeps (if ?c then _ else _) => destruct c end;
    [apply keeps_ret|].
  apply keeps_bind; [apply keeps_lift|intros q'].
  apply keeps_bind; [apply keeps_forwardKinematics|intros fwd].
  apply keeps_bind; [apply keeps_getPositionOf|intros p_end'].
  apply keeps_ret.
Qed.

Lemma keeps_ccdSweep joint target A alpha chain st :
  keeps (ccdSweep joint target A alpha chain st).
Proof.
  unfold ccdSweep. apply keeps_for_fold. intros jointName st'.
  apply keeps_for_fold. intros dof st''. apply keeps_ccdStep.
Qed.

Lemma keeps_ccdLoop joint target A alpha limit chain remaining :
  forall count st,
  keeps (ccdLoop joint target A alpha limit chain remaining count st).
Proof.
  induction remaining as [|r IH]; intros count st; simpl;
    destruct (ngt (lengthSq (ik_dErr st)) limit); try apply keeps_ret.
  apply keeps_bind; [apply keeps_ccdSweep|intros st'; apply IH].
Qed.

Lemma keeps_inverseKinematics q joint target A alpha limit maxIterations :
  keeps (inverseKinematics q joint target A alpha limit maxIterations).
Proof.
  unfold inverseKinematics.
  apply keeps_bind; [apply keeps_get_this|intros k].
  apply keeps_bind; [apply keeps_lift|intros q0].
  apply keeps_bind; [apply keeps_forwardKinematics|intros fwd].
  apply keeps_bind; [apply keeps_getPositionOf|intros p_end].
  apply keeps_bind; [apply keeps_ccdLoop|intros [count st]].
  apply keeps_bind; [apply keeps_lift|intros finalQ]. apply keeps_ret.
Qed.

Lemma keeps_calcJacobian q joint pos dq A :
  keeps (calcJacobian q joint pos dq A).
Proof.
  unfold calcJacobian.
  apply keeps_bind; [apply keeps_get_this|intros k].
  apply keeps_for_fold. intros i jac.
  apply keeps_bind; [apply keeps_lift|intros q2].
  apply keeps_bind; [apply keeps_forwardKinematics|intros fwd2].
  apply keeps_bind; [apply keeps_getPositionOf|intros pos2].
  apply keeps_ret.
Qed.

Lemma constructed_sameEngine k k' :
  sameEngine k k' -> constructed k -> constructed k'.
Proof.
  unfold sameEngine, constructed, getNameChildMap.
  intros H (H1 & H2 & H3). decompose [and] H.
  repeat split; congruence.
Qed.

End FrameFacts.

(** ** [setConfiguration] *)
Section SetConfigurationFacts.
Context {JSN : JSNumber} {THREE : Three}.

Lemma setJoint_known k joint qv child :
  obj_get joint (map k) = Some child ->
  setJoint joint qv k =
  (Normal tt,
   with_scene k
     (updateMatrixWorld
        (setRotation (scene k) child
           (applyValue (yup k) qv (rotationOf (scene k) child))) child)).
Proof.
  intros H. unfold setJoint, bind, get_this. rewrite H.
  unfold modify_scene, applyValue. destruct qv; reflexivity.
Qed.

Lemma setJoint_unknown k joint qv :
  obj_get joint (map k) = None -> setJoint joint qv k = (Throw, k).
Proof. intros H. unfold setJoint, bind, get_this. now rewrite H. Qed.

Lemma setConfiguration_cons joint qv q k :
  setConfiguration ((joint, qv) :: q) k =
  match setJoint joint qv k with
  | (Normal _, k') => setConfiguration q k'
  | (Throw, k') => (Throw, k')
  end.
Proof. reflexivity. Qed.

(** An entry for a name that is not in the tree makes the call throw. *)
Lemma setConfiguration_throws q : forall k,
  (exists joint qv, In (joint, qv) q /\ obj_get joint (map k) = None) ->
  fst (setConfiguration q k) = Throw.
Proof.
  induction q as [|[j v] q IH]; intros k (joint & qv & Hin & Hno).
  - destruct Hin.
  - rewrite setConfiguration_cons.
    pose proof (keeps_setJoint j v k) as Hk.
    destruct (setJoint j v k) as [[[]|] k'] eqn:E; [|reflexivity].
    destruct Hin as [Hin|Hin].
    + injection Hin as -> ->. rewrite setJoint_unknown in E by assumption.
      discriminate.
    + apply IH. exists joint, qv. split; [assumption|].
      simpl in Hk. destruct Hk as (-> & _). assumption.
Qed.

Lemma setConfiguration_returns q : forall k,
  (forall joint qv, In (joint, qv) q -> obj_get joint (map k) <> None) ->
  fst (setConfiguration q k) = Normal tt.
Proof.
  induction q as [|[j v] q IH]; intros k Hall; [reflexivity|].
  rewrite setConfiguration_cons.
  destruct (obj_get j (map k)) as [child|] eqn:E.
  2:{ exfalso. apply (Hall j v); [now left|assumption]. }
  rewrite (setJoint_known _ _ _ _ E).
  apply IH. intros joint qv Hin. simpl. apply (Hall joint qv). now right.
Qed.

(** The rotation of a node after a call that returns: the entries that
    address the node, applied in enumeration order. *)
Lemma setConfiguration_rotation q : forall k,
  (forall joint qv, In (joint, qv) q -> obj_get joint (map k) <> None) ->
  forall id,
  rotationOf (scene (snd (setConfiguration q k))) id =
  fold_left
    (fun r '(joint, qv) =>
       if targets k joint id then applyValue (yup k) qv r else r)
    q (rotationOf (scene k) id).
Proof.
  induction q as [|[j v] q IH]; intros k Hall id; [reflexivity|].
  rewrite setConfiguration_cons.
  destruct (obj_get j (map k)) as [child|] eqn:E.
  2:{ exfalso. apply (Hall j v); [now left|assumption]. }
  rewrite (setJoint_known _ _ _ _ E).
  rewrite IH by (intros joint qv Hin; simpl; apply (Hall joint qv); now right).
  simpl fold_left. unfold targets at 3. rewrite E.
  destruct (updateMatrixWorld_frame
              (setRotation (scene k) child
                 (applyValue (yup k) v (rotationOf (scene k) child))) child)
    as (_ & _ & Hr).
  simpl scene. rewrite Hr. simpl rotationOf. unfold store_set.
  destruct (NodeId_eq_dec child id) as [->|Hne].
  - destruct (NodeId_eq_dec id id); [|congruence]. reflexivity.
  - destruct (NodeId_eq_dec id child); [congruence|]. reflexivity.
Qed.

End SetConfigurationFacts.

(** ** Forward kinematics and construction *)
Section ConstructionFacts.
Context {JSN : JSNumber} {THREE : Three}.

Lemma forwardKinematics_throws q A k :
  fst (setConfiguration q k) = Throw ->
  fst (forwardKinematics q A k) = Throw.
Proof.
  intros H. unfold forwardKinematics, bind, get_this.
  destruct (setConfiguration q k) as [[[]|] k']; [discriminate|reflexivity].
Qed.

Lemma obj_set_has {V} k (v : V) o : In k (obj_keys (obj_set k v o)).
Proof. apply obj_keys_set_In. now left. Qed.

Lemma obj_set_keeps {V} k k' (v : V) o :
  In k' (obj_keys o) -> In k' (obj_keys (obj_set k v o)).
Proof. intros H. apply obj_keys_set_In. now right. Qed.

Lemma homeBias_keys q joint :
  In joint stanceJoints -> In joint (obj_keys (homeBias q)).
Proof.
  unfold stanceJoints, homeBias. simpl.
  intros [<-|[<-|[<-|[<-|[]]]]];
    repeat first [apply obj_set_has | apply obj_set_keeps].
Qed.

Lemma homeBias_others q joint :
  ~ In joint stanceJoints ->
  obj_get joint (homeBias q) = obj_get joint q.
Proof.
  unfold stanceJoints, homeBias. simpl. intros H.
  rewrite !obj_get_set_neq; intuition.
Qed.

Lemma absent_from_map (s : Scene) n :
  ~ In n (treeNames s) ->
  obj_get n (sortObjectKeys (getNameChildMap s)) = None.
Proof.
  intros H. destruct (getNameChildMap_spec s) as (H1 & H2 & _).
  destruct (sortObjectKeys_spec _ H1) as [_ Hg]. rewrite Hg.
  apply obj_get_None. now rewrite H2.
Qed.

End ConstructionFacts.

(** * The claims *)

Import Exact.

Section Claims_construction.
Context {JSN : JSNumber} {THREE : Three}.

(** C9: construction succeeds only if the tree contains all four joints
    of the resting stance.  The constructor biases their entries in the
    captured configuration and applies that configuration through the FK
    evaluator, so for a tree that lacks one of them [new Kinematics]
    throws and no engine is returned. *)
Theorem C9_constructor_needs_stance_joints (s : Scene) (yup : bool) n :
  In n stanceJoints -> ~ In n (treeNames s) ->
  fst (constructor s yup) = Throw.
Proof.
  intros Hn Habs. unfold constructor.
  destruct (confIndex (sortObjectKeys (getNameChildMap s))) as [ind indRev].
  match goal with
  | |- fst (match forwardKinematics ?q ?A ?k with _ => _ end) = _ =>
      assert (Ht : fst (forwardKinematics q A k) = Throw);
      [|destruct (forwardKinematics q A k) as [[fwd|] k'];
        [discriminate|reflexivity]]
  end.
  apply forwardKinematics_throws, setConfiguration_throws.
  simpl homePositionConfig.
  match goal with
  | |- exists joint qv, In (joint, qv) (homeBias ?q) /\ _ =>
      pose proof (homeBias_keys q n Hn) as Hk
  end.
  unfold obj_keys in Hk. apply in_map_iff in Hk as ([joint qv] & <- & Hin).
  exists joint, qv. split; [exact Hin|].
  simpl. now apply absent_from_map.
Qed.

End Claims_construction.

Lemma C9_witness :
  In "RJoint_Front_Lower_Z_R" stanceJoints /\
  ~ In "RJoint_Front_Lower_Z_R" (treeNames Demo.stumpScene) /\
  fst (constructor Demo.stumpScene false) = Throw.
Proof.
  assert (H1 : In "RJoint_Front_Lower_Z_R" stanceJoints)
    by (simpl; tauto).
  assert (H2 : ~ In "RJoint_Front_Lower_Z_R" (treeNames Demo.stumpScene))
    by (vm_compute; intros [H|[]]; discriminate).
  exact (conj H1 (conj H2
    (C9_constructor_needs_stance_joints Demo.stumpScene false _ H1 H2))).
Defined.

(** C1: on an entry whose joint name is not in the tree,
    [setConfiguration] does not skip the entry: [child] is [undefined]
    and [child.rotation] throws.  The entries enumerated before it have
    already been written to the tree. *)
Theorem C1_setConfiguration_unknown_joint_throws :
  let q := [("RJoint_Back_Lower_Z_L", Scalar (Exact.Int 1));
            ("RJoint_Ghost_Z_L", Scalar (Exact.Int 2))] in
  obj_get "RJoint_Ghost_Z_L" (map Demo.engine) = None /\
  fst (setConfiguration q Demo.engine) = Throw /\
  obj_get "RJoint_Back_Lower_Z_L" (getCurrentStateConfig Demo.engine)
    = Some (Scalar (Exact.Int 0)) /\
  obj_get "RJoint_Back_Lower_Z_L"
          (getCurrentStateConfig (snd (setConfiguration q Demo.engine)))
    = Some (Scalar (Exact.Int 1)).
Proof.
  cbv zeta. split; [vm_compute; reflexivity|].
  split; [vm_compute; reflexivity|].
  split; vm_compute; reflexivity.
Qed.

Section Claims_index.
Context {JSN : JSNumber} {THREE : Three}.

Lemma constructor_constructed (s : Scene) (yup : bool) k :
  fst (constructor s yup) = Normal k ->
  constructed k /\ root (scene k) = root s.
Proof.
  unfold constructor.
  destruct (confIndex (sortObjectKeys (getNameChildMap s)))
    as [ind indRev] eqn:Ei.
  match goal with
  | |- fst (match forwardKinematics ?q ?A ?k0 with _ => _ end) = _ -> _ =>
      pose proof (keeps_forwardKinematics q A k0) as Hk;
      assert (Hc : constructed k0) by (repeat split; simpl; auto);
      assert (Hr : root (scene k0) = root s) by reflexivity;
      destruct (forwardKinematics q A k0) as [[fwd|] k'];
        [|discriminate]
  end.
  simpl in Hk. intros [= <-].
  pose proof (constructed_sameEngine _ _ Hk Hc) as Hc'.
  split.
  - destruct Hc' as (H1 & H2 & H3). repeat split; simpl; auto.
  - simpl. destruct Hk as (_ & _ & _ & _ & _ & _ & _ & Hroot & _).
    congruence.
Qed.

Lemma length_flat_map_sum {A B} (f : A -> list B) (l : list A) :
  length (flat_map f l) = list_sum (List.map (fun a => length (f a)) l).
Proof.
  induction l as [|a l IH]; simpl; [reflexivity|].
  now rewrite length_app, IH.
Qed.

(** C4: the index built at construction lists the DOF labels in
    ascending order of the joint names, three consecutive slots (x, y,
    z) for a name marked [_XYZ_] and one slot for a name marked [_Z_];
    label-to-index and index-to-label are inverse bijections between the
    labels and the slots below the total DOF count; no method of the
    engine changes them. *)
Theorem C4_configuration_index (s : Scene) (yup : bool) (k : Kinematics) :
  fst (constructor s yup) = Normal k ->
  (exists names,
     ascending names /\ NoDup names /\
     (forall n, In n names <-> In n (treeNames s)) /\
     qConfigIndexReversed k = flat_map dofLabels names /\
     qConfigLength k =
       list_sum (List.map (fun n => length (dofLabels n)) names)) /\
  (forall label i,
     obj_get label (qConfigIndex k) = Some i <->
     nth_error (qConfigIndexReversed k) i = Some label) /\
  (forall i, i < qConfigLength k <->
             exists label, obj_get label (qConfigIndex k) = Some i) /\
  (forall label, In label (qConfigIndexReversed k) <->
                 exists i, obj_get label (qConfigIndex k) = Some i) /\
  (forall (op : Operation) (k' : Kinematics),
     indexOf (after op k') = indexOf k').
Proof.
  intros Hk. apply constructor_constructed in Hk as [Hc Hroot].
  destruct (map_spec k Hc) as (Hnd & Hasc & Hnames & _).
  destruct (index_spec k Hc) as (Hrv & Hix & Hndl & Hlen).
  pose proof (index_lookup k) as Hlook.
  repeat split.
  - exists (obj_keys (map k)). repeat split; auto.
    + intros H. apply Hnames in H. unfold treeNames in *. congruence.
    + intros H. apply Hnames. unfold treeNames in *. congruence.
    + now rewrite Hlen, Hrv, length_flat_map_sum.
  - now apply Hlook.
  - now apply Hlook.
  - intros Hi. rewrite Hlen in Hi.
    destruct (nth_error (qConfigIndexReversed k) i) as [label|] eqn:E.
    + exists label. now apply Hlook.
    + apply nth_error_None in E. lia.
  - intros [label H]. apply Hlook in H; [|assumption].
    rewrite Hlen. apply nth_error_Some. congruence.
  - intros H. apply In_nth_error in H as [i H]. exists i. now apply Hlook.
  - intros [i H]. apply Hlook in H; [|assumption]. eapply nth_error_In; eauto.
  - intros op k'. unfold indexOf.
    assert (Hs : sameEngine k' (after op k')).
    { destruct op; simpl.
      - apply keeps_setConfiguration.
      - apply keeps_forwardKinematics.
      - apply keeps_inverseKinematics.
      - apply keeps_calcJacobian. }
    destruct Hs as (_ & _ & _ & -> & -> & -> & _). reflexivity.
Qed.

End Claims_index.

Lemma newKinematics_returned (s : Scene) (yup : bool) :
  returned (fst (constructor s yup)) = true ->
  fst (constructor s yup) = Normal (Demo.newKinematics s yup).
Proof.
  unfold Demo.newKinematics.
  destruct (constructor s yup) as [[k|] s']; simpl; congruence.
Qed.

Lemma C4_witness :
  fst (constructor Demo.bearScene false) = Normal Demo.engine /\
  (forall label i,
     obj_get label (qConfigIndex Demo.engine) = Some i <->
     nth_error (qConfigIndexReversed Demo.engine) i = Some label).
Proof.
  assert (H : fst (constructor Demo.bearScene false) = Normal Demo.engine)
    by (apply newKinematics_returned; vm_compute; reflexivity).
  split; [exact H|].
  exact (proj1 (proj2
    (C4_configuration_index Demo.bearScene false Demo.engine H))).
Defined.

(** The index of the demonstration engine. *)
Example demo_index :
  qConfigIndexReversed Demo.engine =
    ["RJoint_Back_Lower_Z_L"; "RJoint_Back_Lower_Z_R";
     "RJoint_Back_Upper_XYZ_L/x"; "RJoint_Back_Upper_XYZ_L/y";
     "RJoint_Back_Upper_XYZ_L/z"; "RJoint_Front_Lower_Z_L";
     "RJoint_Front_Lower_Z_R"].
Proof. vm_compute. reflexivity. Qed.

Section Claims_currentState.
Context {JSN : JSNumber} {THREE : Three}.

Lemma stateEntry_keys k name child n :
  In n (obj_keys (stateEntry k (name, child))) -> n = name.
Proof.
  unfold stateEntry.
  destruct (startsWith "RJoint_" name); [|intros []].
  destruct (includes "_XYZ_" name); [|destruct (includes "_Z_" name)];
    simpl; intuition.
Qed.

Lemma getCurrentStateConfig_fold k (l : NameChildMap) : forall acc,
  NoDup (obj_keys acc ++ obj_keys l) ->
  fold_left
    (fun q '(name, child) =>
       if startsWith "RJoint_" name then
         let rotation := rotationOf (scene k) child in
         if includes "_XYZ_" name then
           obj_set name (Rot3 (ex rotation) (ey rotation) (ez rotation)) q
         else if includes "_Z_" name then
           obj_set name (Scalar (ez rotation)) q
         else q
       else q) l acc =
  acc ++ flat_map (stateEntry k) l.
Proof.
  induction l as [|[name child] l IH]; intros acc Hnd.
  - simpl. now rewrite app_nil_r.
  - cbn [fold_left flat_map].
    remember (stateEntry k (name, child)) as e eqn:Ee.
    unfold stateEntry in Ee.
    simpl obj_keys in Hnd.
    assert (Hf : ~ In name (obj_keys acc)).
    { apply NoDup_remove_2 in Hnd. rewrite in_app_iff in Hnd. tauto. }
    assert (Hnd' : forall v,
      NoDup (obj_keys (acc ++ [(name, v)]) ++ obj_keys l)).
    { intros v. rewrite obj_keys_app, <- app_assoc. exact Hnd. }
    apply NoDup_remove_1 in Hnd.
    destruct (startsWith "RJoint_" name);
      [destruct (includes "_XYZ_" name);
         [|destruct (includes "_Z_" name)]|];
      cbv zeta in *; subst e; try rewrite (obj_set_fresh _ _ _ Hf);
      rewrite IH by auto; try rewrite <- app_assoc; reflexivity.
Qed.

Lemma getCurrentStateConfig_flat_map k :
  NoDup (obj_keys (map k)) ->
  getCurrentStateConfig k = flat_map (stateEntry k) (map k).
Proof.
  intros H. unfold getCurrentStateConfig.
  now rewrite getCurrentStateConfig_fold.
Qed.

Lemma obj_get_app {V} k (o o' : JSObj V) :
  obj_get k (o ++ o') =
  match obj_get k o with Some v => Some v | None => obj_get k o' end.
Proof.
  induction o as [|[k0 v0] o IH]; simpl; [reflexivity|].
  destruct (String.eqb k k0); auto.
Qed.

Lemma obj_get_stateEntries k (m : NameChildMap) name :
  NoDup (obj_keys m) ->
  obj_get name (flat_map (stateEntry k) m) =
  match obj_get name m with
  | Some child => obj_get name (stateEntry k (name, child))
  | None => None
  end.
Proof.
  induction m as [|[n0 c0] m IH]; intros Hnd; [reflexivity|].
  inversion Hnd as [|? ? Hni Hnd']; subst.
  cbn [flat_map]. rewrite obj_get_app. simpl obj_get at 3.
  destruct (String.eqb_spec name n0) as [->|Hne].
  - destruct (obj_get n0 (stateEntry k (n0, c0))) eqn:E; [reflexivity|].
    rewrite IH by assumption.
    destruct (obj_get n0 m) eqn:E'; [|reflexivity].
    apply obj_get_Some_key in E'. tauto.
  - destruct (obj_get name (stateEntry k (n0, c0))) eqn:E.
    + apply obj_get_Some_key, stateEntry_keys in E. congruence.
    + now apply IH.
Qed.

(** C8 (amended): [getCurrentStateConfig] returns an entry exactly for
    the nodes whose name starts with [RJoint_] and carries a DOF marker:
    the three Euler angles of the node for a name marked [_XYZ_], the z
    angle for a name marked [_Z_], read from the node's current rotation.
    A marked node without the prefix contributes to the index but gets no
    entry. *)
Theorem C8_getCurrentStateConfig_entries (k : Kinematics) :
  constructed k ->
  forall name,
    obj_get name (getCurrentStateConfig k) = stateValue k name.
Proof.
  intros Hc name. destruct (map_spec k Hc) as (Hnd & _).
  rewrite getCurrentStateConfig_flat_map by assumption.
  rewrite obj_get_stateEntries by assumption.
  unfold stateValue. destruct (obj_get name (map k)) as [child|];
    [|reflexivity].
  unfold stateEntry.
  destruct (startsWith "RJoint_" name); [|reflexivity].
  destruct (includes "_XYZ_" name); [|destruct (includes "_Z_" name)];
    simpl; try rewrite String.eqb_refl; reflexivity.
Qed.

End Claims_currentState.

Lemma demo_engine_constructed : constructed Demo.engine.
Proof. repeat split; vm_compute; reflexivity. Qed.

Lemma C8_witness :
  constructed Demo.engine /\
  obj_get "RJoint_Back_Upper_XYZ_L" (getCurrentStateConfig Demo.engine)
  = stateValue Demo.engine "RJoint_Back_Upper_XYZ_L".
Proof.
  split; [exact demo_engine_constructed|].
  exact (C8_getCurrentStateConfig_entries Demo.engine
           demo_engine_constructed "RJoint_Back_Upper_XYZ_L").
Defined.

(** C8 as stated fails: [Tail_Z_Base] contributes a label to the index
    of this engine and has no entry in its current configuration. *)
Lemma C8_counterexample :
  returned (fst (constructor (Demo.sceneOf Demo.bearWithTail ["Scene"])
                             false)) = true /\
  In "Tail_Z_Base" (obj_keys (map Demo.engineWithTail)) /\
  obj_get "Tail_Z_Base" (qConfigIndex Demo.engineWithTail) = Some 7 /\
  obj_get "Tail_Z_Base" (getCurrentStateConfig Demo.engineWithTail) = None.
Proof.
  split; [vm_compute; reflexivity|].
  split; [vm_compute; tauto|].
  split; vm_compute; reflexivity.
Qed.

Section Claims_chain.
Context {JSN : JSNumber} {THREE : Three}.

Lemma distinct_NoDup l : distinct l = true -> NoDup l.
Proof.
  induction l as [|a l IH]; simpl; intros H; constructor;
    apply andb_prop in H as [H1 H2]; auto.
  intros Hin. apply negb_true_iff in H1.
  assert (existsb (String.eqb a) l = true); [|congruence].
  apply existsb_exists. exists a. split; [assumption|apply String.eqb_refl].
Qed.

Lemma climb_spec (s : Scene) :
  NoDup (treeNames s) ->
  forall id chain, validId s id ->
  climb s id chain =
  chain ++ filter (startsWith "RJoint_")
                  (List.map (nameOf s) (fromNodeUp id)).
Proof.
  intros Hnd. induction id as [|i parent IH]; intros chain Hv.
  - simpl. rewrite String.eqb_refl. simpl. now rewrite app_nil_r.
  - cbn [climb fromNodeUp List.map filter].
    destruct (String.eqb_spec (nameOf s (i :: parent)) (name (root s)))
      as [He|Hne].
    + apply unique_root_name in He; [discriminate|assumption..].
    + cbn [negb]. rewrite IH by (eapply validId_parent; eauto).
      destruct (startsWith "RJoint_" (nameOf s (i :: parent)));
        [rewrite <- app_assoc|]; reflexivity.
Qed.

(** C7 (amended): in a tree with unique names, for an effector that is a
    node other than the root, [getChain] returns the names of the strict
    ancestors of the effector below the root that start with [RJoint_],
    base joint first and each once, followed by the effector name; for a
    name that is not in the tree it returns that name alone. *)
Theorem C7_getChain (k : Kinematics) :
  constructed k -> NoDup (treeNames (scene k)) ->
  (forall effector id,
     In (effector, id) (traverse (root (scene k)) []) ->
     effector <> name (root (scene k)) ->
     getChain k effector =
     rev (effector ::
          filter (startsWith "RJoint_")
                 (List.map (nameOf (scene k)) (ancestorsBelowRoot id)))) /\
  (forall effector,
     ~ In effector (treeNames (scene k)) -> getChain k effector = [effector]).
Proof.
  intros Hc Hnd. destruct (map_spec k Hc) as (_ & _ & Hnames & Hget). split.
  - intros effector id Hin Hne.
    assert (Hk : In effector (obj_keys (map k))).
    { apply Hnames. unfold treeNames. now apply (in_map fst) in Hin. }
    destruct (obj_get effector (map k)) as [id'|] eqn:E.
    2:{ apply obj_get_None in E. tauto. }
    assert (id' = id).
    { eapply NoDup_fst_inj; [exact Hnd|apply Hget; exact E|exact Hin]. }
    subst id'. apply traverse_nameOf in Hin as [Hv Hname].
    unfold getChain. rewrite E. destruct id as [|i parent].
    + rewrite nameOf_root in Hname. congruence.
    + rewrite climb_spec by (try assumption; eapply validId_parent; eauto).
      reflexivity.
  - intros effector Habs. unfold getChain.
    destruct (obj_get effector (map k)) as [id|] eqn:E; [|reflexivity].
    apply obj_get_Some_key, Hnames in E. tauto.
Qed.

End Claims_chain.

Lemma demo_names_distinct : NoDup (treeNames (scene Demo.engine)).
Proof. apply distinct_NoDup. vm_compute. reflexivity. Qed.

Lemma C7_witness :
  getChain Demo.engine "Effector_Back_L"
  = ["RJoint_Back_Upper_XYZ_L"; "RJoint_Back_Lower_Z_L"; "Effector_Back_L"] /\
  getChain Demo.engine "Effector_Tail" = ["Effector_Tail"].
Proof.
  pose proof (C7_getChain Demo.engine demo_engine_constructed
                demo_names_distinct) as [H1 H2].
  split.
  - rewrite (H1 "Effector_Back_L" [0; 0; 0]).
    + vm_compute. reflexivity.
    + vm_compute. tauto.
    + vm_compute. discriminate.
  - apply H2. vm_compute. intuition discriminate.
Defined.

(** C7 as stated fails when the effector is the root itself: the walk
    starts at the root's parent and never meets the root, so it collects
    joints above the tree. *)
Lemma C7_counterexample :
  In ("Bear", []) (traverse (root (scene Demo.engineOnRig)) []) /\
  ancestorsBelowRoot [] = [] /\
  getChain Demo.engineOnRig "Bear" = ["RJoint_Mount_Z_Rig"; "Bear"].
Proof. vm_compute. intuition. Qed.

Section Claims_restoration.
Context {JSN : JSNumber} {THREE : Three}.

Lemma setConfiguration_applyTo q k id :
  (forall joint qv, In (joint, qv) q -> obj_get joint (map k) <> None) ->
  rotationOf (scene (snd (setConfiguration q k))) id =
  fold_left (applyTo k id) q (rotationOf (scene k) id).
Proof. intros H. now rewrite setConfiguration_rotation. Qed.

Lemma stateEntry_known k n c joint qv :
  In (joint, qv) (stateEntry k (n, c)) -> joint = n.
Proof.
  intros H. apply (stateEntry_keys k n c).
  unfold obj_keys. now apply (in_map fst) in H.
Qed.

Lemma getCurrentStateConfig_known k :
  constructed k ->
  forall joint qv, In (joint, qv) (getCurrentStateConfig k) ->
                   obj_get joint (map k) <> None.
Proof.
  intros Hc joint qv Hin. destruct (map_spec k Hc) as (Hnd & _).
  rewrite getCurrentStateConfig_flat_map in Hin by assumption.
  apply in_flat_map in Hin as ([n c] & Hm & He).
  apply stateEntry_known in He. subst joint.
  rewrite (obj_get_NoDup _ _ _ Hnd Hm). discriminate.
Qed.

(** Entries for other nodes leave the rotation of [id] alone. *)
Lemma restore_skips k k1 id r (m : NameChildMap) :
  map k1 = map k ->
  (forall n c, In (n, c) m -> obj_get n (map k) = Some c /\ c <> id) ->
  fold_left (applyTo k1 id) (flat_map (stateEntry k) m) r = r.
Proof.
  intros Hm. revert r. induction m as [|[n0 c0] m IH]; intros r Hall;
    [reflexivity|].
  cbn [flat_map]. rewrite fold_left_app.
  destruct (Hall n0 c0 (or_introl eq_refl)) as [Hg Hne].
  assert (Hskip : forall qv, applyTo k1 id r (n0, qv) = r).
  { intros qv. unfold applyTo, targets. rewrite Hm, Hg.
    destruct (NodeId_eq_dec c0 id); [contradiction|reflexivity]. }
  assert (Hhead : fold_left (applyTo k1 id) (stateEntry k (n0, c0)) r = r).
  { unfold stateEntry.
    destruct (startsWith "RJoint_" n0); [|reflexivity].
    destruct (includes "_XYZ_" n0); [|destruct (includes "_Z_" n0)];
      cbn [fold_left]; auto. }
  rewrite Hhead. apply IH. intros n c Hin. apply Hall. now right.
Qed.

(** Applying the saved configuration writes to each node the entry that
    was saved for it. *)
Lemma restore_rotation k k1 n id r :
  constructed k -> map k1 = map k ->
  In (n, id) (map k) ->
  fold_left (applyTo k1 id) (getCurrentStateConfig k) r =
  fold_left (applyTo k1 id) (stateEntry k (n, id)) r.
Proof.
  intros Hc Hm Hin. destruct (map_spec k Hc) as (Hnd & _).
  rewrite getCurrentStateConfig_flat_map by assumption.
  assert (Hsub : forall n' c, In (n', c) (map k) ->
                              obj_get n' (map k) = Some c).
  { intros n' c H. now apply obj_get_NoDup. }
  revert Hnd Hin Hsub. generalize (map k) at 1 2 3 5.
  intros m. revert r. induction m as [|[n0 c0] m IH]; intros r Hnd Hin Hsub;
    [destruct Hin|].
  inversion Hnd as [|? ? Hni Hnd']; subst.
  cbn [flat_map]. rewrite fold_left_app.
  assert (Hother : forall n' c, In (n', c) m -> c = id -> n' = n).
  { intros n' c H ->. apply (map_injective k n' n id Hc).
    - apply Hsub. now right.
    - apply Hsub. exact Hin. }
  destruct Hin as [Hin|Hin].
  - injection Hin as -> ->.
    apply restore_skips; [assumption|].
    intros n' c H. split; [apply Hsub; now right|].
    intros ->. apply Hni. rewrite <- (Hother n' id H eq_refl).
    unfold obj_keys. now apply (in_map fst) in H.
  - assert (Hne : c0 <> id).
    { intros ->. apply Hni.
      assert (n0 = n).
      { apply (map_injective k n0 n id Hc); apply Hsub;
          [now left|now right]. }
      subst n0. unfold obj_keys. now apply (in_map fst) in Hin. }
    assert (Hhead :
      fold_left (applyTo k1 id) (stateEntry k (n0, c0)) r = r).
    { pose proof (restore_skips k k1 id r [(n0, c0)] Hm) as H.
      cbn [flat_map] in H. rewrite app_nil_r in H. apply H.
      intros n' c [H'|[]]. injection H' as <- <-.
      split; [apply Hsub; now left|assumption]. }
    rewrite Hhead. apply IH; auto.
    intros n' c H. apply Hsub. now right.
Qed.

(** Under the Y-up convention a scalar entry writes the y angle, so a
    configuration without triples on 1-DOF joints leaves their z angle
    as it was. *)
Lemma apply_keeps_z k n id q :
  constructed k -> yup k = true ->
  obj_get n (map k) = Some id -> includes "_XYZ_" n = false ->
  (forall joint x y z,
     In (joint, Rot3 x y z) q -> includes "_XYZ_" joint = true) ->
  forall r, ez (fold_left (applyTo k id) q r) = ez r.
Proof.
  intros Hc Hy Hg Hx. induction q as [|[j v] q IH]; intros Hty r;
    [reflexivity|].
  cbn [fold_left]. rewrite IH by (intros; eapply Hty; right; eauto).
  unfold applyTo, targets.
  destruct (obj_get j (map k)) as [c|] eqn:E; [|reflexivity].
  destruct (NodeId_eq_dec c id) as [->|]; [|reflexivity].
  assert (j = n) by (eapply map_injective; eauto). subst j.
  destruct v as [v|x y z].
  - simpl. rewrite Hy. reflexivity.
  - rewrite (Hty n x y z) in Hx by now left. discriminate.
Qed.

Lemma forwardKinematics_run q A k :
  fst (setConfiguration q k) = Normal tt ->
  fst (setConfiguration (getCurrentStateConfig k)
                        (snd (setConfiguration q k))) = Normal tt ->
  forwardKinematics q A k =
  (Normal
     (forwardKinematicsRec
        (matrixWorldOf (scene (snd (setConfiguration q k))))
        (root (scene (snd (setConfiguration q k)))) [] q A []),
   snd (setConfiguration (getCurrentStateConfig k)
                         (snd (setConfiguration q k)))).
Proof.
  intros H1 H2. unfold forwardKinematics, bind, get_this, ret.
  destruct (setConfiguration q k) as [[[]|] k1]; [|discriminate].
  simpl in H2 |- *.
  destruct (setConfiguration (getCurrentStateConfig k) k1) as [[[]|] k2];
    [reflexivity|discriminate].
Qed.

(** The evaluator returns when every joint of the configuration is a
    node of the tree. *)
Lemma forwardKinematics_returns q k :
  constructed k ->
  (forall joint qv, In (joint, qv) q -> obj_get joint (map k) <> None) ->
  fst (setConfiguration q k) = Normal tt /\
  fst (setConfiguration (getCurrentStateConfig k)
                        (snd (setConfiguration q k))) = Normal tt.
Proof.
  intros Hc Hq. split; [now apply setConfiguration_returns|].
  apply setConfiguration_returns. intros joint qv Hin.
  destruct (keeps_setConfiguration q k) as (-> & _).
  eapply getCurrentStateConfig_known; eauto.
Qed.

Lemma flat_map_agree {X Y} (f g : X -> list Y) (l : list X) :
  (forall a, In a l -> f a = g a) -> flat_map f l = flat_map g l.
Proof.
  induction l as [|a l IH]; intros H; simpl; [reflexivity|].
  rewrite H by now left. rewrite IH; [reflexivity|].
  intros b Hb. apply H. now right.
Qed.

(** X19: for a configuration all of whose joints are nodes of the tree,
    and which under the Y-up convention gives a triple only to joints
    marked [_XYZ_], one call of the FK evaluator returns and leaves
    [getCurrentStateConfig] as it was before the call. *)
Theorem X19_forwardKinematics_restores_config (k : Kinematics)
    (q : JointAngles)
    (A : Matrix4) :
  constructed k ->
  (forall joint qv, In (joint, qv) q -> obj_get joint (map k) <> None) ->
  (yup k = true ->
   forall joint x y z,
     In (joint, Rot3 x y z) q -> includes "_XYZ_" joint = true) ->
  (exists links, fst (forwardKinematics q A k) = Normal links) /\
  getCurrentStateConfig (snd (forwardKinematics q A k))
  = getCurrentStateConfig k.
Proof.
  intros Hc Hq Hty.
  destruct (forwardKinematics_returns q k Hc Hq) as [R1 R2].
  rewrite (forwardKinematics_run q A k R1 R2).
  split; [eexists; reflexivity|]. cbn [snd].
  set (k1 := snd (setConfiguration q k)) in *.
  set (k2 := snd (setConfiguration (getCurrentStateConfig k) k1)).
  pose proof (keeps_setConfiguration q k) as S1. fold k1 in S1.
  pose proof (keeps_setConfiguration (getCurrentStateConfig k) k1) as S2.
  fold k2 in S2.
  pose proof (sameEngine_trans _ _ _ S1 S2) as S12.
  destruct S1 as (M1 & _ & _ & _ & _ & _ & Y1 & _).
  destruct S12 as (M2 & _).
  destruct (map_spec k Hc) as (Hnd & _).
  rewrite !getCurrentStateConfig_flat_map by congruence.
  rewrite M2. apply flat_map_agree. intros [n id] Hin.
  assert (Hg : obj_get n (map k) = Some id) by now apply obj_get_NoDup.
  assert (Hr2 : rotationOf (scene k2) id =
                fold_left (applyTo k1 id) (stateEntry k (n, id))
                          (rotationOf (scene k1) id)).
  { unfold k2. rewrite setConfiguration_applyTo.
    - now apply restore_rotation.
    - intros joint qv H. rewrite M1.
      eapply getCurrentStateConfig_known; eauto. }
  assert (Hr1 : rotationOf (scene k1) id =
                fold_left (applyTo k id) q (rotationOf (scene k) id)).
  { unfold k1. now apply setConfiguration_applyTo. }
  assert (Ht : targets k1 n id = true).
  { unfold targets. rewrite M1, Hg.
    destruct (NodeId_eq_dec id id); congruence. }
  unfold stateEntry in *.
  destruct (startsWith "RJoint_" n); [|reflexivity].
  destruct (includes "_XYZ_" n) eqn:EX;
    [|destruct (includes "_Z_" n); [|reflexivity]].
  - rewrite Hr2. simpl. rewrite Ht. reflexivity.
  - rewrite Hr2. simpl. rewrite Ht, Y1. simpl.
    destruct (yup k) eqn:EY; simpl; [|reflexivity].
    rewrite Hr1. rewrite (apply_keeps_z k n id q); auto.
    apply Hty. reflexivity.
Qed.

End Claims_restoration.

Lemma X19_witness :
  let q := [("RJoint_Back_Upper_XYZ_L",
             Rot3 (Int 1) (Int 2) (Int 3));
            ("RJoint_Back_Lower_Z_R", Scalar (Int 4));
            ("Neck", Scalar (Int 5))] in
  getCurrentStateConfig (snd (forwardKinematics q identity Demo.engineYup))
  = getCurrentStateConfig Demo.engineYup.
Proof.
  intros q.
  assert (Hc : constructed Demo.engineYup)
    by (repeat split; vm_compute; reflexivity).
  assert (Hq : forall joint qv, In (joint, qv) q ->
                 obj_get joint (map Demo.engineYup) <> None).
  { intros joint qv [H|[H|[H|[]]]]; injection H as <- <-;
      vm_compute; discriminate. }
  assert (Hty : yup Demo.engineYup = true ->
                forall joint x y z, In (joint, Rot3 x y z) q ->
                                    includes "_XYZ_" joint = true).
  { intros _ joint x y z [H|[H|[H|[]]]]; try discriminate.
    injection H as <- _ _ _. vm_compute. reflexivity. }
  exact (proj2 (X19_forwardKinematics_restores_config
                  Demo.engineYup q identity Hc Hq Hty)).
Defined.

(** C2: an entry for a name that is not in the tree makes the FK
    evaluator throw inside its first [setConfiguration], after the
    entries before it were applied; the restore step is not reached, and
    the queryable configuration after the call is not the one before
    it. *)
Theorem C2_forwardKinematics_not_restored :
  let q := [("RJoint_Back_Lower_Z_L", Scalar (Int 1));
            ("RJoint_Ghost_Z_L", Scalar (Int 2))] in
  obj_get "RJoint_Ghost_Z_L" (map Demo.engine) = None /\
  fst (forwardKinematics q identity Demo.engine) = Throw /\
  obj_get "RJoint_Back_Lower_Z_L" (getCurrentStateConfig Demo.engine)
    = Some (Scalar (Int 0)) /\
  obj_get "RJoint_Back_Lower_Z_L"
          (getCurrentStateConfig
             (snd (forwardKinematics q identity Demo.engine)))
    = Some (Scalar (Int 1)).
Proof.
  cbv zeta. split; [vm_compute; reflexivity|].
  split; [vm_compute; reflexivity|].
  split; vm_compute; reflexivity.
Qed.

(** Under the Y-up convention a triple given to a 1-DOF joint changes
    its z angle, and the restore step writes the saved z angle to y:
    the evaluator returns and the queryable configuration has
    changed. *)
Example forwardKinematics_yup_triple_not_restored :
  returned
    (fst (forwardKinematics
            [("RJoint_Back_Lower_Z_L", Rot3 (Int 0) (Int 0) (Int 5))]
            identity Demo.engineYup)) = true /\
  obj_get "RJoint_Back_Lower_Z_L" (getCurrentStateConfig Demo.engineYup)
    = Some (Scalar (Int 0)) /\
  obj_get "RJoint_Back_Lower_Z_L"
    (getCurrentStateConfig
       (snd (forwardKinematics
               [("RJoint_Back_Lower_Z_L", Rot3 (Int 0) (Int 0) (Int 5))]
               identity Demo.engineYup)))
    = Some (Scalar (Int 5)).
Proof. repeat split; vm_compute; reflexivity. Qed.

(** ** Configurations as vectors *)
Section VectorFacts.
Context {JSN : JSNumber} {THREE : Three}.

Lemma array_set_length i v (vec : list num) :
  i < length vec -> length (array_set i v vec) = length vec.
Proof.
  intros H. unfold array_set.
  destruct (Nat.ltb_spec i (length vec)); [|lia].
  rewrite length_app. cbn [length].
  rewrite length_firstn, length_skipn. lia.
Qed.

Lemma array_set_nth_error i v (vec : list num) j :
  i < length vec ->
  nth_error (array_set i v vec) j =
  if Nat.eqb j i then Some v else nth_error vec j.
Proof.
  intros H. unfold array_set.
  destruct (Nat.ltb_spec i (length vec)); [|lia].
  destruct (Nat.eqb_spec j i) as [->|Hne].
  - rewrite nth_error_app2 by (rewrite length_firstn; lia).
    rewrite length_firstn.
    replace (i - Nat.min i (length vec)) with 0 by lia. reflexivity.
  - destruct (Nat.lt_ge_cases j i).
    + rewrite nth_error_app1 by (rewrite length_firstn; lia).
      now rewrite nth_error_firstn, (proj2 (Nat.ltb_lt _ _)).
    + rewrite nth_error_app2 by (rewrite length_firstn; lia).
      rewrite length_firstn.
      replace (j - Nat.min i (length vec)) with (S (j - S i)) by lia.
      cbn [nth_error]. rewrite nth_error_skipn. f_equal. lia.
Qed.

Lemma holds_write k vec f label v :
  constructed k -> holds k vec f ->
  holds k (array_set_at (obj_get label (qConfigIndex k)) v vec)
        (fun l => if String.eqb l label then v else f l).
Proof.
  intros Hc [Hlen Hv].
  destruct (index_spec k Hc) as (_ & _ & _ & Hn).
  destruct (obj_get label (qConfigIndex k)) as [i0|] eqn:E; simpl.
  - apply (index_lookup k _ _ Hc) in E.
    assert (Hi0 : i0 < length vec).
    { rewrite Hlen, Hn. apply nth_error_Some. congruence. }
    split; [now rewrite array_set_length|].
    intros i l Hl. rewrite array_set_nth_error by assumption.
    destruct (Nat.eqb_spec i i0) as [->|Hne].
    + assert (l = label) by congruence. subst l.
      now rewrite String.eqb_refl.
    + destruct (String.eqb_spec l label) as [->|]; [|now apply Hv].
      apply (index_lookup k _ _ Hc) in Hl, E. congruence.
  - split; [assumption|]. intros i l Hl.
    destruct (String.eqb_spec l label) as [->|]; [|now apply Hv].
    apply (index_lookup k _ _ Hc) in Hl. congruence.
Qed.

Lemma holds_ext k vec f g :
  (forall l, f l = g l) -> holds k vec f -> holds k vec g.
Proof.
  intros H [H1 H2]. split; [assumption|].
  intros i l Hl. rewrite <- H. now apply H2.
Qed.

Lemma configToVector_fold k q :
  constructed k ->
  forall vec f, holds k vec f ->
  holds k
    (fold_left
       (fun vec '(joint, qv) =>
          match qv with
          | Rot3 x y z =>
              let vec :=
                array_set_at
                  (obj_get (axisLabel joint "x") (qConfigIndex k)) x vec in
              let vec :=
                array_set_at
                  (obj_get (axisLabel joint "y") (qConfigIndex k)) y vec in
              array_set_at
                (obj_get (axisLabel joint "z") (qConfigIndex k)) z vec
          | Scalar v => array_set_at (obj_get joint (qConfigIndex k)) v vec
          end) q vec)
    (fun label =>
       fold_left
         (fun acc '(joint, qv) =>
            match writes joint qv label with
            | Some v => v
            | None => acc
            end) q (f label)).
Proof.
  intros Hc. induction q as [|[joint qv] q IH]; intros vec f H;
    [exact H|].
  cbn [fold_left]. apply IH. destruct qv as [v|x y z]; cbv zeta.
  - eapply holds_ext; [|apply holds_write; eauto].
    intros l. simpl. destruct (String.eqb l joint); reflexivity.
  - eapply holds_ext;
      [|apply holds_write; [assumption|];
        apply holds_write; [assumption|];
        apply holds_write; eauto].
    intros l. simpl.
    destruct (String.eqb l (axisLabel joint "z")); [reflexivity|].
    destruct (String.eqb l (axisLabel joint "y")); [reflexivity|].
    destruct (String.eqb l (axisLabel joint "x")); reflexivity.
Qed.

Lemma configToVector_holds k q :
  constructed k -> holds k (configToVector k q) (slotValue q).
Proof.
  intros Hc. unfold configToVector, slotValue.
  apply (configToVector_fold k q Hc _ (fun _ => lit (-1000))).
  split; [apply repeat_length|]. intros i l Hl.
  rewrite nth_error_repeat; [reflexivity|].
  destruct (index_spec k Hc) as (_ & _ & _ & ->).
  apply nth_error_Some. congruence.
Qed.

Lemma holds_map k vec f :
  constructed k -> holds k vec f ->
  vec = List.map f (qConfigIndexReversed k).
Proof.
  intros Hc [Hlen Hv]. destruct (index_spec k Hc) as (_ & _ & _ & Hn).
  apply nth_error_ext. intros i. rewrite nth_error_map.
  destruct (nth_error (qConfigIndexReversed k) i) as [l|] eqn:E; simpl.
  - now apply Hv.
  - apply nth_error_None. apply nth_error_None in E. lia.
Qed.

Lemma configToVector_map k q :
  constructed k ->
  configToVector k q = List.map (slotValue q) (qConfigIndexReversed k).
Proof. intros Hc. apply holds_map; auto using configToVector_holds. Qed.

Lemma slotValue_uncovered q label :
  covered q label = false -> slotValue q label = lit (-1000).
Proof.
  unfold covered, slotValue. generalize (lit (-1000)).
  induction q as [|[joint qv] q IH]; intros acc H; [reflexivity|].
  simpl in H. apply orb_false_iff in H as [H1 H2]. cbn [fold_left].
  destruct (writes joint qv label); [discriminate|]. now apply IH.
Qed.

(** The slot holds [v] when some entry writes [v] to it and no entry
    writes anything else. *)
Lemma slotValue_written q label v :
  (exists joint qv, In (joint, qv) q /\ writes joint qv label = Some v) ->
  (forall joint qv w,
     In (joint, qv) q -> writes joint qv label = Some w -> w = v) ->
  slotValue q label = v.
Proof.
  unfold slotValue. intros Hex Hall.
  assert (G : forall acc,
    acc = v \/ (exists joint qv, In (joint, qv) q /\
                                 writes joint qv label = Some v) ->
    fold_left
      (fun acc '(joint, qv) =>
         match writes joint qv label with
         | Some v => v
         | None => acc
         end) q acc = v).
  { clear Hex. induction q as [|[j qv] q IH]; intros acc Hacc.
    - destruct Hacc as [->|(j & qv & [] & _)]. reflexivity.
    - cbn [fold_left]. apply IH.
      + intros j' qv' w Hin. apply Hall. now right.
      + destruct (writes j qv label) as [w|] eqn:E.
        * left. apply (Hall j qv w); [now left|assumption].
        * destruct Hacc as [->|(j' & qv' & [Hin|Hin] & Hw)]; auto.
          -- injection Hin as <- <-. congruence.
          -- right. eauto. }
  apply G. now right.
Qed.

Lemma obj_get_last {V} n (w : V) (q : JSObj V) :
  ~ In n (obj_keys q) -> obj_get n (q ++ [(n, w)]) = Some w.
Proof.
  intros H. rewrite obj_get_app. apply obj_get_None in H. rewrite H.
  simpl. now rewrite String.eqb_refl.
Qed.

Lemma obj_set_last {V} n (w w' : V) (q : JSObj V) :
  ~ In n (obj_keys q) -> obj_set n w' (q ++ [(n, w)]) = q ++ [(n, w')].
Proof.
  induction q as [|[n0 w0] q IH]; simpl; intros H.
  - now rewrite String.eqb_refl.
  - destruct (String.eqb_spec n n0); [subst; tauto|].
    rewrite IH; tauto.
Qed.

Lemma setComponent_fresh n d v (q : JointAngles) :
  ~ In n (obj_keys q) ->
  setComponent n d v q =
  Normal (q ++ [(n, match d with
                    | DofX => Rot3 v undefined undefined
                    | DofY => Rot3 undefined v undefined
                    | DofZ => Rot3 undefined undefined v
                    end)]).
Proof.
  intros H. unfold setComponent, reads_undefined.
  rewrite (proj2 (obj_get_None n q) H).
  rewrite (obj_set_fresh _ _ _ H), (obj_get_last _ _ _ H).
  now rewrite (obj_set_last _ _ _ _ H).
Qed.

Lemma setComponent_last n d v x y z (q : JointAngles) :
  ~ In n (obj_keys q) ->
  setComponent n d v (q ++ [(n, Rot3 x y z)]) =
  Normal (q ++ [(n, match d with
                    | DofX => Rot3 v y z
                    | DofY => Rot3 x v z
                    | DofZ => Rot3 x y v
                    end)]).
Proof.
  intros H. unfold setComponent, reads_undefined.
  rewrite (obj_get_last _ _ _ H). rewrite (obj_get_last _ _ _ H).
  now rewrite (obj_set_last _ _ _ _ H).
Qed.

Lemma endsWith_axis_other (suffix n d : string) :
  String.length suffix = 2 -> String.length d = 1 ->
  suffix <> String "/" d ->
  endsWith suffix (axisLabel n d) = false.
Proof.
  intros H1 H2 Hne. destruct (endsWith suffix (axisLabel n d)) eqn:E;
    [|reflexivity].
  unfold axisLabel in E. apply endsWith_append_inv in E.
  - contradiction.
  - simpl. now rewrite H1, H2.
Qed.

Lemma endsWith_axis_same (n d : string) :
  endsWith (String "/" d) (axisLabel n d) = true.
Proof. apply (endsWith_append n (String "/" d)). Qed.

Lemma plainName_z n :
  plainName n = true -> includes "_XYZ_" n = false ->
  includes "_Z_" n = true ->
  endsWith "/x" n = false /\ endsWith "/y" n = false /\
  endsWith "/z" n = false.
Proof.
  unfold plainName. intros H EX EZ. rewrite EX, EZ in H. simpl in H.
  apply negb_true_iff in H.
  apply orb_false_iff in H as [H Hz]. apply orb_false_iff in H as [Hx Hy].
  auto.
Qed.

Lemma vectorToConfigFrom_spec (f : string -> num) (names : list string) :
  forall q,
  NoDup names -> forallb plainName names = true ->
  (forall n, In n names -> ~ In n (obj_keys q)) ->
  vectorToConfigFrom (flat_map dofLabels names)
                     (List.map f (flat_map dofLabels names)) q
  = Normal (q ++ configFrom f names).
Proof.
  induction names as [|n names IH]; intros q Hnd Hplain Hfresh.
  - simpl. now rewrite app_nil_r.
  - inversion Hnd as [|? ? Hni Hnd']; subst.
    cbn [forallb] in Hplain. apply andb_prop in Hplain as [Hp Hplain].
    assert (Hn : ~ In n (obj_keys q)) by (apply Hfresh; now left).
    assert (Hrest : forall w n', In n' names ->
                      ~ In n' (obj_keys (q ++ [(n, w)]))).
    { intros w n' Hin. rewrite obj_keys_app, in_app_iff. simpl.
      intros [H|[H|[]]].
      - apply (Hfresh n'); [now right|assumption].
      - subst n'. contradiction. }
    unfold configFrom. cbn [flat_map].
    remember (jointEntry f n) as e eqn:Ee. unfold jointEntry in Ee.
    destruct (includes "_XYZ_" n) eqn:EX;
      [|destruct (includes "_Z_" n) eqn:EZ]; subst e.
    + rewrite (dofLabels_xyz _ EX). cbn [app List.map vectorToConfigFrom].
      rewrite (endsWith_axis_same n "x"), (dropLast2_axisLabel n "x")
        by reflexivity.
      rewrite (setComponent_fresh _ _ _ _ Hn).
      rewrite (endsWith_axis_other "/x" n "y") by (auto; discriminate).
      rewrite (endsWith_axis_same n "y"), (dropLast2_axisLabel n "y")
        by reflexivity.
      rewrite (setComponent_last _ _ _ _ _ _ _ Hn).
      rewrite (endsWith_axis_other "/x" n "z") by (auto; discriminate).
      rewrite (endsWith_axis_other "/y" n "z") by (auto; discriminate).
      rewrite (endsWith_axis_same n "z"), (dropLast2_axisLabel n "z")
        by reflexivity.
      rewrite (setComponent_last _ _ _ _ _ _ _ Hn).
      fold (configFrom f names).
      rewrite (IH _ Hnd' Hplain (Hrest _)).
      now rewrite <- app_assoc.
    + rewrite (dofLabels_z _ EX EZ). cbn [app List.map vectorToConfigFrom].
      destruct (plainName_z n Hp EX EZ) as (-> & -> & ->).
      rewrite (obj_set_fresh _ _ _ Hn).
      fold (configFrom f names).
      rewrite (IH _ Hnd' Hplain (Hrest _)).
      now rewrite <- app_assoc.
    + rewrite (dofLabels_none _ EX EZ). cbn [app].
      fold (configFrom f names).
      apply IH; auto. intros n' Hin. apply Hfresh. now right.
Qed.

Lemma holds_slotOf k vec :
  constructed k -> length vec = qConfigLength k ->
  holds k vec (slotOf k vec).
Proof.
  intros Hc Hlen. split; [assumption|]. intros i l Hl.
  unfold slotOf. rewrite (proj2 (index_lookup k l i Hc) Hl).
  apply nth_error_nth'.
  destruct (index_spec k Hc) as (_ & _ & _ & Hn).
  rewrite Hlen, Hn. apply nth_error_Some. congruence.
Qed.

(** On a vector with one slot per label [vectorToConfig] returns, with
    one entry per joint of the index. *)
Lemma vectorToConfig_spec k vec :
  constructed k -> plainNames k = true -> length vec = qConfigLength k ->
  vectorToConfig k vec
  = Normal (configFrom (slotOf k vec) (obj_keys (map k))).
Proof.
  intros Hc Hp Hlen. destruct (map_spec k Hc) as (Hnd & _).
  destruct (index_spec k Hc) as (Hrv & _).
  unfold vectorToConfig.
  rewrite (holds_map k vec _ Hc (holds_slotOf k vec Hc Hlen)) at 1.
  rewrite Hrv.
  now rewrite (vectorToConfigFrom_spec _ _ [] Hnd Hp).
Qed.

End VectorFacts.

Section Claims_roundtrip.
Context {JSN : JSNumber} {THREE : Three}.

Lemma existsb_eqb_In n (l : list string) :
  existsb (String.eqb n) l = true <-> In n l.
Proof.
  rewrite existsb_exists. split.
  - intros (x & Hx & E). apply String.eqb_eq in E. now subst.
  - intros H. exists n. split; [assumption|apply String.eqb_refl].
Qed.

Lemma writes_inv joint qv label w :
  writes joint qv label = Some w ->
  (qv = Scalar w /\ label = joint) \/
  (exists x y z, qv = Rot3 x y z /\
     ((label = axisLabel joint "x" /\ w = x) \/
      (label = axisLabel joint "y" /\ w = y) \/
      (label = axisLabel joint "z" /\ w = z))).
Proof.
  unfold writes. destruct qv as [v|x y z].
  - destruct (String.eqb_spec label joint); [|discriminate].
    intros [= ->]. now left.
  - intros H. right. exists x, y, z. split; [reflexivity|].
    destruct (String.eqb_spec label (axisLabel joint "z"));
      [injection H as <-; auto|].
    destruct (String.eqb_spec label (axisLabel joint "y"));
      [injection H as <-; auto|].
    destruct (String.eqb_spec label (axisLabel joint "x"));
      [injection H as <-; auto|discriminate].
Qed.

Lemma axisLabel_distinct joint d d' :
  String.length d = String.length d' -> d <> d' ->
  String.eqb (axisLabel joint d) (axisLabel joint d') = false.
Proof.
  intros Hl Hne. apply String.eqb_neq. intros E.
  apply axisLabel_inj in E; [|assumption]. tauto.
Qed.

Lemma writes_x joint x y z :
  writes joint (Rot3 x y z) (axisLabel joint "x") = Some x.
Proof.
  unfold writes.
  rewrite (axisLabel_distinct joint "x" "z") by (auto; discriminate).
  rewrite (axisLabel_distinct joint "x" "y") by (auto; discriminate).
  now rewrite String.eqb_refl.
Qed.

Lemma writes_y joint x y z :
  writes joint (Rot3 x y z) (axisLabel joint "y") = Some y.
Proof.
  unfold writes.
  rewrite (axisLabel_distinct joint "y" "z") by (auto; discriminate).
  now rewrite String.eqb_refl.
Qed.

Lemma writes_z joint x y z :
  writes joint (Rot3 x y z) (axisLabel joint "z") = Some z.
Proof. unfold writes. now rewrite String.eqb_refl. Qed.

Lemma obj_get_entries {V} (g : string -> JSObj V) (names : list string)
    joint :
  (forall n j, In j (obj_keys (g n)) -> j = n) ->
  obj_get joint (flat_map g names) =
  if in_dec string_dec joint names then obj_get joint (g joint) else None.
Proof.
  intros Hg. induction names as [|n names IH]; [reflexivity|].
  cbn [flat_map]. rewrite obj_get_app, IH.
  destruct (in_dec string_dec joint (n :: names)) as [Hin|Hni].
  - destruct (string_dec n joint) as [->|Hne].
    + destruct (obj_get joint (g joint)); [reflexivity|].
      destruct (in_dec string_dec joint names); reflexivity.
    + destruct (obj_get joint (g n)) eqn:E.
      * apply obj_get_Some_key, Hg in E. congruence.
      * destruct (in_dec string_dec joint names); [reflexivity|].
        destruct Hin; [congruence|contradiction].
  - destruct (obj_get joint (g n)) eqn:E.
    + apply obj_get_Some_key, Hg in E. subst. exfalso. apply Hni. now left.
    + destruct (in_dec string_dec joint names) as [H|]; [|reflexivity].
      exfalso. apply Hni. now right.
Qed.

Lemma jointEntry_keys f n j : In j (obj_keys (jointEntry f n)) -> j = n.
Proof.
  unfold jointEntry.
  destruct (includes "_XYZ_" n); [|destruct (includes "_Z_" n)];
    simpl; intuition.
Qed.

Lemma jointEntry_agree f g n :
  (forall l, In l (dofLabels n) -> f l = g l) ->
  jointEntry f n = jointEntry g n.
Proof.
  unfold jointEntry, dofLabels. intros H.
  destruct (includes "_XYZ_" n); [|destruct (includes "_Z_" n)];
    [| |reflexivity]; rewrite !H by (simpl; auto); reflexivity.
Qed.

(** The round trip of a vector that holds [f]. *)
Lemma vectorToConfig_holds k vec f :
  constructed k -> plainNames k = true -> holds k vec f ->
  vectorToConfig k vec = Normal (configFrom f (obj_keys (map k))).
Proof.
  intros Hc Hp Hh. rewrite vectorToConfig_spec by (auto; apply Hh).
  f_equal. apply flat_map_agree. intros n Hn. apply jointEntry_agree.
  intros l Hl.
  assert (Hin : In l (qConfigIndexReversed k)).
  { destruct (index_spec k Hc) as (-> & _). apply in_flat_map. eauto. }
  apply In_nth_error in Hin as [i Hi].
  pose proof (proj2 (holds_slotOf k vec Hc (proj1 Hh)) i l Hi) as H1.
  pose proof (proj2 Hh i l Hi) as H2. congruence.
Qed.

Lemma fullConfig_inv k q :
  fullConfig k q = true ->
  NoDup (obj_keys q) /\
  (forall joint qv, In (joint, qv) q ->
     In joint (obj_keys (map k)) /\
     match qv with
     | Rot3 _ _ _ => includes "_XYZ_" joint = true
     | Scalar _ => includes "_XYZ_" joint = false /\
                   includes "_Z_" joint = true
     end) /\
  (forall n, In n (obj_keys (map k)) ->
     includes "_XYZ_" n = true \/ includes "_Z_" n = true ->
     In n (obj_keys q)).
Proof.
  unfold fullConfig. intros H.
  apply andb_prop in H as [H H3]. apply andb_prop in H as [H1 H2].
  split; [now apply distinct_NoDup|]. split.
  - intros joint qv Hin.
    apply (proj1 (forallb_forall _ _) H2) in Hin. unfold wellKinded in Hin.
    apply andb_prop in Hin as [Ha Hb]. apply existsb_eqb_In in Ha.
    split; [assumption|]. destruct qv; [|assumption].
    apply andb_prop in Hb as [Hb1 Hb2]. apply negb_true_iff in Hb1. auto.
  - intros n Hn Hm. apply (proj1 (forallb_forall _ _) H3) in Hn.
    apply orb_prop in Hn as [Hn|Hn]; [|now apply existsb_eqb_In].
    apply negb_true_iff, orb_false_iff in Hn as [Hx Hz].
    destruct Hm; congruence.
Qed.

Lemma partialConfig_inv k q :
  partialConfig k q = true ->
  NoDup (obj_keys q) /\
  (forall joint qv, In (joint, qv) q ->
     In joint (obj_keys (map k)) /\
     match qv with
     | Rot3 _ _ _ => includes "_XYZ_" joint = true
     | Scalar _ => includes "_XYZ_" joint = false /\
                   includes "_Z_" joint = true
     end).
Proof.
  unfold partialConfig. intros H. apply andb_prop in H as [H1 H2].
  split; [now apply distinct_NoDup|].
  intros joint qv Hin.
  apply (proj1 (forallb_forall _ _) H2) in Hin. unfold wellKinded in Hin.
  apply andb_prop in Hin as [Ha Hb]. apply existsb_eqb_In in Ha.
  split; [assumption|]. destruct qv; [|assumption].
  apply andb_prop in Hb as [Hb1 Hb2]. apply negb_true_iff in Hb1. auto.
Qed.

Lemma fullConfig_partial k q :
  fullConfig k q = true -> partialConfig k q = true.
Proof.
  unfold fullConfig, partialConfig. intros H.
  now apply andb_prop in H as [H _].
Qed.

Lemma slot_scalar k q joint v :
  partialConfig k q = true -> In (joint, Scalar v) q ->
  slotValue q joint = v.
Proof.
  intros Hf Hin. destruct (partialConfig_inv k q Hf) as (Hnd & Hk).
  apply slotValue_written.
  - exists joint, (Scalar v). split; [assumption|].
    simpl. now rewrite String.eqb_refl.
  - intros j' qv' w Hin' Hw. apply writes_inv in Hw
      as [[-> ->]|(x & y & z & -> & Hw)].
    + assert (E : Scalar w = Scalar v)
        by (eapply NoDup_fst_inj; eauto).
      now injection E.
    + exfalso. destruct (Hk _ _ Hin) as [_ [Hx _]].
      destruct (Hk _ _ Hin') as [_ Hx'].
      destruct Hw as [[-> _]|[[-> _]|[-> _]]];
        rewrite includes_axisLabel in Hx by assumption; discriminate.
Qed.

Lemma slot_axis k q joint x y z :
  partialConfig k q = true -> In (joint, Rot3 x y z) q ->
  slotValue q (axisLabel joint "x") = x /\
  slotValue q (axisLabel joint "y") = y /\
  slotValue q (axisLabel joint "z") = z.
Proof.
  intros Hf Hin. destruct (partialConfig_inv k q Hf) as (Hnd & Hk).
  destruct (Hk _ _ Hin) as [_ Hx].
  assert (Hw : forall d j' qv' w,
    String.length d = 1 ->
    In (j', qv') q -> writes j' qv' (axisLabel joint d) = Some w ->
    (d = "x" /\ w = x) \/ (d = "y" /\ w = y) \/ (d = "z" /\ w = z)).
  { intros d j' qv' w Hd Hin' Hw. apply writes_inv in Hw
      as [[-> E]|(x' & y' & z' & -> & Hw)].
    - exfalso. destruct (Hk _ _ Hin') as [_ [Hx' _]]. subst j'.
      rewrite includes_axisLabel in Hx' by assumption. discriminate.
    - destruct Hw as [[E ->]|[[E ->]|[E ->]]];
        apply axisLabel_inj in E; try (now rewrite Hd);
        destruct E as [<- ->];
        assert (E : Rot3 x' y' z' = Rot3 x y z)
          by (eapply NoDup_fst_inj; eauto);
        injection E as -> -> ->; auto. }
  repeat split; apply slotValue_written;
    try (exists joint, (Rot3 x y z); split; [assumption|];
         first [apply writes_x | apply writes_y | apply writes_z]);
    intros j' qv' w Hin' Hw';
    apply Hw in Hw'; try assumption; try reflexivity;
    destruct Hw' as [[E ->]|[[E ->]|[E ->]]];
    first [reflexivity | discriminate].
Qed.

(** No entry of [q] writes to a slot of a joint that [q] leaves out. *)
Lemma slot_missing k q n label :
  partialConfig k q = true -> ~ In n (obj_keys q) ->
  In label (dofLabels n) -> covered q label = false.
Proof.
  intros Hf Hn Hl. destruct (partialConfig_inv k q Hf) as (_ & Hk).
  destruct (covered q label) eqn:Ecov; [exfalso|reflexivity].
  unfold covered in Ecov.
  apply existsb_exists in Ecov as ([j qv] & Hin & Hw).
  destruct (writes j qv label) as [w|] eqn:Ew; [clear Hw|discriminate].
  assert (Hj : In j (obj_keys q))
    by (unfold obj_keys; now apply (in_map fst) in Hin).
  destruct (Hk _ _ Hin) as [_ Hkind].
  apply dofLabels_In in Hl.
  apply writes_inv in Ew as [[-> ->]|(x & y & z & -> & Ew)].
  - destruct Hkind as [Hx _].
    destruct Hl as [[EX Hl]|(_ & _ & ->)]; [|contradiction].
    destruct Hl as [-> | [-> | ->]];
      rewrite includes_axisLabel in Hx by assumption; discriminate.
  - destruct Hl as [[EX Hl]|(EX & _ & ->)].
    + assert (j = n); [|congruence].
      destruct Ew as [[-> _]|[[-> _]|[-> _]]];
        destruct Hl as [Hl|[Hl|Hl]];
        apply axisLabel_inj in Hl; try reflexivity;
        destruct Hl; congruence.
    + destruct Ew as [[-> _]|[[-> _]|[-> _]]];
        rewrite includes_axisLabel in EX by assumption; discriminate.
Qed.

(** Read back from its own slot values, a configuration over a subset
    of the recognized joints keeps its entries and gets the sentinel for
    every recognized joint it leaves out. *)
Lemma configFrom_partial (k : Kinematics) (q : JointAngles) :
  partialConfig k q = true ->
  filled k q (configFrom (slotValue q) (obj_keys (map k))).
Proof.
  intros Hf joint. destruct (partialConfig_inv k q Hf) as (Hnd & Hk).
  unfold filledEntry, configFrom.
  rewrite (obj_get_entries _ _ _ (jointEntry_keys (slotValue q))).
  destruct (in_dec string_dec joint (obj_keys (map k))) as [Hin|Hni].
  2:{ destruct (obj_get joint q) eqn:E.
      - apply obj_get_Some_In, Hk in E. tauto.
      - destruct (existsb (String.eqb joint) (obj_keys (map k))) eqn:Ex;
          [|reflexivity].
        apply existsb_eqb_In in Ex. contradiction. }
  rewrite (proj2 (existsb_eqb_In joint _) Hin).
  unfold jointEntry, sentinelEntry.
  assert (Hmiss : obj_get joint q = None ->
                  forall label, In label (dofLabels joint) ->
                                slotValue q label = lit (-1000)).
  { intros E label Hl. apply slotValue_uncovered.
    apply (slot_missing k q joint label Hf); [|assumption].
    now apply obj_get_None. }
  destruct (includes "_XYZ_" joint) eqn:EX;
    [|destruct (includes "_Z_" joint) eqn:EZ].
  - simpl. rewrite String.eqb_refl.
    destruct (obj_get joint q) as [qv|] eqn:E.
    + apply obj_get_Some_In in E. pose proof (Hk _ _ E) as [_ Hkind].
      destruct qv as [v|x y z]; [destruct Hkind; congruence|].
      destruct (slot_axis k q joint x y z Hf E) as (-> & -> & ->).
      reflexivity.
    + rewrite !(Hmiss eq_refl)
        by (rewrite (dofLabels_xyz _ EX); simpl; auto).
      reflexivity.
  - simpl. rewrite String.eqb_refl.
    destruct (obj_get joint q) as [qv|] eqn:E.
    + apply obj_get_Some_In in E. pose proof (Hk _ _ E) as [_ Hkind].
      destruct qv as [v|x y z]; [|congruence].
      now rewrite (slot_scalar k q joint v Hf E).
    + rewrite (Hmiss eq_refl)
        by (rewrite (dofLabels_z _ EX EZ); simpl; auto).
      reflexivity.
  - simpl. destruct (obj_get joint q) eqn:E; [|reflexivity].
    apply obj_get_Some_In, Hk in E as [_ Hkind].
    destruct j; [destruct Hkind|]; congruence.
Qed.

(** A configuration that covers every recognized joint is filled by
    itself. *)
Lemma filled_full (k : Kinematics) (q q' : JointAngles) :
  fullConfig k q = true -> filled k q q' ->
  forall joint, obj_get joint q' = obj_get joint q.
Proof.
  intros Hf Hq' joint. destruct (fullConfig_inv k q Hf) as (_ & _ & Hcov).
  rewrite (Hq' joint). unfold filledEntry.
  destruct (obj_get joint q) eqn:E; [reflexivity|].
  destruct (existsb (String.eqb joint) (obj_keys (map k))) eqn:Ex;
    [|reflexivity].
  apply existsb_eqb_In in Ex. unfold sentinelEntry.
  apply obj_get_None in E.
  destruct (includes "_XYZ_" joint) eqn:EX;
    [exfalso; apply E, Hcov; auto|].
  destruct (includes "_Z_" joint) eqn:EZ;
    [exfalso; apply E, Hcov; auto|reflexivity].
Qed.

(** C3 (amended): for every configuration whose keys form a subset of
    the recognized joints of the tree and whose values have the kind the
    names ask for, in a tree where no 1-DOF joint name ends in [/x],
    [/y] or [/z], [vectorToConfig(configToVector(q))] returns a
    configuration that has the entry of [q] under every joint of [q],
    the sentinel -1000 (a scalar for a 1-DOF joint, a triple of -1000
    for a 3-DOF joint) under every recognized joint of the tree that [q]
    leaves out, and no other entry.  It has the joints and values of
    [q] when [q] covers every recognized joint. *)
Theorem C3_config_vector_roundtrip (k : Kinematics) (q : JointAngles) :
  constructed k -> plainNames k = true -> partialConfig k q = true ->
  exists q',
    vectorToConfig k (configToVector k q) = Normal q' /\
    filled k q q' /\
    (fullConfig k q = true ->
     forall joint, obj_get joint q' = obj_get joint q).
Proof.
  intros Hc Hp Hf.
  exists (configFrom (slotValue q) (obj_keys (map k))).
  pose proof (configFrom_partial k q Hf) as Hfill.
  split; [|split; [exact Hfill|]].
  - apply vectorToConfig_holds; auto using configToVector_holds.
  - intros Hfull. now apply (filled_full k q).
Qed.

End Claims_roundtrip.

Lemma demo_engine_plain : plainNames Demo.engine = true.
Proof. vm_compute. reflexivity. Qed.

Lemma C3_witness :
  let q := [("RJoint_Back_Lower_Z_L", Scalar (Int 1))] in
  exists q',
    vectorToConfig Demo.engine (configToVector Demo.engine q) = Normal q' /\
    filled Demo.engine q q' /\
    (fullConfig Demo.engine q = true ->
     forall joint, obj_get joint q' = obj_get joint q).
Proof.
  intros q.
  apply (C3_config_vector_roundtrip Demo.engine q
           demo_engine_constructed demo_engine_plain).
  vm_compute. reflexivity.
Defined.

(** C3 as stated fails on a configuration that covers a strict subset of
    the joints: the empty configuration comes back with every joint of
    the index at -1000.  It also fails, for a configuration that covers
    every joint, in a tree with a 1-DOF joint whose name ends in [/x]:
    the label of the joint is read back as the x component of another
    name. *)
Lemma C3_counterexample :
  (obj_get "RJoint_Back_Lower_Z_L" (@nil (string * JointValue)) = None /\
   match vectorToConfig Demo.engine (configToVector Demo.engine []) with
   | Normal q' =>
       obj_get "RJoint_Back_Lower_Z_L" q' = Some (Scalar (Int (-1000)))
   | Throw => False
   end) /\
  (fullConfig Demo.engineOdd (getCurrentStateConfig Demo.engineOdd) = true /\
   obj_get "RJoint_Odd_Z_A/x" (getCurrentStateConfig Demo.engineOdd)
   = Some (Scalar (Int 0)) /\
   match vectorToConfig Demo.engineOdd
           (configToVector Demo.engineOdd
              (getCurrentStateConfig Demo.engineOdd)) with
   | Normal q' =>
       obj_get "RJoint_Odd_Z_A/x" q' = None /\
       obj_get "RJoint_Odd_Z_A" q'
       = Some (Rot3 (Int 0) Untracked Untracked)
   | Throw => False
   end).
Proof.
  split; [split; vm_compute; reflexivity|].
  split; [vm_compute; reflexivity|].
  split; [vm_compute; reflexivity|].
  vm_compute. split; reflexivity.
Qed.

(** ** The solver *)
Section SolverFacts.
Context {JSN : JSNumber} {THREE : Three}.

Lemma forwardKinematicsRec_eq mw n p cs id q A links :
  forwardKinematicsRec mw (mkObject3D n p cs) id q A links =
  forwardKinematicsEach mw cs 0 id q A (obj_set n (mw id) links).
Proof.
  simpl. generalize 0. generalize (obj_set n (mw id) links).
  induction cs as [|c cs IH]; intros l i; simpl; [reflexivity|].
  now rewrite IH.
Qed.

(** The snapshot has an entry for every name it was given and for every
    name of the tree. *)
Lemma forwardKinematicsRec_keys mw q A o : forall id links n,
  In n (obj_keys (forwardKinematicsRec mw o id q A links)) <->
  In n (obj_keys links) \/ In n (List.map fst (traverse o id)).
Proof.
  induction o as [n0 p0 cs IH] using Object3D_tree_ind.
  intros id links n. rewrite forwardKinematicsRec_eq, traverse_eq.
  assert (Hcs : forall i links,
    In n (obj_keys (forwardKinematicsEach mw cs i id q A links)) <->
    In n (obj_keys links) \/ In n (List.map fst (traverseEach cs i id))).
  { clear links. induction IH as [|c cs Hc _ IHcs]; intros i links; simpl.
    - tauto.
    - rewrite IHcs, Hc, map_app, in_app_iff. tauto. }
  rewrite Hcs, obj_keys_set_In. simpl. intuition.
Qed.

Lemma obj_get_of_key {V} n (o : JSObj V) :
  In n (obj_keys o) -> exists v, obj_get n o = Some v.
Proof.
  intros H. destruct (obj_get n o) eqn:E; [eauto|].
  apply obj_get_None in E. contradiction.
Qed.

Lemma ready_sameEngine n names k k' :
  sameEngine k k' -> ready n names k -> ready n names k'.
Proof.
  intros Hs (Hc & Hp & Hn & Ht).
  pose proof (constructed_sameEngine _ _ Hs Hc) as Hc'.
  destruct Hs as (Hm & _ & _ & _ & _ & Hl & _ & Hr & _).
  repeat split; try apply Hc'.
  - unfold plainNames in *. now rewrite Hm.
  - congruence.
  - unfold treeNames in *. now rewrite Hr.
Qed.

Lemma returns_ret {A} n names (a : A) (Q : A -> Prop) :
  Q a -> returns_with n names (ret a) Q.
Proof. intros H k Hk. exists a, k. auto. Qed.

Lemma returns_bind {A B} n names (m : Eff A) (f : A -> Eff B)
    (P : A -> Prop) (Q : B -> Prop) :
  returns_with n names m P ->
  (forall a, P a -> returns_with n names (f a) Q) ->
  returns_with n names (bind m f) Q.
Proof.
  intros Hm Hf k Hk. destruct (Hm k Hk) as (a & k1 & E & Hk1 & Ha).
  destruct (Hf a Ha k1 Hk1) as (b & k2 & E2 & Hk2 & Hb).
  exists b, k2. unfold bind. rewrite E. auto.
Qed.

Lemma returns_get_this n names (Q : Kinematics -> Prop) :
  (forall k, ready n names k -> Q k) ->
  returns_with n names get_this Q.
Proof. intros H k Hk. exists k, k. auto. Qed.

Lemma returns_for_fold {A L} n names (xs : list A)
    (body : A -> L -> Eff L) (I : L -> Prop) :
  (forall x st, I st -> returns_with n names (body x st) I) ->
  forall st, I st -> returns_with n names (for_fold xs body st) I.
Proof.
  intros Hb. induction xs as [|x xs IH]; intros st Hst; simpl.
  - now apply returns_ret.
  - eapply returns_bind; [apply Hb; exact Hst|]. intros st' Hst'.
    now apply IH.
Qed.

Lemma returns_weaken {A} n names (m : Eff A) (P Q : A -> Prop) :
  (forall a, P a -> Q a) -> returns_with n names m P ->
  returns_with n names m Q.
Proof.
  intros H Hm k Hk. destruct (Hm k Hk) as (a & k' & E & Hk' & Ha).
  exists a, k'. auto.
Qed.

Lemma configFrom_keys f names joint qv :
  In (joint, qv) (configFrom f names) -> In joint names.
Proof.
  intros H. apply in_flat_map in H as (n & Hn & H).
  assert (joint = n).
  { apply (jointEntry_keys f n). unfold obj_keys.
    now apply (in_map fst) in H. }
  now subst.
Qed.

Lemma ready_known n names k joint :
  ready n names k ->
  (In joint names <-> obj_get joint (map k) <> None).
Proof.
  intros (Hc & _ & _ & Ht). destruct (map_spec k Hc) as (_ & _ & Hn & _).
  rewrite <- Ht, <- Hn. split.
  - intros H E. apply obj_get_None in E. contradiction.
  - intros H. destruct (obj_get joint (map k)) eqn:E; [|congruence].
    eapply obj_get_Some_key; eauto.
Qed.

(** Reading a vector back and evaluating it returns a full snapshot. *)
Lemma returns_forwardKinematics n names k0 vec A :
  ready n names k0 -> length vec = n ->
  returns_with n names
    (bind (lift (vectorToConfig k0 vec))
          (fun q' => forwardKinematics q' A))
    (snapshotOf names).
Proof.
  intros Hk0 Hlen k Hk. pose proof Hk as (Hc & Hp & Hn & Ht).
  pose proof Hk0 as (Hc0 & Hp0 & Hn0 & Ht0).
  unfold bind, lift.
  rewrite (vectorToConfig_spec k0 vec Hc0 Hp0) by congruence.
  set (q' := configFrom (slotOf k0 vec) (obj_keys (map k0))).
  assert (Hq : forall joint qv, In (joint, qv) q' ->
                                obj_get joint (map k) <> None).
  { intros joint qv H. apply configFrom_keys in H.
    apply (ready_known n names k joint Hk).
    destruct (map_spec k0 Hc0) as (_ & _ & Hnm & _).
    rewrite <- Ht0. now apply Hnm. }
  destruct (forwardKinematics_returns q' k Hc Hq) as [R1 R2].
  pose proof (keeps_forwardKinematics q' A k) as Hs.
  rewrite (forwardKinematics_run q' A k R1 R2) in Hs |- *.
  eexists _, _. split; [reflexivity|]. split.
  - eapply ready_sameEngine; eauto.
  - intros name Hname. apply obj_get_of_key.
    apply forwardKinematicsRec_keys. right.
    destruct (keeps_setConfiguration q' k)
      as (_ & _ & _ & _ & _ & _ & _ & -> & _).
    unfold treeNames in Ht. now rewrite Ht.
Qed.

Lemma returns_assoc {A B C} n names (m : Eff A) (f : A -> Eff B)
    (g : B -> Eff C) (Q : C -> Prop) :
  returns_with n names (bind (bind m f) g) Q ->
  returns_with n names (bind m (fun a => bind (f a) g)) Q.
Proof.
  intros H k Hk. destruct (H k Hk) as (c & k' & E & Hk' & Hc).
  exists c, k'. split; [|auto]. rewrite <- E. unfold bind.
  destruct (m k) as [[a|] k1]; [|reflexivity].
  destruct (f a k1) as [[b|] k2]; reflexivity.
Qed.

Lemma returns_getPositionOf n names joint fwd :
  In joint names -> snapshotOf names fwd ->
  returns_with n names (getPositionOf (obj_get joint fwd)) (fun _ => True).
Proof.
  intros Hj Hs. destruct (Hs joint Hj) as [m ->]. simpl.
  now apply returns_ret.
Qed.

(** A label of the index belongs to a joint of the tree. *)
Lemma indexed_joint n names k jointName dof i :
  ready n names k ->
  obj_get (if includes "_XYZ_" jointName
           then axisLabel jointName (dofName dof) else jointName)
          (qConfigIndex k) = Some i ->
  In jointName names /\ i < n.
Proof.
  intros Hk E. pose proof Hk as (Hc & _ & Hn & Ht).
  destruct (index_spec k Hc) as (Hrv & _ & _ & Hlen).
  destruct (map_spec k Hc) as (_ & _ & Hnames & _).
  apply (index_lookup k _ _ Hc) in E. split.
  2:{ rewrite <- Hn, Hlen. apply nth_error_Some. congruence. }
  apply nth_error_In in E. rewrite Hrv in E.
  apply in_flat_map in E as (name & Hname & Hl).
  assert (name = jointName);
    [|subst name; rewrite <- Ht; now apply Hnames].
  apply dofLabels_In in Hl.
  destruct (includes "_XYZ_" jointName) eqn:EX.
  - destruct Hl as [[_ Hl]|(Hx & _ & Hl)].
    + destruct dof; simpl in Hl;
        repeat destruct Hl as [Hl|Hl];
        apply axisLabel_inj in Hl; try reflexivity;
        destruct Hl; congruence.
    + subst name. rewrite includes_axisLabel in Hx by assumption.
      discriminate.
  - destruct Hl as [[Hx Hl]|(_ & _ & Hl)]; [|congruence].
    exfalso. repeat destruct Hl as [Hl|Hl]; subst jointName;
      rewrite includes_axisLabel in EX by assumption; discriminate.
Qed.

Lemma returns_ccdStep n names joint target A alpha jointName dof st :
  In joint names -> fits n names st ->
  returns_with n names (ccdStep joint target A alpha jointName dof st)
               (fits n names).
Proof.
  intros Hj [Hlen Hsnap]. unfold ccdStep.
  eapply returns_bind;
    [apply (returns_get_this n names (ready n names)); auto|].
  intros k Hk. cbv zeta.
  destruct (obj_get _ (qConfigIndex k)) as [i|] eqn:Ei;
    [|apply returns_ret; split; assumption].
  destruct (indexed_joint n names k jointName dof i Hk Ei) as [Hjn Hi].
  destruct (Hsnap jointName Hjn) as [matrix ->].
  eapply returns_bind; [apply returns_getPositionOf; eauto|].
  intros p_end _.
  match goal with
  | |- returns_with _ _ (if ?c then _ else _) _ => destruct c
  end; [apply returns_ret; split; assumption|].
  apply returns_assoc.
  eapply returns_bind.
  - apply returns_forwardKinematics; [exact Hk|].
    rewrite array_set_length; lia.
  - intros fwd Hfwd.
    eapply returns_bind; [apply returns_getPositionOf; eauto|].
    intros p_end' _. apply returns_ret. split; simpl; [|assumption].
    rewrite array_set_length; lia.
Qed.

Lemma returns_ccdSweep n names joint target A alpha chain st :
  In joint names -> fits n names st ->
  returns_with n names (ccdSweep joint target A alpha chain st)
               (fits n names).
Proof.
  intros Hj Hst. unfold ccdSweep.
  apply returns_for_fold; [|assumption].
  intros jointName st' Hst'. apply returns_for_fold; [|assumption].
  intros dof st'' Hst''. now apply returns_ccdStep.
Qed.

(** The loop makes at most [remaining] passes, and stops short only on
    a residual within the tolerance. *)
Lemma returns_ccdLoop n names joint target A alpha limit chain :
  In joint names ->
  forall remaining count st, fits n names st ->
  returns_with n names
    (ccdLoop joint target A alpha limit chain remaining count st)
    (fun r =>
       fits n names (snd r) /\
       count <= fst r <= count + remaining /\
       (ngt (lengthSq (ik_dErr (snd r))) limit = true ->
        fst r = count + remaining) /\
       (ngt (lengthSq (ik_dErr st)) limit = false -> r = (count, st))).
Proof.
  intros Hj. induction remaining as [|r IH]; intros count st Hst; simpl;
    destruct (ngt (lengthSq (ik_dErr st)) limit) eqn:E.
  - apply returns_ret. simpl.
    split; [assumption|]. split; [lia|]. split; [lia|discriminate].
  - apply returns_ret. simpl.
    split; [assumption|]. split; [lia|]. split; [congruence|reflexivity].
  - eapply returns_bind; [apply returns_ccdSweep; eauto|].
    intros st' Hst'. eapply returns_weaken; [|apply IH; exact Hst'].
    intros [c st2]. simpl. intros (H1 & H2 & H3 & _).
    split; [assumption|]. split; [lia|]. split; [|discriminate].
    intros H. apply H3 in H. lia.
  - apply returns_ret. simpl.
    split; [assumption|]. split; [lia|]. split; [congruence|reflexivity].
Qed.

End SolverFacts.

Section Claims_solver.
Context {JSN : JSNumber} {THREE : Three}.

(** A run of the solver on an effector of the tree, step by step. *)
Lemma inverseKinematics_run (k : Kinematics) (q : JointAngles)
    (joint : string) (target : Vector3) (A : Matrix4) (alpha limit : num)
    (maxIterations : nat) :
  constructed k -> plainNames k = true ->
  In joint (treeNames (scene k)) ->
  exists q0 dErr0 finalQ count st k',
    vectorToConfig k (configToVector k q) = Normal q0 /\
    fst (initialResidual q joint target A k) = Normal dErr0 /\
    inverseKinematics q joint target A alpha limit maxIterations k
    = (Normal (finalQ, ik_dErr st, count, ik_fwd st), k') /\
    vectorToConfig k (ik_vec st) = Normal finalQ /\
    count <= maxIterations /\
    (ngt (lengthSq (ik_dErr st)) limit = true -> count = maxIterations) /\
    (ngt (lengthSq dErr0) limit = false ->
     count = 0 /\ ik_vec st = configToVector k q).
Proof.
  intros Hc Hp Hj.
  set (n := qConfigLength k). set (names := treeNames (scene k)).
  assert (Hk : ready n names k)
    by (split; [|split; [|split]]; auto; reflexivity).
  set (vec := configToVector k q).
  assert (Hlen : length vec = n) by apply (configToVector_holds k q Hc).
  destruct (returns_forwardKinematics n names k vec A Hk Hlen k Hk)
    as (fwd0 & k1 & E1 & Hk1 & Hs0).
  unfold bind, lift in E1.
  pose proof (vectorToConfig_spec k vec Hc Hp Hlen) as Eq0.
  rewrite Eq0 in E1.
  destruct (Hs0 joint Hj) as [m0 Em0].
  set (dErr0 := subVectors target (getPosition m0)).
  assert (Hfit : fits n names (mkIKVars vec fwd0 dErr0)) by (split; auto).
  destruct (returns_ccdLoop n names joint target A alpha limit
              (getChain k joint) Hj maxIterations 0 _ Hfit k1 Hk1)
    as ([count st] & k2 & E2 & Hk2 & [Hlen2 _] & Hle & Hmax & Hconv).
  simpl in Hlen2, Hle, Hmax, Hconv.
  pose proof (vectorToConfig_spec k (ik_vec st) Hc Hp Hlen2) as Eq2.
  eexists _, dErr0, _, count, st, k2.
  split; [exact Eq0|]. split.
  { unfold initialResidual, bind, get_this, lift, ret. fold vec.
    rewrite Eq0, E1, Em0. reflexivity. }
  split.
  { unfold inverseKinematics, bind, get_this, lift, ret. fold vec.
    rewrite Eq0, E1, Em0. simpl getPositionOf. unfold ret.
    cbv beta iota zeta. fold dErr0. rewrite E2.
    cbv beta iota zeta. rewrite Eq2. reflexivity. }
  split; [exact Eq2|]. split; [lia|]. split; [exact Hmax|].
  intros H. apply Hconv in H. injection H as -> ->. auto.
Qed.

(** X20: when the effector is a node of the tree (and no 1-DOF joint
    name ends like an axis label), the solver returns its four results
    after at most [maxIterations] passes, and it stops before
    [maxIterations] only on a residual within the tolerance: when the
    residual it returns is still greater than the tolerance the
    iteration count is exactly [maxIterations]. *)
Theorem X20_inverseKinematics_terminates (k : Kinematics) (q : JointAngles)
    (joint : string) (target : Vector3) (A : Matrix4) (alpha limit : num)
    (maxIterations : nat) :
  constructed k -> plainNames k = true ->
  In joint (treeNames (scene k)) ->
  exists finalQ dErr count fwd k',
    inverseKinematics q joint target A alpha limit maxIterations k
    = (Normal (finalQ, dErr, count, fwd), k') /\
    count <= maxIterations /\
    (ngt (lengthSq dErr) limit = true -> count = maxIterations).
Proof.
  intros Hc Hp Hj.
  destruct (inverseKinematics_run k q joint target A alpha limit
              maxIterations Hc Hp Hj)
    as (q0 & dErr0 & finalQ & count & st & k' & _ & _ & E & _ & Hle
        & Hmax & _).
  exists finalQ, (ik_dErr st), count, (ik_fwd st), k'. auto.
Qed.

(** C6 (amended): for an effector that is a node of the tree, in a tree
    where no 1-DOF joint name ends in [/x], [/y] or [/z], when the
    solver's entry test finds the squared residual of [q0] not greater
    than the tolerance, it returns iteration count 0 and the
    configuration [vectorToConfig(configToVector(q0))].  When the keys
    of [q0] form a subset of the recognized joints and its values have
    the kind the names ask for, that configuration has the entry of
    [q0] under every joint of [q0], the sentinel -1000 under every
    recognized joint of the tree that [q0] leaves out, and no other
    entry; it has the joints and values of [q0] when [q0] covers every
    recognized joint. *)
Theorem C6_converged_returns_at_once (k : Kinematics) (q0 : JointAngles)
    (joint : string) (target : Vector3) (A : Matrix4) (alpha limit : num)
    (maxIterations : nat) :
  constructed k -> plainNames k = true ->
  In joint (treeNames (scene k)) ->
  converged k q0 joint target A limit = true ->
  exists finalQ dErr fwd k',
    inverseKinematics q0 joint target A alpha limit maxIterations k
    = (Normal (finalQ, dErr, 0, fwd), k') /\
    vectorToConfig k (configToVector k q0) = Normal finalQ /\
    (partialConfig k q0 = true -> filled k q0 finalQ) /\
    (fullConfig k q0 = true ->
     forall j, obj_get j finalQ = obj_get j q0).
Proof.
  intros Hc Hp Hj Hconv.
  destruct (inverseKinematics_run k q0 joint target A alpha limit
              maxIterations Hc Hp Hj)
    as (q' & dErr0 & finalQ & count & st & k' & Eq0 & Er & E & Eq2 & _
        & _ & Hzero).
  unfold converged in Hconv. rewrite Er in Hconv.
  apply negb_true_iff in Hconv. destruct (Hzero Hconv) as [-> Evec].
  rewrite Evec in Eq2.
  exists finalQ, (ik_dErr st), (ik_fwd st), k'.
  split; [exact E|]. split; [exact Eq2|].
  rewrite (vectorToConfig_holds k _ _ Hc Hp (configToVector_holds k q0 Hc))
    in Eq2.
  injection Eq2 as <-. split.
  - intros Hpart. now apply configFrom_partial.
  - intros Hfull. apply (filled_full k q0); [assumption|].
    apply configFrom_partial. now apply fullConfig_partial.
Qed.

End Claims_solver.

Lemma demo_head_in_tree : In "Effector_Head" (treeNames (scene Demo.engine)).
Proof. vm_compute. tauto. Qed.

Lemma X20_witness :
  exists finalQ dErr count fwd k',
    inverseKinematics (getCurrentStateConfig Demo.engine) "Effector_Head"
      (mkVector3 (Int 0) (Int 0) (Int 60)) identity (Int 1) Tiny 5
      Demo.engine
    = (Normal (finalQ, dErr, count, fwd), k') /\
    count <= 5 /\
    (ngt (lengthSq dErr) Tiny = true -> count = 5).
Proof.
  exact (X20_inverseKinematics_terminates Demo.engine
           (getCurrentStateConfig Demo.engine) "Effector_Head"
           (mkVector3 (Int 0) (Int 0) (Int 60)) identity (Int 1) Tiny 5
           demo_engine_constructed demo_engine_plain demo_head_in_tree).
Defined.

(** C5: for an effector name that is not in the tree the solver does
    not return.  The chain extractor guards the lookup of the name and
    answers the singleton chain, but the snapshot has no matrix under
    the name and [getPosition(fwd[joint])] throws before the first
    pass. *)
Theorem C5_inverseKinematics_absent_effector_throws :
  ~ In "Effector_Tail" (treeNames (scene Demo.engine)) /\
  getChain Demo.engine "Effector_Tail" = ["Effector_Tail"] /\
  fst (inverseKinematics (getCurrentStateConfig Demo.engine)
         "Effector_Tail" (mkVector3 (Int 0) (Int 0) (Int 60)) identity
         (Int 1) Tiny 5 Demo.engine) = Throw.
Proof.
  split; [vm_compute; intuition discriminate|].
  split; vm_compute; reflexivity.
Qed.

Lemma C6_witness :
  let q0 := [("RJoint_Back_Lower_Z_L", Scalar (Int 0))] in
  exists finalQ dErr fwd k',
    inverseKinematics q0 "Bear" Demo.origin identity (Int 1) Tiny 5
      Demo.engine
    = (Normal (finalQ, dErr, 0, fwd), k') /\
    vectorToConfig Demo.engine (configToVector Demo.engine q0)
    = Normal finalQ /\
    (partialConfig Demo.engine q0 = true -> filled Demo.engine q0 finalQ) /\
    (fullConfig Demo.engine q0 = true ->
     forall j, obj_get j finalQ = obj_get j q0).
Proof.
  intros q0.
  refine (@C6_converged_returns_at_once number three Demo.engine
            q0 "Bear" Demo.origin identity (Int 1) Tiny 5
            demo_engine_constructed demo_engine_plain _ _).
  - vm_compute. tauto.
  - vm_compute. reflexivity.
Defined.

(** C6 as stated fails on a configuration that leaves joints out.  The
    root does not move with any joint, so with the target at the root's
    position the empty configuration is converged; the solver returns
    count 0 and a configuration with every joint at -1000. *)
Lemma C6_counterexample :
  converged Demo.engine [] "Bear" Demo.origin identity Tiny = true /\
  obj_get "RJoint_Back_Lower_Z_L" (@nil (string * JointValue)) = None /\
  match fst (inverseKinematics [] "Bear" Demo.origin identity (Int 1) Tiny 5
               Demo.engine) with
  | Normal (finalQ, _, count, _) =>
      count = 0 /\
      obj_get "RJoint_Back_Lower_Z_L" finalQ = Some (Scalar (Int (-1000)))
  | Throw => False
  end.
Proof.
  split; [vm_compute; reflexivity|].
  split; [reflexivity|]. vm_compute. split; reflexivity.
Qed.

(** * Further properties of the engine *)

Section Extra_chain.
Context {JSN : JSNumber} {THREE : Three}.

Lemma climbAbove_shape rootName above : forall chain,
  exists joints,
    climbAbove rootName above chain = chain ++ joints /\
    Forall (fun n => startsWith "RJoint_" n = true) joints.
Proof.
  induction above as [|a above IH]; intros chain; simpl.
  - exists []. now rewrite app_nil_r.
  - destruct (negb (String.eqb (anc_name a) rootName)).
    + destruct (startsWith "RJoint_" (anc_name a)) eqn:E.
      * destruct (IH (chain ++ [anc_name a])) as (js & -> & Hjs).
        exists (anc_name a :: js). rewrite <- app_assoc. auto.
      * apply IH.
    + exists []. now rewrite app_nil_r.
Qed.

Lemma climb_shape s : forall id chain,
  exists joints,
    climb s id chain = chain ++ joints /\
    Forall (fun n => startsWith "RJoint_" n = true) joints.
Proof.
  induction id as [|i parent IH]; intros chain; cbn [climb];
    destruct (negb (String.eqb (nameOf s _) (name (root s))));
    try (exists []; now rewrite app_nil_r);
    destruct (startsWith "RJoint_" (nameOf s _)) eqn:E.
  - destruct (climbAbove_shape (name (root s)) (ancestors s)
                (chain ++ [nameOf s []])) as (js & -> & Hjs).
    exists (nameOf s [] :: js). rewrite <- app_assoc. auto.
  - apply climbAbove_shape.
  - destruct (IH (chain ++ [nameOf s (i :: parent)])) as (js & -> & Hjs).
    exists (nameOf s (i :: parent) :: js). rewrite <- app_assoc. auto.
  - apply IH.
Qed.

(** X1: whatever the effector name and the tree, the chain is never
    empty, its last element is the effector name, and every element
    before it starts with [RJoint_]. *)
Theorem X1_getChain_ends_with_effector (k : Kinematics) (endEffector : string) :
  exists joints,
    getChain k endEffector = joints ++ [endEffector] /\
    Forall (fun n => startsWith "RJoint_" n = true) joints.
Proof.
  unfold getChain.
  assert (H : exists js,
    match obj_get endEffector (map k) with
    | None => [endEffector]
    | Some [] =>
        climbAbove (name (root (scene k))) (ancestors (scene k))
                   [endEffector]
    | Some (_ :: parent) => climb (scene k) parent [endEffector]
    end = [endEffector] ++ js /\
    Forall (fun n => startsWith "RJoint_" n = true) js).
  { destruct (obj_get endEffector (map k)) as [[|i parent]|].
    - apply climbAbove_shape.
    - apply climb_shape.
    - exists []. auto. }
  destruct H as (js & -> & Hjs). exists (rev js). split.
  - simpl. reflexivity.
  - apply Forall_rev. exact Hjs.
Qed.

End Extra_chain.

Section Extra_setConfiguration.
Context {JSN : JSNumber} {THREE : Three}.

(** X2: [setConfiguration] returns exactly when every joint of the
    configuration is a node of the tree; otherwise it throws. *)
Theorem X2_setConfiguration_returns_iff (k : Kinematics) (q : JointAngles) :
  fst (setConfiguration q k) = Normal tt <->
  forall joint qv, In (joint, qv) q -> obj_get joint (map k) <> None.
Proof.
  split.
  - intros Hret joint qv Hin Hno.
    rewrite (setConfiguration_throws q k) in Hret; [discriminate|].
    exists joint, qv. auto.
  - apply setConfiguration_returns.
Qed.

Lemma lookup_state k name :
  constructed k ->
  obj_get name (getCurrentStateConfig k) = stateValue k name.
Proof.
  intros Hc. destruct (map_spec k Hc) as (Hnd & _).
  rewrite getCurrentStateConfig_flat_map, obj_get_stateEntries
    by assumption.
  unfold stateValue, stateEntry.
  destruct (obj_get name (map k)) as [child|]; [|reflexivity].
  destruct (startsWith "RJoint_" name); [|reflexivity].
  destruct (includes "_XYZ_" name); [|destruct (includes "_Z_" name)];
    simpl; try rewrite String.eqb_refl; reflexivity.
Qed.

(** No entry of [q] addresses the node: its rotation stays. *)
Lemma fold_applyTo_none k id q r :
  (forall joint qv, In (joint, qv) q -> obj_get joint (map k) <> Some id) ->
  fold_left (applyTo k id) q r = r.
Proof.
  revert r. induction q as [|[j v] q IH]; intros r H; [reflexivity|].
  cbn [fold_left]. unfold applyTo at 2, targets.
  destruct (obj_get j (map k)) as [c|] eqn:E.
  - destruct (NodeId_eq_dec c id) as [->|].
    + exfalso. apply (H j v); [now left|assumption].
    + apply IH. intros joint qv Hin. apply (H joint qv). now right.
  - apply IH. intros joint qv Hin. apply (H joint qv). now right.
Qed.

(** One entry of an object addresses the node: its value is applied. *)
Lemma fold_applyTo_one k id q joint qv r :
  constructed k -> NoDup (obj_keys q) -> In (joint, qv) q ->
  obj_get joint (map k) = Some id ->
  fold_left (applyTo k id) q r = applyValue (yup k) qv r.
Proof.
  intros Hc. revert r. induction q as [|[j v] q IH]; intros r Hnd Hin Hg;
    [destruct Hin|].
  inversion Hnd as [|? ? Hni Hnd']; subst. cbn [fold_left].
  destruct Hin as [Hin|Hin].
  - injection Hin as -> ->. unfold applyTo at 2, targets. rewrite Hg.
    destruct (NodeId_eq_dec id id); [|congruence].
    apply fold_applyTo_none. intros j' v' Hin' Hg'.
    assert (j' = joint) by (eapply map_injective; eauto). subst j'.
    apply Hni. unfold obj_keys. now apply (in_map fst) in Hin'.
  - assert (Hne : j <> joint).
    { intros ->. apply Hni. unfold obj_keys.
      now apply (in_map fst) in Hin. }
    unfold applyTo at 2, targets.
    destruct (obj_get j (map k)) as [c|] eqn:E; [|now apply IH].
    destruct (NodeId_eq_dec c id) as [->|]; [|now apply IH].
    exfalso. apply Hne. eapply map_injective; eauto.
Qed.

Lemma euler_eta (r : Euler) : mkEuler (ex r) (ey r) (ez r) = r.
Proof. now destruct r. Qed.

(** X3: under the Z-up convention, after [setConfiguration(q)] returns,
    [getCurrentStateConfig] reads back the value of every entry of [q]
    whose joint is prefixed [RJoint_] and whose value has the kind its
    name asks for, and holds what it held before for every joint that
    [q] does not mention. *)
Theorem X3_setConfiguration_read_back (k : Kinematics) (q : JointAngles) :
  constructed k -> yup k = false -> NoDup (obj_keys q) ->
  (forall joint qv, In (joint, qv) q -> obj_get joint (map k) <> None) ->
  (forall joint qv,
     In (joint, qv) q -> startsWith "RJoint_" joint = true ->
     wellKinded k (joint, qv) = true ->
     obj_get joint (getCurrentStateConfig (snd (setConfiguration q k)))
     = Some qv) /\
  (forall joint,
     ~ In joint (obj_keys q) ->
     obj_get joint (getCurrentStateConfig (snd (setConfiguration q k)))
     = obj_get joint (getCurrentStateConfig k)).
Proof.
  intros Hc Hy Hnd Hq.
  pose proof (keeps_setConfiguration q k) as Hs.
  pose proof (constructed_sameEngine _ _ Hs Hc) as Hc'.
  destruct Hs as (Hm & _).
  split.
  - intros joint qv Hin Hpre Hkind.
    rewrite (lookup_state _ joint Hc'). unfold stateValue. rewrite Hm.
    destruct (obj_get joint (map k)) as [id|] eqn:Eg.
    2:{ exfalso. apply (Hq joint qv Hin Eg). }
    rewrite (setConfiguration_applyTo q k id Hq).
    rewrite (fold_applyTo_one k id q joint qv _ Hc Hnd Hin Eg).
    rewrite Hpre, Hy. unfold wellKinded in Hkind.
    apply andb_prop in Hkind as [_ Hkind].
    destruct qv as [v|x y z]; simpl.
    + apply andb_prop in Hkind as [Hx Hz].
      apply negb_true_iff in Hx. now rewrite Hx, Hz.
    + now rewrite Hkind.
  - intros joint Hni.
    rewrite (lookup_state _ joint Hc'), (lookup_state _ joint Hc).
    unfold stateValue. rewrite Hm.
    destruct (obj_get joint (map k)) as [id|] eqn:Eg; [|reflexivity].
    rewrite (setConfiguration_applyTo q k id Hq).
    rewrite fold_applyTo_none; [reflexivity|].
    intros j v Hin Hg. apply Hni.
    assert (j = joint) by apply (map_injective k j joint id Hc Hg Eg).
    subst j.
    unfold obj_keys. now apply (in_map fst) in Hin.
Qed.

(** X4: under the Y-up convention a scalar entry is written to the y
    angle, which [getCurrentStateConfig] never reads for a 1-DOF joint:
    after [setConfiguration] of scalars for joints not marked [_XYZ_]
    the queryable configuration is what it was. *)
Theorem X4_yup_scalars_are_not_read_back (k : Kinematics) (q : JointAngles) :
  constructed k -> yup k = true ->
  (forall joint qv,
     In (joint, qv) q ->
     obj_get joint (map k) <> None /\ isDictionary qv = false /\
     includes "_XYZ_" joint = false) ->
  getCurrentStateConfig (snd (setConfiguration q k))
  = getCurrentStateConfig k.
Proof.
  intros Hc Hy Hq.
  assert (Hknown : forall joint qv, In (joint, qv) q ->
                                    obj_get joint (map k) <> None)
    by (intros joint qv H; now apply (Hq joint qv)).
  pose proof (keeps_setConfiguration q k) as (Hm & _).
  destruct (map_spec k Hc) as (Hnd & _).
  rewrite !getCurrentStateConfig_flat_map by congruence.
  rewrite Hm. apply flat_map_agree. intros [n id] Hin.
  assert (Hg : obj_get n (map k) = Some id) by now apply obj_get_NoDup.
  unfold stateEntry.
  rewrite (setConfiguration_applyTo q k id Hknown).
  destruct (startsWith "RJoint_" n); [|reflexivity].
  destruct (includes "_XYZ_" n) eqn:EX.
  - rewrite fold_applyTo_none; [reflexivity|].
    intros j v Hj Hgj.
    assert (j = n) by (eapply map_injective; eauto). subst j.
    destruct (Hq n v Hj) as (_ & _ & Hx). congruence.
  - destruct (includes "_Z_" n); [|reflexivity].
    rewrite (apply_keeps_z k n id q Hc Hy Hg EX); [reflexivity|].
    intros j x y z Hj. destruct (Hq _ _ Hj) as (_ & Hd & _). discriminate.
Qed.

End Extra_setConfiguration.

Section Extra_forwardKinematics.
Context {JSN : JSNumber} {THREE : Three}.

Lemma node_named_or_not (m : NameChildMap) (id : NodeId) :
  (exists n, In (n, id) m) \/ (forall n, ~ In (n, id) m).
Proof.
  induction m as [|[n0 c0] m IH].
  - right. intros n [].
  - destruct (NodeId_eq_dec c0 id) as [->|Hne].
    + left. exists n0. now left.
    + destruct IH as [[n H]|H].
      * left. exists n. now right.
      * right. intros n [E|Hin]; [congruence|]. now apply (H n).
Qed.

(** Scalars of the Z-up convention leave the x and y angles alone. *)
Lemma fold_keeps_xy k id q :
  yup k = false ->
  (forall joint qv, In (joint, qv) q -> obj_get joint (map k) = Some id ->
                    isDictionary qv = false) ->
  forall r,
    ex (fold_left (applyTo k id) q r) = ex r /\
    ey (fold_left (applyTo k id) q r) = ey r.
Proof.
  intros Hy. induction q as [|[j v] q IH]; intros H r; [now split|].
  cbn [fold_left].
  destruct (IH (fun joint qv Hin => H joint qv (or_intror Hin))
               (applyTo k id r (j, v))) as [-> ->].
  unfold applyTo, targets.
  destruct (obj_get j (map k)) as [c|] eqn:E; [|now split].
  destruct (NodeId_eq_dec c id) as [->|]; [|now split].
  specialize (H j v (or_introl eq_refl) E).
  destruct v; [|discriminate]. simpl. rewrite Hy. now split.
Qed.

(** The rotation of a node after an evaluation that returns. *)
Lemma forwardKinematics_rotation k q A id :
  constructed k ->
  (forall joint qv, In (joint, qv) q -> obj_get joint (map k) <> None) ->
  let k1 := snd (setConfiguration q k) in
  rotationOf (scene (snd (forwardKinematics q A k))) id =
  fold_left (applyTo k1 id) (getCurrentStateConfig k)
            (fold_left (applyTo k id) q (rotationOf (scene k) id)).
Proof.
  intros Hc Hq k1.
  destruct (forwardKinematics_returns q k Hc Hq) as [R1 R2].
  rewrite (forwardKinematics_run q A k R1 R2). cbn [snd]. fold k1.
  pose proof (keeps_setConfiguration q k) as (Hm & _). fold k1 in Hm.
  rewrite setConfiguration_applyTo.
  - unfold k1 at 2. now rewrite setConfiguration_applyTo.
  - intros joint qv Hin. rewrite Hm.
    eapply getCurrentStateConfig_known; eauto.
Qed.

Lemma wellKinded_known k joint qv :
  wellKinded k (joint, qv) = true -> obj_get joint (map k) <> None.
Proof.
  unfold wellKinded. intros H. apply andb_prop in H as [H _].
  apply existsb_eqb_In in H. intros E. apply obj_get_None in E.
  contradiction.
Qed.

Lemma applyTo_hit k joint id r qv :
  targets k joint id = true ->
  applyTo k id r (joint, qv) = applyValue (yup k) qv r.
Proof. unfold applyTo. now intros ->. Qed.

(** X5: under the Z-up convention, for a configuration whose joints are
    prefixed [RJoint_] and carry values of the kind their names ask
    for, one call of the FK evaluator leaves the rotation of every node
    of the tree exactly as it was. *)
Theorem X5_forwardKinematics_restores_rotations (k : Kinematics)
    (q : JointAngles) (A : Matrix4) :
  constructed k -> yup k = false ->
  (forall joint qv,
     In (joint, qv) q ->
     startsWith "RJoint_" joint = true /\ wellKinded k (joint, qv) = true) ->
  forall id,
    rotationOf (scene (snd (forwardKinematics q A k))) id
    = rotationOf (scene k) id.
Proof.
  intros Hc Hy Hq id.
  assert (Hknown : forall joint qv, In (joint, qv) q ->
                                    obj_get joint (map k) <> None).
  { intros joint qv H. apply (wellKinded_known k joint qv).
    now apply Hq. }
  rewrite (forwardKinematics_rotation k q A id Hc Hknown). cbv zeta.
  pose proof (keeps_setConfiguration q k) as Hs.
  destruct Hs as (Hm & _ & _ & _ & _ & _ & Hy1 & _).
  destruct (map_spec k Hc) as (Hnd & _).
  set (k1 := snd (setConfiguration q k)) in *.
  set (r0 := rotationOf (scene k) id).
  destruct (node_named_or_not (map k) id) as [[n Hin]|Hno].
  - assert (Hg : obj_get n (map k) = Some id) by now apply obj_get_NoDup.
    assert (Hone : forall j v, In (j, v) q ->
                     obj_get j (map k) = Some id -> j = n).
    { intros j v _ Hj. eapply map_injective; eauto. }
    assert (Ht : targets k1 n id = true).
    { unfold targets. rewrite Hm, Hg.
      destruct (NodeId_eq_dec id id); congruence. }
    rewrite (restore_rotation k k1 n id _ Hc Hm Hin).
    unfold stateEntry. fold r0.
    destruct (startsWith "RJoint_" n) eqn:EP;
      [destruct (includes "_XYZ_" n) eqn:EX;
         [|destruct (includes "_Z_" n) eqn:EZ]|];
      cbn [fold_left]; try rewrite (applyTo_hit k1 n id _ _ Ht).
    + simpl. apply euler_eta.
    + simpl. rewrite Hy1, Hy. simpl.
      destruct (fold_keeps_xy k id q Hy) with (r := r0) as [-> ->].
      * intros j v Hj Hgj. rewrite (Hone j v Hj Hgj) in Hj.
        destruct (Hq n v Hj) as [_ Hk]. unfold wellKinded in Hk.
        apply andb_prop in Hk as [_ Hk].
        destruct v; [reflexivity|congruence].
      * apply euler_eta.
    + apply fold_applyTo_none. intros j v Hj Hgj.
      rewrite (Hone j v Hj Hgj) in Hj.
      destruct (Hq n v Hj) as [_ Hk]. unfold wellKinded in Hk.
      apply andb_prop in Hk as [_ Hk].
      destruct v; [apply andb_prop in Hk as [_ Hk]|]; congruence.
    + apply fold_applyTo_none. intros j v Hj Hgj.
      rewrite (Hone j v Hj Hgj) in Hj.
      destruct (Hq n v Hj) as [Hp _]. congruence.
  - assert (Hnone : forall (k' : Kinematics) (q' : JointAngles),
              map k' = map k ->
              forall j v, In (j, v) q' -> obj_get j (map k') <> Some id).
    { intros k' q' Hk' j v _ Hj. rewrite Hk' in Hj.
      apply obj_get_Some_In in Hj. now apply (Hno j). }
    rewrite (fold_applyTo_none k1 id _ _ (Hnone k1 _ Hm)).
    apply (fold_applyTo_none k id _ _ (Hnone k _ eq_refl)).
Qed.

(** X6: under the Y-up convention the restore step of the FK evaluator
    writes the saved z angle of every 1-DOF [RJoint_] joint to its y
    angle: after any evaluation that returns, the y angle of such a node
    is the z angle it had before the call. *)
Theorem X6_yup_restore_writes_z_to_y (k : Kinematics) (q : JointAngles)
    (A : Matrix4) (n : string) (id : NodeId) :
  constructed k -> yup k = true ->
  (forall joint qv, In (joint, qv) q -> obj_get joint (map k) <> None) ->
  obj_get n (map k) = Some id ->
  startsWith "RJoint_" n = true ->
  includes "_XYZ_" n = false -> includes "_Z_" n = true ->
  ey (rotationOf (scene (snd (forwardKinematics q A k))) id)
  = ez (rotationOf (scene k) id).
Proof.
  intros Hc Hy Hq Hg EP EX EZ.
  rewrite (forwardKinematics_rotation k q A id Hc Hq). cbv zeta.
  pose proof (keeps_setConfiguration q k) as Hs.
  destruct Hs as (Hm & _ & _ & _ & _ & _ & Hy1 & _).
  set (k1 := snd (setConfiguration q k)) in *.
  rewrite (restore_rotation k k1 n id _ Hc Hm
             (obj_get_Some_In _ _ _ Hg)).
  unfold stateEntry. rewrite EP, EX, EZ. cbn [fold_left].
  unfold applyTo, targets. rewrite Hm, Hg.
  destruct (NodeId_eq_dec id id); [|congruence].
  simpl. rewrite Hy1, Hy. reflexivity.
Qed.

End Extra_forwardKinematics.

Section Extra_construction.
Context {JSN : JSNumber} {THREE : Three}.

Lemma obj_set_In_inv {V} k (v : V) (o : JSObj V) j w :
  In (j, w) (obj_set k v o) -> (j = k /\ w = v) \/ In (j, w) o.
Proof.
  induction o as [|[k0 v0] o IH]; simpl.
  - intros [H|[]]. injection H as <- <-. auto.
  - destruct (String.eqb_spec k k0); simpl.
    + intros [H|H]; [injection H as <- <-; subst; auto|auto].
    + intros [H|H]; [auto|]. apply IH in H. tauto.
Qed.

Lemma getCurrentStateConfig_triples k joint x y z :
  constructed k ->
  In (joint, Rot3 x y z) (getCurrentStateConfig k) ->
  includes "_XYZ_" joint = true.
Proof.
  intros Hc Hin. destruct (map_spec k Hc) as (Hnd & _).
  rewrite getCurrentStateConfig_flat_map in Hin by assumption.
  apply in_flat_map in Hin as ([n c] & _ & Hin). unfold stateEntry in Hin.
  destruct (startsWith "RJoint_" n); [|destruct Hin].
  destruct (includes "_XYZ_" n) eqn:EX; [|destruct (includes "_Z_" n)];
    simpl in Hin; intuition; congruence.
Qed.

(** The queryable configuration survives an evaluation that returns. *)
Lemma forwardKinematics_config (k : Kinematics) (q : JointAngles)
    (A : Matrix4) :
  constructed k ->
  (forall joint qv, In (joint, qv) q -> obj_get joint (map k) <> None) ->
  (forall joint x y z,
     In (joint, Rot3 x y z) q -> includes "_XYZ_" joint = true) ->
  getCurrentStateConfig (snd (forwardKinematics q A k))
  = getCurrentStateConfig k.
Proof.
  intros Hc Hq Hty.
  pose proof (keeps_forwardKinematics q A k) as (Hm2 & _).
  pose proof (keeps_setConfiguration q k) as Hs.
  destruct Hs as (Hm & _ & _ & _ & _ & _ & Hy1 & _).
  destruct (map_spec k Hc) as (Hnd & _).
  rewrite !getCurrentStateConfig_flat_map by congruence.
  rewrite Hm2. apply flat_map_agree. intros [n id] Hin.
  assert (Hg : obj_get n (map k) = Some id) by now apply obj_get_NoDup.
  unfold stateEntry.
  rewrite (forwardKinematics_rotation k q A id Hc Hq). cbv zeta.
  set (k1 := snd (setConfiguration q k)) in *.
  assert (Ht : targets k1 n id = true).
  { unfold targets. rewrite Hm, Hg.
    destruct (NodeId_eq_dec id id); congruence. }
  rewrite (restore_rotation k k1 n id _ Hc Hm Hin).
  unfold stateEntry.
  destruct (startsWith "RJoint_" n); [|reflexivity].
  destruct (includes "_XYZ_" n) eqn:EX;
    [|destruct (includes "_Z_" n); [|reflexivity]];
    cbn [fold_left]; rewrite (applyTo_hit k1 n id _ _ Ht).
  - reflexivity.
  - simpl. rewrite Hy1. destruct (yup k) eqn:EY; simpl; [|reflexivity].
    now rewrite (apply_keeps_z k n id q Hc EY Hg EX Hty).
Qed.

(** X7: when the tree contains the four joints of the resting stance,
    [new Kinematics] returns an engine over the same tree; the home
    configuration is the captured configuration with the four biases,
    and the queryable configuration of the tree is what it was before
    the call. *)
Theorem X7_constructor_returns (s : Scene) (yup : bool) :
  (forall n, In n stanceJoints -> In n (treeNames s)) ->
  exists k,
    fst (constructor s yup) = Normal k /\
    constructed k /\ root (scene k) = root s /\
    homePositionConfig k = homeBias (getCurrentStateConfig (with_scene k s)) /\
    getCurrentStateConfig k = getCurrentStateConfig (with_scene k s).
Proof.
  intros Hst. unfold constructor.
  destruct (confIndex (sortObjectKeys (getNameChildMap s)))
    as [ind indRev] eqn:Ei.
  set (this0 := mkKinematics s (sortObjectKeys (getNameChildMap s)) [] []
                             ind indRev (length indRev) yup).
  set (home := homeBias (getCurrentStateConfig this0)).
  set (this1 := with_homePositionConfig this0 home).
  assert (Hc : constructed this1) by (repeat split; simpl; auto).
  assert (Hgcs : getCurrentStateConfig this1 = getCurrentStateConfig this0)
    by reflexivity.
  assert (Hq : forall joint qv, In (joint, qv) home ->
                                obj_get joint (map this1) <> None).
  { intros joint qv Hin.
    destruct (in_dec string_dec joint stanceJoints) as [Hs|Hs].
    - intros E. apply obj_get_None in E. apply E.
      apply (map_spec this1 Hc). now apply Hst.
    - apply (getCurrentStateConfig_known this1 Hc joint qv).
      rewrite Hgcs.
      assert (E : obj_get joint home = obj_get joint
                                         (getCurrentStateConfig this0))
        by now apply homeBias_others.
      unfold home, homeBias in Hin.
      repeat (apply obj_set_In_inv in Hin as [[-> _]|Hin];
              [exfalso; apply Hs; simpl; tauto|]).
      exact Hin. }
  assert (Hty : forall joint x y z, In (joint, Rot3 x y z) home ->
                                    includes "_XYZ_" joint = true).
  { intros joint x y z Hin. unfold home, homeBias in Hin.
    repeat (apply obj_set_In_inv in Hin as [[_ Hin]|Hin];
            [discriminate|]).
    apply (getCurrentStateConfig_triples this1 joint x y z Hc).
    now rewrite Hgcs. }
  destruct (forwardKinematics_returns home this1 Hc Hq) as [R1 R2].
  pose proof (forwardKinematics_config this1 home identity Hc Hq Hty) as Hcfg.
  pose proof (keeps_forwardKinematics home identity this1) as Hs.
  change (homePositionConfig this1) with home.
  rewrite (forwardKinematics_run home identity this1 R1 R2) in Hcfg, Hs |- *.
  cbn [snd fst] in *.
  set (k2 := snd (setConfiguration (getCurrentStateConfig this1)
                    (snd (setConfiguration home this1)))) in *.
  pose proof (constructed_sameEngine _ _ Hs Hc) as Hc2.
  destruct Hs as (Hm & Hh & _ & Hix & Hrv & Hl & Hy & Hr & _).
  eexists. split; [reflexivity|]. split; [|split; [|split]].
  - destruct Hc2 as (H1 & H2 & H3). repeat split; simpl; auto.
  - simpl. exact Hr.
  - simpl. rewrite Hh. unfold home. f_equal.
    unfold getCurrentStateConfig. simpl. now rewrite Hm.
  - transitivity (getCurrentStateConfig k2); [reflexivity|].
    rewrite Hcfg, Hgcs. unfold getCurrentStateConfig. simpl.
    now rewrite Hm.
Qed.

End Extra_construction.

Section Extra_vectors.
Context {JSN : JSNumber} {THREE : Three}.

(** X8: a vector with more slots than the index has labels makes
    [vectorToConfig] throw: past the last label [jLabel] is [undefined]
    and [jLabel.endsWith] is a [TypeError]. *)
Theorem X8_vectorToConfig_overrun (k : Kinematics) (vec : list num) :
  length (qConfigIndexReversed k) < length vec ->
  vectorToConfig k vec = Throw.
Proof.
  intros H. unfold vectorToConfig.
  generalize (@nil (string * JointValue)).
  revert vec H. induction (qConfigIndexReversed k) as [|l labels IH];
    intros [|v vec] H q; simpl in H; try lia; [reflexivity|].
  cbn [vectorToConfigFrom].
  match goal with
  | |- match ?c with _ => _ end = _ => destruct c as [q'|]
  end; [|reflexivity].
  apply IH. lia.
Qed.

Lemma configFrom_entry f names j qv :
  In (j, qv) (configFrom f names) ->
  In j names /\
  ((includes "_XYZ_" j = true /\
    qv = Rot3 (f (axisLabel j "x")) (f (axisLabel j "y"))
              (f (axisLabel j "z"))) \/
   (includes "_XYZ_" j = false /\ includes "_Z_" j = true /\
    qv = Scalar (f j))).
Proof.
  intros H. apply in_flat_map in H as (n & Hn & H). unfold jointEntry in H.
  destruct (includes "_XYZ_" n) eqn:EX;
    [|destruct (includes "_Z_" n) eqn:EZ]; simpl in H;
    try (destruct H as [H|[]]; injection H as E1 E2; subst j qv);
    try tauto.
Qed.

Lemma writes_configFrom f names j qv label w :
  In (j, qv) (configFrom f names) -> writes j qv label = Some w ->
  In label (dofLabels j) /\ w = f label.
Proof.
  intros Hin Hw. apply configFrom_entry in Hin as [_ Hk].
  apply writes_inv in Hw as [[-> ->]|(x & y & z & -> & Hw)].
  - destruct Hk as [[_ Hk]|(EX & EZ & Hk)]; [discriminate|].
    injection Hk as Hk. subst w. rewrite (dofLabels_z _ EX EZ).
    simpl. auto.
  - destruct Hk as [[EX Hk]|(_ & _ & Hk)]; [|discriminate].
    injection Hk as E1 E2 E3. subst x y z.
    rewrite (dofLabels_xyz _ EX). simpl.
    destruct Hw as [[-> ->]|[[-> ->]|[-> ->]]]; auto.
Qed.

Lemma slotValue_configFrom f names label :
  NoDup names -> In label (flat_map dofLabels names) ->
  slotValue (configFrom f names) label = f label.
Proof.
  intros Hnd Hl. apply in_flat_map in Hl as (n & Hn & Hl).
  apply slotValue_written.
  - assert (He : forall e, In e (jointEntry f n) ->
                           In e (configFrom f names)).
    { intros e He. apply in_flat_map. eauto. }
    pose proof (dofLabels_In _ _ Hl) as [[EX Hd]|(EX & EZ & ->)].
    + exists n, (Rot3 (f (axisLabel n "x")) (f (axisLabel n "y"))
                      (f (axisLabel n "z"))).
      split; [apply He; unfold jointEntry; rewrite EX; now left|].
      destruct Hd as [-> | [-> | ->]];
        [apply writes_x|apply writes_y|apply writes_z].
    + exists n, (Scalar (f n)).
      split; [apply He; unfold jointEntry; rewrite EX, EZ; now left|].
      simpl. now rewrite String.eqb_refl.
  - intros j qv w Hin Hw.
    now apply (writes_configFrom f names j qv label w Hin) in Hw.
Qed.

(** X9: a vector with one slot per label is read back and written out
    to itself: [configToVector(vectorToConfig(vec))] is [vec]. *)
Theorem X9_vector_config_roundtrip (k : Kinematics) (vec : list num) :
  constructed k -> plainNames k = true ->
  length vec = qConfigLength k ->
  exists q,
    vectorToConfig k vec = Normal q /\ configToVector k q = vec.
Proof.
  intros Hc Hp Hlen.
  exists (configFrom (slotOf k vec) (obj_keys (map k))). split.
  - now apply vectorToConfig_spec.
  - destruct (map_spec k Hc) as (Hnd & _).
    destruct (index_spec k Hc) as (Hrv & _).
    rewrite (configToVector_map k _ Hc).
    rewrite (holds_map k vec _ Hc (holds_slotOf k vec Hc Hlen)) at 2.
    apply map_ext_in. intros label Hl. rewrite Hrv in Hl.
    now apply slotValue_configFrom.
Qed.

Lemma forwardKinematics_links q A k links :
  fst (forwardKinematics q A k) = Normal links ->
  links =
  forwardKinematicsRec (matrixWorldOf (scene (snd (setConfiguration q k))))
    (root (scene (snd (setConfiguration q k)))) [] q A [].
Proof.
  unfold forwardKinematics, bind, get_this, ret.
  destruct (setConfiguration q k) as [[[]|] k1]; [|discriminate].
  simpl.
  destruct (setConfiguration (getCurrentStateConfig k) k1) as [[[]|] k2];
    simpl; congruence.
Qed.

(** X13: the snapshot an evaluation returns has an entry under a name
    exactly when the name is borne by a node of the tree. *)
Theorem X13_snapshot_names (k : Kinematics) (q : JointAngles) (A : Matrix4)
    (links : LinkTransformations) :
  fst (forwardKinematics q A k) = Normal links ->
  forall n, obj_get n links <> None <-> In n (treeNames (scene k)).
Proof.
  intros H n. rewrite (forwardKinematics_links q A k links H).
  destruct (keeps_setConfiguration q k)
    as (_ & _ & _ & _ & _ & _ & _ & -> & _).
  unfold treeNames.
  pose proof (forwardKinematicsRec_keys
                (matrixWorldOf (scene (snd (setConfiguration q k))))
                q A (root (scene k)) [] [] n) as Hk.
  split.
  - intros Hn.
    destruct (in_dec string_dec n
                (obj_keys
                   (forwardKinematicsRec
                      (matrixWorldOf (scene (snd (setConfiguration q k))))
                      (root (scene k)) [] q A []))) as [Hi|Hi].
    + apply Hk in Hi as [[]|Hi]. exact Hi.
    + exfalso. apply Hn. now apply obj_get_None.
  - intros Hn E. apply obj_get_None in E. apply E. apply Hk. now right.
Qed.

(** X21: for an effector name that no node of the tree bears,
    [inverseKinematics] throws, whatever the configuration, the target
    and the iteration bound: the snapshot has no matrix under the name
    and [getPosition] is given [undefined]. *)
Theorem X21_inverseKinematics_absent_effector_throws (k : Kinematics)
    (q : JointAngles) (joint : string) (target : Vector3) (A : Matrix4)
    (alpha limit : num) (maxIterations : nat) :
  ~ In joint (treeNames (scene k)) ->
  fst (inverseKinematics q joint target A alpha limit maxIterations k)
  = Throw.
Proof.
  intros Hn. unfold inverseKinematics, bind, get_this, lift.
  destruct (vectorToConfig k (configToVector k q)) as [q0|];
    [|reflexivity].
  destruct (forwardKinematics q0 A k) as [[fwd|] k1] eqn:E;
    [|reflexivity].
  assert (Eg : obj_get joint fwd = None).
  { assert (E' : fst (forwardKinematics q0 A k) = Normal fwd)
      by now rewrite E.
    rewrite (forwardKinematics_links q0 A k fwd E').
    apply obj_get_None. intros Hin.
    apply forwardKinematicsRec_keys in Hin as [[]|Hin].
    destruct (keeps_setConfiguration q0 k)
      as (_ & _ & _ & _ & _ & _ & _ & Hr & _).
    rewrite Hr in Hin. exact (Hn Hin). }
  rewrite Eg. reflexivity.
Qed.

End Extra_vectors.

Section Extra_solver.
Context {JSN : JSNumber} {THREE : Three}.

Lemma still_ret {A} n names (a : A) : still n names (ret a).
Proof. intros k a' k' _ [= _ <-]. reflexivity. Qed.

Lemma still_bind {A B} n names (m : Eff A) (f : A -> Eff B)
    (P : A -> Prop) :
  returns_with n names m P -> still n names m ->
  (forall a, P a -> still n names (f a)) ->
  still n names (bind m f).
Proof.
  intros Hr Hm Hf k b k' Hk E. unfold bind in E.
  destruct (Hr k Hk) as (a & k1 & E1 & Hk1 & Ha). rewrite E1 in E.
  rewrite (Hf a Ha k1 b k' Hk1 E). exact (Hm k a k1 Hk E1).
Qed.

Lemma still_get_this {A} n names (f : Kinematics -> Eff A) :
  (forall k, ready n names k -> still n names (f k)) ->
  still n names (bind get_this f).
Proof. intros Hf k a k' Hk E. exact (Hf k Hk k a k' Hk E). Qed.

Lemma still_lift {A B} n names (c : Completion A) (f : A -> Eff B) :
  (forall a, still n names (f a)) -> still n names (bind (lift c) f).
Proof.
  intros Hf k b k' Hk E. unfold bind, lift in E.
  destruct c as [a|]; [|discriminate]. exact (Hf a k b k' Hk E).
Qed.

Lemma still_getPositionOf {B} n names m (f : Vector3 -> Eff B) :
  (forall p, still n names (f p)) ->
  still n names (bind (getPositionOf m) f).
Proof.
  intros Hf k b k' Hk E. destruct m as [m|]; [|discriminate].
  exact (Hf _ k b k' Hk E).
Qed.

Lemma still_assoc {A B C} n names (m : Eff A) (f : A -> Eff B)
    (g : B -> Eff C) :
  still n names (bind (bind m f) g) ->
  still n names (bind m (fun a => bind (f a) g)).
Proof.
  intros H k c k' Hk E. apply (H k c k' Hk). rewrite <- E. unfold bind.
  destruct (m k) as [[a|] k1]; [|reflexivity].
  destruct (f a k1) as [[b|] k2]; reflexivity.
Qed.

Lemma still_for_fold {A L} n names (xs : list A)
    (body : A -> L -> Eff L) (I : L -> Prop) :
  (forall x st, I st -> returns_with n names (body x st) I) ->
  (forall x st, I st -> still n names (body x st)) ->
  forall st, I st -> still n names (for_fold xs body st).
Proof.
  intros Hr Hb. induction xs as [|x xs IH]; intros st Hst; simpl.
  - apply still_ret.
  - apply (still_bind n names _ _ I); auto.
Qed.

(** Reading a vector back and evaluating it puts the joints back. *)
Lemma still_forwardKinematics n names k0 vec A :
  ready n names k0 -> length vec = n ->
  still n names
    (bind (lift (vectorToConfig k0 vec))
          (fun q' => forwardKinematics q' A)).
Proof.
  intros Hk0 Hlen k fwd k' Hk E. pose proof Hk as (Hc & Hp & Hn & Ht).
  pose proof Hk0 as (Hc0 & Hp0 & Hn0 & Ht0).
  unfold bind, lift in E.
  rewrite (vectorToConfig_spec k0 vec Hc0 Hp0) in E by congruence.
  replace k' with
    (snd (forwardKinematics
            (configFrom (slotOf k0 vec) (obj_keys (map k0))) A k))
    by now rewrite E.
  apply forwardKinematics_config; [assumption| |].
  - intros joint qv H. apply configFrom_keys in H.
    apply (ready_known n names k joint Hk).
    destruct (map_spec k0 Hc0) as (_ & _ & Hnm & _).
    rewrite <- Ht0. now apply Hnm.
  - intros joint x y z H.
    apply configFrom_entry in H as [_ [[EX _]|(_ & _ & H)]];
      [assumption|discriminate].
Qed.

Lemma still_ccdStep n names joint target A alpha jointName dof st :
  In joint names -> fits n names st ->
  still n names (ccdStep joint target A alpha jointName dof st).
Proof.
  intros Hj [Hlen Hsnap]. unfold ccdStep.
  apply still_get_this. intros k Hk. cbv zeta.
  destruct (obj_get _ (qConfigIndex k)) as [i|] eqn:Ei;
    [|apply still_ret].
  destruct (indexed_joint n names k jointName dof i Hk Ei) as [Hjn Hi].
  destruct (Hsnap jointName Hjn) as [matrix ->].
  apply still_getPositionOf. intros p_end.
  match goal with
  | |- still _ _ (if ?c then _ else _) => destruct c
  end; [apply still_ret|].
  apply still_assoc.
  apply (still_bind n names _ _ (snapshotOf names)).
  - apply returns_forwardKinematics; [exact Hk|].
    rewrite array_set_length; lia.
  - apply still_forwardKinematics; [exact Hk|].
    rewrite array_set_length; lia.
  - intros fwd _. apply still_getPositionOf. intros p. apply still_ret.
Qed.

Lemma still_ccdSweep n names joint target A alpha chain st :
  In joint names -> fits n names st ->
  still n names (ccdSweep joint target A alpha chain st).
Proof.
  intros Hj Hst. unfold ccdSweep.
  apply (still_for_fold n names _ _ (fits n names)); [| |assumption].
  - intros jointName st' Hst'. apply returns_for_fold; [|assumption].
    intros dof st'' Hst''. now apply returns_ccdStep.
  - intros jointName st' Hst'.
    apply (still_for_fold n names _ _ (fits n names)); [| |assumption].
    + intros dof st'' Hst''. now apply returns_ccdStep.
    + intros dof st'' Hst''. now apply still_ccdStep.
Qed.

Lemma still_ccdLoop n names joint target A alpha limit chain :
  In joint names ->
  forall remaining count st, fits n names st ->
  still n names
    (ccdLoop joint target A alpha limit chain remaining count st).
Proof.
  intros Hj. induction remaining as [|r IH]; intros count st Hst; simpl;
    destruct (ngt (lengthSq (ik_dErr st)) limit);
    try apply still_ret.
  apply (still_bind n names _ _ (fits n names)).
  - now apply returns_ccdSweep.
  - now apply still_ccdSweep.
  - intros st' Hst'. now apply IH.
Qed.

Lemma still_inverseKinematics n names q joint target A alpha limit
    maxIterations :
  In joint names ->
  still n names
    (inverseKinematics q joint target A alpha limit maxIterations).
Proof.
  intros Hj. unfold inverseKinematics.
  apply still_get_this. intros k Hk. cbv zeta.
  pose proof Hk as (Hc & _ & Hn & _).
  assert (Hlen : length (configToVector k q) = n)
    by (rewrite <- Hn; apply (configToVector_holds k q Hc)).
  apply still_assoc.
  apply (still_bind n names _ _ (snapshotOf names)).
  - now apply returns_forwardKinematics.
  - now apply still_forwardKinematics.
  - intros fwd Hfwd. destruct (Hfwd joint Hj) as [m ->].
    apply still_getPositionOf. intros p_end.
    apply (still_bind n names _ _ (fun _ => True)).
    + eapply returns_weaken;
        [|apply (returns_ccdLoop n names joint target A alpha limit
                   (getChain k joint) Hj maxIterations 0);
          split; [exact Hlen|exact Hfwd]].
      auto.
    + apply still_ccdLoop; [assumption|]. split; [exact Hlen|exact Hfwd].
    + intros [count st] _. apply still_lift. intros finalQ.
      apply still_ret.
Qed.

(** X10: the solver leaves the robot as it found it.  On an effector of
    the tree [inverseKinematics] returns, and the joint state read after
    the call is the one read before it: the poses tried on the way are
    all taken back. *)
Theorem X10_inverseKinematics_keeps_state (k : Kinematics)
    (q : JointAngles) (joint : string) (target : Vector3) (A : Matrix4)
    (alpha limit : num) (maxIterations : nat) :
  constructed k -> plainNames k = true ->
  In joint (treeNames (scene k)) ->
  returned
    (fst (inverseKinematics q joint target A alpha limit maxIterations k))
  = true /\
  getCurrentStateConfig
    (snd (inverseKinematics q joint target A alpha limit maxIterations k))
  = getCurrentStateConfig k.
Proof.
  intros Hc Hp Hj.
  assert (Hk : ready (qConfigLength k) (treeNames (scene k)) k)
    by (split; [|split; [|split]]; auto).
  destruct (inverseKinematics_run k q joint target A alpha limit
              maxIterations Hc Hp Hj)
    as (q0 & dErr0 & finalQ & count & st & k' & _ & _ & E & _).
  rewrite E. split; [reflexivity|].
  exact (still_inverseKinematics _ _ q joint target A alpha limit
           maxIterations Hj k _ k' Hk E).
Qed.


(** The loop of [calcJacobian] over the slots [slots] of the index. *)
Lemma calcJacobian_columns n names k0 q joint pos dq A :
  ready n names k0 -> In joint names ->
  forall slots jac, (forall i, In i slots -> i < n) ->
  returns_with n names
    (for_fold slots
       (fun i jac =>
          bind (lift (vectorToConfig k0
                        (array_set i
                           (nadd (nth i (configToVector k0 q) undefined) dq)
                           (configToVector k0 q))))
            (fun q2 =>
               bind (forwardKinematics q2 A)
                 (fun fwd2 =>
                    bind (getPositionOf (obj_get joint fwd2))
                      (fun pos2 =>
                         ret (jac ++
                              [divideScalar (subVectors pos2 pos) dq])))))
       jac)
    (fun jac' => length jac' = length jac + length slots) /\
  still n names
    (for_fold slots
       (fun i jac =>
          bind (lift (vectorToConfig k0
                        (array_set i
                           (nadd (nth i (configToVector k0 q) undefined) dq)
                           (configToVector k0 q))))
            (fun q2 =>
               bind (forwardKinematics q2 A)
                 (fun fwd2 =>
                    bind (getPositionOf (obj_get joint fwd2))
                      (fun pos2 =>
                         ret (jac ++
                              [divideScalar (subVectors pos2 pos) dq])))))
       jac).
Proof.
  intros Hk0 Hj. pose proof Hk0 as (Hc0 & _ & Hn0 & _).
  assert (Hlen : length (configToVector k0 q) = n)
    by (rewrite <- Hn0; apply (configToVector_holds k0 q Hc0)).
  induction slots as [|i slots IH]; intros jac Hi;
    cbn [for_fold length].
  - split; [apply returns_ret; lia|apply still_ret].
  - assert (Hv : length (array_set i
                           (nadd (nth i (configToVector k0 q) undefined) dq)
                           (configToVector k0 q)) = n)
      by (rewrite array_set_length; [exact Hlen|];
          rewrite Hlen; apply Hi; now left).
    assert (Hs : forall i, In i slots -> i < n)
      by (intros i' H'; apply Hi; now right).
    split.
    + eapply returns_bind with
        (P := fun jac' => length jac' = S (length jac)).
      * apply returns_assoc. eapply returns_bind.
        { apply returns_forwardKinematics; [exact Hk0|exact Hv]. }
        intros fwd2 Hfwd. destruct (Hfwd joint Hj) as [m ->].
        apply returns_ret. rewrite length_app. simpl. lia.
      * intros jac' Hjac'. eapply returns_weaken;
          [|apply (proj1 (IH jac' Hs))].
        intros jac2. simpl. lia.
    + apply (still_bind n names _ _ (fun _ => True)).
      * apply returns_assoc. eapply returns_bind.
        { apply returns_forwardKinematics; [exact Hk0|exact Hv]. }
        intros fwd2 Hfwd. destruct (Hfwd joint Hj) as [m ->].
        now apply returns_ret.
      * apply still_assoc.
        apply (still_bind n names _ _ (snapshotOf names)).
        { apply returns_forwardKinematics; [exact Hk0|exact Hv]. }
        { apply still_forwardKinematics; [exact Hk0|exact Hv]. }
        intros fwd2 _. apply still_getPositionOf. intros p.
        apply still_ret.
      * intros jac' _. apply (proj2 (IH jac' Hs)).
Qed.

(** X11: on an effector of the tree [calcJacobian] returns one column
    per slot of the index, and the joint state read after the call is
    the one read before it. *)
Theorem X11_calcJacobian_columns (k : Kinematics) (q : JointAngles)
    (joint : string) (pos : Vector3) (dq : num) (A : Matrix4) :
  constructed k -> plainNames k = true ->
  In joint (treeNames (scene k)) ->
  exists jac,
    fst (calcJacobian q joint pos dq A k) = Normal jac /\
    length jac = qConfigLength k /\
    getCurrentStateConfig (snd (calcJacobian q joint pos dq A k))
    = getCurrentStateConfig k.
Proof.
  intros Hc Hp Hj.
  assert (Hk : ready (qConfigLength k) (treeNames (scene k)) k)
    by (split; [|split; [|split]]; auto).
  assert (Hi : forall i, In i (seq 0 (qConfigLength k)) ->
                         i < qConfigLength k)
    by (intros i H; apply in_seq in H; lia).
  destruct (calcJacobian_columns _ _ k q joint pos dq A Hk Hj
              (seq 0 (qConfigLength k)) [] Hi) as [Hr Hs].
  destruct (Hr k Hk) as (jac & k' & E & _ & Hlen).
  assert (E' : calcJacobian q joint pos dq A k = (Normal jac, k'))
    by exact E.
  rewrite E'. exists jac. split; [reflexivity|]. split.
  - rewrite Hlen, length_seq. reflexivity.
  - exact (Hs k jac k' Hk E).
Qed.

End Extra_solver.

Section Extra_holds.
Context {JSN : JSNumber} {JSH : JSHostNumber}.

(** X12: when no hold passes the test with a distance below [Infinity],
    [findClosestHold] returns the first hold of the list, whether or
    not that hold passes the test, and [undefined] on an empty list. *)
Theorem X12_findClosestHold_default (pos coM : Vector3) (isHead : bool)
    (holds : list Hold) :
  (forall h, In h holds -> eligible coM isHead h = true ->
     nlt (distanceToSquared pos (hold_position h)) infinity = false) ->
  findClosestHold pos holds coM isHead
  = match holds with [] => None | _ :: _ => Some 0 end.
Proof.
  intros H. unfold findClosestHold.
  generalize (match holds with [] => None | _ :: _ => Some 0 end).
  generalize 0. generalize dependent infinity.
  induction holds as [|h hs IH]; intros min H i minHold; simpl;
    [reflexivity|].
  destruct (eligible coM isHead h) eqn:E; simpl.
  - rewrite (H h (or_introl eq_refl) E). apply IH.
    intros h' Hin. apply H. now right.
  - apply IH. intros h' Hin. apply H. now right.
Qed.

Section Order.
Hypothesis nlt_trans :
  forall a b c : num, nlt a b = true -> nlt b c = true -> nlt a c = true.
Hypothesis nlt_irrefl : forall a : num, nlt a a = false.

Lemma closestFrom_spec pos coM isHead : forall hs i min minHold,
  (closestFrom pos coM isHead hs i min minHold = minHold /\
   forall h, In h hs -> eligible coM isHead h = true ->
     nlt (distanceToSquared pos (hold_position h)) min = false) \/
  (exists j r,
     closestFrom pos coM isHead hs i min minHold = Some (i + j) /\
     nth_error hs j = Some r /\
     eligible coM isHead r = true /\
     nlt (distanceToSquared pos (hold_position r)) min = true /\
     forall h, In h hs -> eligible coM isHead h = true ->
       nlt (distanceToSquared pos (hold_position h))
           (distanceToSquared pos (hold_position r)) = false).
Proof.
  induction hs as [|h hs IH]; intros i min minHold; simpl.
  - left. split; [reflexivity|]. intros h [].
  - destruct (eligible coM isHead h) eqn:E; simpl;
      [destruct (nlt (distanceToSquared pos (hold_position h)) min) eqn:L|].
    + right.
      destruct (IH (S i) (distanceToSquared pos (hold_position h)) (Some i))
        as [[-> Hall]|(j & r & -> & Hj & Er & Lr & Hall)].
      * exists 0, h. rewrite Nat.add_0_r. repeat split; auto.
        intros h' [<-|Hin] E'; [apply nlt_irrefl|now apply Hall].
      * exists (S j), r. rewrite Nat.add_succ_r. repeat split; auto.
        { now apply (nlt_trans _ _ _ Lr). }
        intros h' [<-|Hin] E'; [|now apply Hall].
        destruct (nlt (distanceToSquared pos (hold_position h))
                      (distanceToSquared pos (hold_position r))) eqn:L';
          [|reflexivity].
        rewrite <- (nlt_irrefl (distanceToSquared pos (hold_position h))).
        symmetry. now apply (nlt_trans _ _ _ L').
    + destruct (IH (S i) min minHold)
        as [[-> Hall]|(j & r & -> & Hj & Er & Lr & Hall)].
      * left. split; [reflexivity|].
        intros h' [<-|Hin] E'; [assumption|now apply Hall].
      * right. exists (S j), r. rewrite Nat.add_succ_r.
        repeat split; auto.
        intros h' [<-|Hin] E'; [|now apply Hall].
        destruct (nlt (distanceToSquared pos (hold_position h))
                      (distanceToSquared pos (hold_position r))) eqn:L';
          [|reflexivity].
        rewrite <- L. symmetry. now apply (nlt_trans _ _ _ L').
    + destruct (IH (S i) min minHold)
        as [[-> Hall]|(j & r & -> & Hj & Er & Lr & Hall)].
      * left. split; [reflexivity|].
        intros h' [<-|Hin] E'; [congruence|now apply Hall].
      * right. exists (S j), r. rewrite Nat.add_succ_r.
        repeat split; auto.
        intros h' [<-|Hin] E'; [congruence|now apply Hall].
Qed.

End Order.

(** X14: where [<] is a strict order on the numbers and some hold
    passes the test at a distance below [Infinity], [findClosestHold]
    returns a hold of the list that passes the test, and no hold that
    passes the test is closer to [pos]. *)
Theorem X14_findClosestHold_closest (pos coM : Vector3) (isHead : bool)
    (holds : list Hold) :
  (forall a b c : num,
     nlt a b = true -> nlt b c = true -> nlt a c = true) ->
  (forall a : num, nlt a a = false) ->
  (exists h, In h holds /\ eligible coM isHead h = true /\
     nlt (distanceToSquared pos (hold_position h)) infinity = true) ->
  exists i r,
    findClosestHold pos holds coM isHead = Some i /\
    nth_error holds i = Some r /\
    eligible coM isHead r = true /\
    forall h, In h holds -> eligible coM isHead h = true ->
      nlt (distanceToSquared pos (hold_position h))
          (distanceToSquared pos (hold_position r)) = false.
Proof.
  intros Ht Hi (h & Hin & E & L). unfold findClosestHold.
  destruct (closestFrom_spec Ht Hi pos coM isHead holds 0 infinity
              (match holds with [] => None | _ :: _ => Some 0 end))
    as [[_ Hall]|(j & r & Er & Hj & Hr & _ & Hall)].
  - rewrite (Hall h Hin E) in L. discriminate.
  - exists j, r. auto.
Qed.

(** The hold [findClosestHold] returns is one of the list. *)
Lemma findClosestHold_in_range pos coM isHead (holds : list Hold) i :
  findClosestHold pos holds coM isHead = Some i -> i < length holds.
Proof.
  unfold findClosestHold.
  assert (G : forall hs k min minHold,
    (forall j, minHold = Some j -> j < k + length hs) ->
    closestFrom pos coM isHead hs k min minHold = Some i ->
    i < k + length hs).
  { induction hs as [|h hs IH]; intros k min minHold Hm; simpl.
    - intros E. now apply Hm.
    - destruct (eligible coM isHead h && nlt _ min); intros E;
        apply IH in E; try lia.
      + intros j [= <-]. lia.
      + intros j Hj. apply Hm in Hj. simpl in Hj. lia. }
  intros E. apply G in E; [exact E|].
  destruct holds; [discriminate|]. intros j [= <-]. simpl. lia.
Qed.

Lemma findClosestHold_some pos coM isHead (holds : list Hold) :
  holds <> [] ->
  exists i, findClosestHold pos holds coM isHead = Some i.
Proof.
  unfold findClosestHold. intros Hne.
  assert (G : forall hs k min j,
    exists i, closestFrom pos coM isHead hs k min (Some j) = Some i).
  { induction hs as [|h hs IH]; intros k min j; simpl; [eauto|].
    destruct (eligible coM isHead h && nlt _ min); apply IH. }
  destruct holds; [congruence|]. apply G.
Qed.

End Extra_holds.

Section Extra_host.
Context {JSN : JSNumber} {THREE : Three}.
Context {JSH : JSHostNumber} {THREEH : ThreeHost}.

Local Abbreviation twoMarkers :=
  (Forall (fun h : Hold => 2 <= length (hold_children h))).

(** The holds are the same objects up to their markers. *)
Local Abbreviation sameHolds hs hs' :=
  (List.map hold_name hs' = List.map hold_name hs /\
   List.map hold_position hs' = List.map hold_position hs).

Lemma set_children_same i cs : forall hs, sameHolds hs (set_children i cs hs).
Proof.
  revert i. intros i hs. revert i.
  induction hs as [|h hs IH]; intros [|i]; simpl; auto.
  destruct (IH i) as [-> ->]. auto.
Qed.

Lemma set_children_marked i cs : forall hs,
  2 <= length cs -> twoMarkers hs -> twoMarkers (set_children i cs hs).
Proof.
  intros hs Hcs. revert i.
  induction hs as [|h hs IH]; intros [|i] H; simpl; auto;
    inversion H; subst; constructor; auto.
Qed.

Lemma bind_normal {St A B} (m : EffM St A) (f : A -> EffM St B) st a st' :
  m st = (Normal a, st') -> bind m f st = f a st'.
Proof. intros E. unfold bind. now rewrite E. Qed.

Lemma on_engine_normal {A} (m : Eff A) k (hs : list Hold) a k' :
  m k = (Normal a, k') -> on_engine m (k, hs) = (Normal a, (k', hs)).
Proof. intros E. unfold on_engine. simpl. now rewrite E. Qed.

Lemma marker_on_off_returns k hs i on :
  twoMarkers hs -> i < length hs ->
  exists hs',
    marker_on_off i on (k, hs) = (Normal tt, (k, hs')) /\
    twoMarkers hs' /\ sameHolds hs hs'.
Proof.
  intros Hm Hi. unfold marker_on_off. simpl.
  destruct (nth_error hs i) as [h|] eqn:E;
    [|apply nth_error_None in E; lia].
  pose proof (proj1 (Forall_forall _ _) Hm h (nth_error_In _ _ E)) as Hh.
  cbv beta in Hh. revert Hh.
  destruct (hold_children h) as [|c0 [|c1 cs]]; simpl; intros Hh; try lia.
  eexists. split; [reflexivity|]. split.
  - apply set_children_marked; [simpl; lia|assumption].
  - apply set_children_same.
Qed.

Lemma sameHolds_length (hs hs' : list Hold) :
  List.map hold_name hs' = List.map hold_name hs -> length hs' = length hs.
Proof.
  intros H. rewrite <- (length_map hold_name hs'), H. apply length_map.
Qed.

(** [holds.forEach(h => marker_on_off(h, false))] *)
Lemma markers_off_returns k : forall l hs,
  twoMarkers hs -> (forall i, In i l -> i < length hs) ->
  exists hs',
    for_each l (fun h => marker_on_off h false) (k, hs)
    = (Normal tt, (k, hs')) /\
    twoMarkers hs' /\ sameHolds hs hs'.
Proof.
  induction l as [|i l IH]; intros hs Hm Hl; simpl.
  - exists hs. auto.
  - destruct (marker_on_off_returns k hs i false Hm (Hl i (or_introl eq_refl)))
      as (hs1 & E1 & Hm1 & Hn1 & Hp1).
    destruct (IH hs1 Hm1) as (hs2 & E2 & Hm2 & Hn2 & Hp2).
    { intros j Hj. rewrite (sameHolds_length _ _ Hn1). apply Hl. now right. }
    exists hs2. rewrite (bind_normal _ _ _ _ _ E1).
    repeat split; auto; congruence.
Qed.

(** On an effector of the tree the solver returns a configuration of
    joints of the tree. *)
Lemma returns_inverseKinematics n names q joint target A alpha limit
    maxIterations :
  In joint names ->
  returns_with n names
    (inverseKinematics q joint target A alpha limit maxIterations)
    (fun r => forall j qv, In (j, qv) (fst (fst (fst r))) -> In j names).
Proof.
  intros Hj. unfold inverseKinematics.
  eapply returns_bind;
    [apply (returns_get_this n names (ready n names)); auto|].
  intros k Hk. cbv zeta.
  pose proof Hk as (Hc & Hp & Hn & Ht).
  assert (Hlen : length (configToVector k q) = n)
    by (rewrite <- Hn; apply (configToVector_holds k q Hc)).
  apply returns_assoc.
  eapply returns_bind; [now apply returns_forwardKinematics|].
  intros fwd Hfwd. destruct (Hfwd joint Hj) as [m ->].
  simpl getPositionOf.
  apply (returns_bind n names _ _ (fun _ => True));
    [now apply returns_ret|]. intros p_end _.
  eapply returns_bind.
  - apply (returns_ccdLoop n names joint target A alpha limit
             (getChain k joint) Hj maxIterations 0).
    split; [exact Hlen|exact Hfwd].
  - intros [count st] ([Hlen2 _] & _). simpl in Hlen2.
    unfold lift, bind.
    rewrite (vectorToConfig_spec k (ik_vec st) Hc Hp) by congruence.
    intros k1 Hk1. eexists _, k1. split; [reflexivity|].
    split; [assumption|]. simpl. intros j qv Hin.
    apply configFrom_keys in Hin. rewrite <- Ht.
    now apply (map_spec k Hc).
Qed.

Lemma ready_returns_setConfiguration n names q k :
  ready n names k -> (forall j qv, In (j, qv) q -> In j names) ->
  exists k', setConfiguration q k = (Normal tt, k') /\
             ready n names k' /\ sameEngine k k'.
Proof.
  intros Hk Hq.
  assert (E : fst (setConfiguration q k) = Normal tt).
  { apply setConfiguration_returns. intros j qv Hin.
    apply (ready_known n names k j Hk). eauto. }
  pose proof (keeps_setConfiguration q k) as Hs.
  destruct (setConfiguration q k) as [c k'] eqn:Es. simpl in E, Hs.
  subst c. exists k'. split; [reflexivity|]. split; [|assumption].
  eapply ready_sameEngine; eauto.
Qed.

(** One turn of the loop of [hang_on_wall]. *)
Lemma hang_returns n names setMarkers eff init k hs :
  ready n names k ->
  (obj_get eff (homePositionFwd k) <> None -> In eff names) ->
  hs <> [] -> twoMarkers hs ->
  exists k' hs',
    hang setMarkers eff init (k, hs)
    = (Normal (match obj_get eff (homePositionFwd k) with
               | Some _ => true
               | None => init
               end), (k', hs')) /\
    ready n names k' /\ sameEngine k k' /\
    twoMarkers hs' /\ sameHolds hs hs'.
Proof.
  intros Hk Hhome Hne Hm. unfold hang.
  rewrite (bind_normal (on_engine get_this) _ (k, hs) k (k, hs) eq_refl).
  cbv zeta.
  destruct (obj_get eff (homePositionFwd k)) as [def_m|] eqn:Eh.
  2:{ exists k, hs. repeat split; auto using sameEngine_refl; apply Hk. }
  assert (Hj : In eff names) by (apply Hhome; discriminate).
  rewrite (bind_normal get_holds _ (k, hs) hs (k, hs) eq_refl).
  match goal with
  | |- context [findClosestHold ?p hs ?c ?b] =>
      destruct (findClosestHold_some p c b hs Hne) as [ih Ef];
      pose proof (findClosestHold_in_range p c b hs ih Ef) as Hih;
      rewrite Ef
  end.
  destruct (nth_error hs ih) as [hold|] eqn:En;
    [|apply nth_error_None in En; lia].
  match goal with
  | |- context [on_engine (inverseKinematics ?q eff ?t ?A ?al ?li ?mi)] =>
      destruct (returns_inverseKinematics n names q eff t A al li mi Hj
                  k Hk) as ([[[newConfig err] count] fwd] & k1 & E1 & Hk1 & Hq);
      pose proof (keeps_inverseKinematics q eff t A al li mi k) as Hs1;
      rewrite E1 in Hs1; simpl in Hs1;
      rewrite (bind_normal _ _ _ _ _ (on_engine_normal _ k hs _ k1 E1))
  end.
  simpl in Hq. cbv beta iota.
  destruct (ready_returns_setConfiguration n names newConfig k1 Hk1 Hq)
    as (k2 & E2 & Hk2 & Hs2).
  assert (Hs : sameEngine k k2) by (eapply sameEngine_trans; eauto).
  destruct (setMarkers && nle (lengthSq err) lit_1e_4).
  - destruct (marker_on_off_returns k1 hs ih true Hm Hih)
      as (hs1 & E3 & Hm1 & Hsame).
    rewrite (bind_normal _ _ _ _ _ E3).
    rewrite (bind_normal _ _ _ _ _ (on_engine_normal _ k1 hs1 _ k2 E2)).
    exists k2, hs1. split; [reflexivity|]. auto.
  - rewrite (bind_normal (ret tt) _ (k1, hs) tt (k1, hs) eq_refl).
    rewrite (bind_normal _ _ _ _ _ (on_engine_normal _ k1 hs _ k2 E2)).
    exists k2, hs. split; [reflexivity|]. auto.
Qed.


Lemma hang_loop n names setMarkers : forall effs init k hs,
  ready n names k ->
  (forall eff, In eff effs ->
     obj_get eff (homePositionFwd k) <> None -> In eff names) ->
  hs <> [] -> twoMarkers hs ->
  exists k' hs',
    for_fold effs (hang setMarkers) init (k, hs)
    = (Normal
         (init ||
          existsb (fun eff =>
                     match obj_get eff (homePositionFwd k) with
                     | Some _ => true
                     | None => false
                     end) effs), (k', hs')) /\
    ready n names k' /\ sameEngine k k' /\
    twoMarkers hs' /\ sameHolds hs hs'.
Proof.
  induction effs as [|eff effs IH]; intros init k hs Hk Hhome Hne Hm;
    cbn [for_fold existsb].
  - exists k, hs. rewrite orb_false_r.
    split; [reflexivity|]. split; [assumption|].
    split; [apply sameEngine_refl|]. auto.
  - destruct (hang_returns n names setMarkers eff init k hs Hk
                (Hhome eff (or_introl eq_refl)) Hne Hm)
      as (k1 & hs1 & E1 & Hk1 & Hs1 & Hm1 & Hn1 & Hp1).
    pose proof Hs1 as (_ & _ & Hfwd & _).
    assert (Hne1 : hs1 <> []).
    { intros ->. destruct hs; [congruence|discriminate]. }
    destruct (IH (match obj_get eff (homePositionFwd k) with
                  | Some _ => true
                  | None => init
                  end) k1 hs1 Hk1) as (k2 & hs2 & E2 & Hk2 & Hs2 & Hm2 & Hn2 & Hp2);
      auto.
    { intros e He. rewrite Hfwd. apply Hhome. now right. }
    exists k2, hs2. rewrite (bind_normal _ _ _ _ _ E1), E2, Hfwd.
    split; [|split; [assumption|split;
              [eapply sameEngine_trans; eauto|split;
                 [assumption|split; congruence]]]].
    destruct (obj_get eff (homePositionFwd k)); simpl;
      [now rewrite orb_true_r|reflexivity].
Qed.

(** X15: on a built engine with plain labels whose home snapshot names
    nodes of the tree, and holds that each carry their two markers,
    [hang_on_wall] returns.  It answers [true] exactly when there is a
    hold and one of the five effectors has a home matrix; the engine is
    the same engine and the holds are the same holds, markers apart. *)
Theorem X15_hang_on_wall_returns (setMarkers : bool) (k : Kinematics)
    (holds : list Hold) :
  constructed k -> plainNames k = true ->
  (forall eff, In eff effectors ->
     obj_get eff (homePositionFwd k) <> None ->
     In eff (treeNames (scene k))) ->
  Forall (fun h => 2 <= length (hold_children h)) holds ->
  exists b k' holds',
    hang_on_wall setMarkers (k, holds) = (Normal b, (k', holds')) /\
    (b = true <->
     holds <> [] /\
     exists eff, In eff effectors /\
                 obj_get eff (homePositionFwd k) <> None) /\
    sameEngine k k' /\
    List.map hold_name holds' = List.map hold_name holds /\
    List.map hold_position holds' = List.map hold_position holds.
Proof.
  intros Hc Hp Hhome Hm.
  assert (Hk : ready (qConfigLength k) (treeNames (scene k)) k)
    by (split; [|split; [|split]]; auto).
  unfold hang_on_wall.
  rewrite (bind_normal get_holds _ (k, holds) holds (k, holds) eq_refl).
  destruct holds as [|h0 hs] eqn:Eh.
  { exists false, k, []. split; [reflexivity|].
    split; [|split; [apply sameEngine_refl|auto]].
    split; [discriminate|]. intros [H _]. congruence. }
  rewrite <- Eh in *. replace (Nat.eqb (length holds) 0) with false
    by (subst holds; reflexivity).
  assert (Hne : holds <> []) by (subst holds; discriminate).
  destruct (markers_off_returns k (seq 0 (length holds)) holds Hm)
    as (hs1 & E1 & Hm1 & Hn1 & Hp1).
  { intros i Hi. apply in_seq in Hi. lia. }
  assert (Hne1 : hs1 <> []).
  { intros ->. destruct holds; [congruence|discriminate]. }
  destruct (hang_loop _ _ setMarkers effectors false k hs1 Hk Hhome Hne1 Hm1)
    as (k2 & hs2 & E2 & Hk2 & Hs2 & Hm2 & Hn2 & Hp2).
  eexists _, k2, hs2. rewrite (bind_normal _ _ _ _ _ E1).
  split; [exact E2|]. split; [|split; [assumption|split; congruence]].
  rewrite orb_false_l, existsb_exists. split.
  - intros (eff & He & Hf). split; [assumption|]. exists eff.
    split; [assumption|].
    destruct (obj_get eff (homePositionFwd k)); congruence.
  - intros (_ & eff & He & Hf). exists eff. split; [assumption|].
    destruct (obj_get eff (homePositionFwd k)); congruence.
Qed.


(** X16: the home snapshot a constructor call stores has a matrix under
    a name exactly when the name is borne by a node of the tree. *)
Theorem X16_home_snapshot_names (s : Scene) (yup : bool) (k : Kinematics) :
  fst (constructor s yup) = Normal k ->
  forall n, obj_get n (homePositionFwd k) <> None <-> In n (treeNames s).
Proof.
  unfold constructor.
  destruct (confIndex (sortObjectKeys (getNameChildMap s)))
    as [ind indRev].
  set (this0 := mkKinematics s (sortObjectKeys (getNameChildMap s)) [] []
                             ind indRev (length indRev) yup).
  set (home := homeBias (getCurrentStateConfig this0)).
  set (this1 := with_homePositionConfig this0 home).
  change (homePositionConfig this1) with home.
  destruct (forwardKinematics home identity this1) as [[fwd|] this2] eqn:E;
    [|discriminate].
  intros [= <-] n. simpl homePositionFwd.
  assert (E' : fst (forwardKinematics home identity this1) = Normal fwd)
    by now rewrite E.
  rewrite (forwardKinematics_links home identity this1 fwd E').
  destruct (keeps_setConfiguration home this1)
    as (_ & _ & _ & _ & _ & _ & _ & -> & _).
  change (root (scene this1)) with (root s). unfold treeNames.
  pose proof (forwardKinematicsRec_keys
                (matrixWorldOf (scene (snd (setConfiguration home this1))))
                home identity (root s) [] [] n) as Hk.
  split.
  - intros Hn.
    destruct (in_dec string_dec n
                (obj_keys
                   (forwardKinematicsRec
                      (matrixWorldOf
                         (scene (snd (setConfiguration home this1))))
                      (root s) [] home identity []))) as [Hi|Hi].
    + apply Hk in Hi as [[]|Hi]. exact Hi.
    + exfalso. apply Hn. now apply obj_get_None.
  - intros Hn Eg. apply obj_get_None in Eg. apply Eg. apply Hk.
    now right.
Qed.

End Extra_host.

Section Extra_names.
Context {JSN : JSNumber} {THREE : Three}.

Lemma collect_absent n : forall (l : list (string * NodeId)) acc,
  ~ In n (List.map fst l) ->
  obj_get n (fold_left (fun m '(n, c) => obj_set n c m) l acc)
  = obj_get n acc.
Proof.
  induction l as [|[n0 c0] l IH]; intros acc Hn; simpl; [reflexivity|].
  rewrite IH by (intros H; apply Hn; now right).
  apply obj_get_set_neq. intros ->. apply Hn. now left.
Qed.

(** X17: of the nodes that bear one name the engine knows the one the
    traversal visits last: the name map holds that node under the name,
    and the nodes before it cannot be addressed. *)
Theorem X17_last_node_of_a_name_stays (s : Scene) (n : string) (id : NodeId)
    (before after : list (string * NodeId)) :
  traverse (root s) [] = before ++ (n, id) :: after ->
  ~ In n (List.map fst after) ->
  obj_get n (sortObjectKeys (getNameChildMap s)) = Some id.
Proof.
  intros Ht Hn.
  destruct (getNameChildMap_spec s) as (Hnd & _).
  rewrite (proj2 (sortObjectKeys_spec _ Hnd)).
  unfold getNameChildMap. rewrite Ht, fold_left_app. cbn [fold_left].
  rewrite collect_absent by assumption.
  apply obj_get_set_eq.
Qed.

End Extra_names.

Section Extra_stateVector.
Context {JSN : JSNumber} {THREE : Three}.

(** An entry of the joint state comes from a prefixed node of the map. *)
Lemma getCurrentStateConfig_entry k joint qv :
  constructed k -> In (joint, qv) (getCurrentStateConfig k) ->
  exists child,
    obj_get joint (map k) = Some child /\
    startsWith "RJoint_" joint = true /\
    ((includes "_XYZ_" joint = true /\ exists x y z, qv = Rot3 x y z) \/
     (includes "_XYZ_" joint = false /\
      qv = Scalar (ez (rotationOf (scene k) child)))).
Proof.
  intros Hc Hin. destruct (map_spec k Hc) as (Hnd & _).
  rewrite getCurrentStateConfig_flat_map in Hin by assumption.
  apply in_flat_map in Hin as ([n c] & Hm & He).
  pose proof (stateEntry_known _ _ _ _ _ He) as ->.
  exists c. split; [now apply obj_get_NoDup|].
  unfold stateEntry in He.
  destruct (startsWith "RJoint_" n); [|destruct He].
  split; [reflexivity|].
  destruct (includes "_XYZ_" n); [|destruct (includes "_Z_" n)];
    simpl in He; try tauto; destruct He as [[= <-]|[]].
  - left. eauto.
  - right. auto.
Qed.

(** X18: in the state vector the slot of a 1-DOF joint holds the [z]
    rotation of its node when the joint name begins with [RJoint_], and
    the sentinel -1000 when it does not: the index counts the joint,
    the joint state has no entry for it. *)
Theorem X18_state_vector_slot (k : Kinematics) (joint : string)
    (child : NodeId) :
  constructed k -> obj_get joint (map k) = Some child ->
  includes "_XYZ_" joint = false -> includes "_Z_" joint = true ->
  exists i,
    obj_get joint (qConfigIndex k) = Some i /\
    nth_error (getCurrentStateVector k) i
    = Some (if startsWith "RJoint_" joint
            then ez (rotationOf (scene k) child)
            else lit (-1000)).
Proof.
  intros Hc Hg EX EZ. destruct (map_spec k Hc) as (Hnd & _).
  destruct (index_spec k Hc) as (Hrv & _).
  assert (Hl : In joint (qConfigIndexReversed k)).
  { rewrite Hrv. apply in_flat_map. exists joint.
    split; [eapply obj_get_Some_key; eauto|].
    rewrite (dofLabels_z _ EX EZ). now left. }
  apply In_nth_error in Hl as [i Hi]. exists i.
  split; [now apply (index_lookup k joint i Hc)|].
  unfold getCurrentStateVector.
  rewrite (proj2 (configToVector_holds k (getCurrentStateConfig k) Hc)
             i joint Hi).
  f_equal.
  assert (Hw : forall j qv w,
    In (j, qv) (getCurrentStateConfig k) -> writes j qv joint = Some w ->
    startsWith "RJoint_" joint = true /\
    w = ez (rotationOf (scene k) child)).
  { intros j qv w Hin Hwr.
    destruct (getCurrentStateConfig_entry k j qv Hc Hin)
      as (c & Hgc & Hpre & Hkind).
    apply writes_inv in Hwr as [[-> ->]|(x & y & z & -> & Hwr)].
    - destruct Hkind as [[Hx _]|[_ Hkind]]; [congruence|].
      injection Hkind as ->. split; [assumption|]. congruence.
    - destruct Hkind as [[Hx _]|[_ Hkind]]; [|discriminate].
      exfalso.
      assert (includes "_XYZ_" joint = true); [|congruence].
      destruct Hwr as [[-> _]|[[-> _]|[-> _]]];
        now apply includes_axisLabel. }
  destruct (startsWith "RJoint_" joint) eqn:Epre.
  - apply slotValue_written.
    + exists joint, (Scalar (ez (rotationOf (scene k) child))). split.
      * rewrite getCurrentStateConfig_flat_map by assumption.
        apply in_flat_map. exists (joint, child).
        split; [now apply obj_get_Some_In|].
        unfold stateEntry. rewrite Epre, EX, EZ. now left.
      * simpl. now rewrite String.eqb_refl.
    + intros j qv w Hin Hwr. now apply (Hw j qv w Hin).
  - apply slotValue_uncovered.
    destruct (covered (getCurrentStateConfig k) joint) eqn:Ecov;
      [|reflexivity].
    unfold covered in Ecov. apply existsb_exists in Ecov
      as ([j qv] & Hin & Hwr).
    destruct (writes j qv joint) as [w|] eqn:Ew; [|discriminate].
    destruct (Hw j qv w Hin Ew). discriminate.
Qed.

End Extra_stateVector.

(** ** Partial configurations in the solver and the Jacobian *)
Section Claims_sentinel.
Context {JSN : JSNumber} {THREE : Three}.





End Claims_sentinel.


(** ** The further properties on the demonstration scenes *)

Lemma demo_engineYup_constructed : constructed Demo.engineYup.
Proof. repeat split; vm_compute; reflexivity. Qed.

Lemma demo_engineWithTail_constructed : constructed Demo.engineWithTail.
Proof. repeat split; vm_compute; reflexivity. Qed.

Lemma X3_witness :
  let q := [("RJoint_Back_Upper_XYZ_L", Rot3 (Int 1) (Int 2) (Int 3));
            ("RJoint_Back_Lower_Z_R", Scalar (Int 4))] in
  (forall joint qv,
     In (joint, qv) q -> startsWith "RJoint_" joint = true ->
     wellKinded Demo.engine (joint, qv) = true ->
     obj_get joint
       (getCurrentStateConfig (snd (setConfiguration q Demo.engine)))
     = Some qv) /\
  (forall joint,
     ~ In joint (obj_keys q) ->
     obj_get joint
       (getCurrentStateConfig (snd (setConfiguration q Demo.engine)))
     = obj_get joint (getCurrentStateConfig Demo.engine)).
Proof.
  intros q.
  refine (@X3_setConfiguration_read_back number three Demo.engine q
            demo_engine_constructed _ _ _).
  - vm_compute. reflexivity.
  - apply distinct_NoDup. vm_compute. reflexivity.
  - intros joint qv [H|[H|[]]]; injection H as <- <-;
      vm_compute; discriminate.
Defined.

Lemma X4_witness :
  let q := [("RJoint_Back_Lower_Z_R", Scalar (Int 4));
            ("Neck", Scalar (Int 5))] in
  getCurrentStateConfig (snd (setConfiguration q Demo.engineYup))
  = getCurrentStateConfig Demo.engineYup.
Proof.
  intros q.
  refine (@X4_yup_scalars_are_not_read_back number three Demo.engineYup q
            demo_engineYup_constructed _ _).
  - vm_compute. reflexivity.
  - intros joint qv [H|[H|[]]]; injection H as <- <-;
      (split; [vm_compute; discriminate|split; vm_compute; reflexivity]).
Defined.

Lemma X5_witness :
  let q := [("RJoint_Back_Upper_XYZ_L", Rot3 (Int 1) (Int 2) (Int 3));
            ("RJoint_Back_Lower_Z_R", Scalar (Int 4))] in
  rotationOf (scene (snd (forwardKinematics q identity Demo.engine))) [1]
  = rotationOf (scene Demo.engine) [1].
Proof.
  intros q.
  refine (@X5_forwardKinematics_restores_rotations number three
            Demo.engine q identity demo_engine_constructed _ _ [1]).
  - vm_compute. reflexivity.
  - intros joint qv [H|[H|[]]]; injection H as <- <-;
      (split; vm_compute; reflexivity).
Defined.

Lemma X6_witness :
  ey (rotationOf
        (scene (snd (forwardKinematics [("Neck", Scalar (Int 5))] identity
                       Demo.engineYup))) [1])
  = ez (rotationOf (scene Demo.engineYup) [1]).
Proof.
  refine (@X6_yup_restore_writes_z_to_y number three Demo.engineYup
            [("Neck", Scalar (Int 5))] identity "RJoint_Back_Lower_Z_R" [1]
            demo_engineYup_constructed _ _ _ _ _ _);
    try (vm_compute; reflexivity).
  intros joint qv [H|[]]; injection H as <- <-; vm_compute; discriminate.
Defined.

Lemma X7_witness :
  exists k,
    fst (constructor Demo.bearScene false) = Normal k /\
    constructed k /\ root (scene k) = root Demo.bearScene /\
    homePositionConfig k
    = homeBias (getCurrentStateConfig (with_scene k Demo.bearScene)) /\
    getCurrentStateConfig k
    = getCurrentStateConfig (with_scene k Demo.bearScene).
Proof.
  refine (@X7_constructor_returns number three Demo.bearScene false _).
  intros n [<-|[<-|[<-|[<-|[]]]]]; vm_compute; tauto.
Defined.

Lemma X8_witness :
  vectorToConfig Demo.engine
    [Int 0; Int 1; Int 2; Int 3; Int 4; Int 5; Int 6; Int 7] = Throw.
Proof.
  refine (@X8_vectorToConfig_overrun number three Demo.engine
            [Int 0; Int 1; Int 2; Int 3; Int 4; Int 5; Int 6; Int 7] _).
  vm_compute. lia.
Defined.

Lemma X9_witness :
  let vec := [Int 0; Int 1; Int 2; Int 3; Int 4; Int 5; Int 6] in
  exists q,
    vectorToConfig Demo.engine vec = Normal q /\
    configToVector Demo.engine q = vec.
Proof.
  intros vec.
  refine (@X9_vector_config_roundtrip number three Demo.engine vec
            demo_engine_constructed demo_engine_plain _).
  vm_compute. reflexivity.
Defined.

Lemma X10_witness :
  returned
    (fst (inverseKinematics (getCurrentStateConfig Demo.engine)
            "Effector_Head" (mkVector3 (Int 0) (Int 0) (Int 60)) identity
            (Int 1) Tiny 5 Demo.engine)) = true /\
  getCurrentStateConfig
    (snd (inverseKinematics (getCurrentStateConfig Demo.engine)
            "Effector_Head" (mkVector3 (Int 0) (Int 0) (Int 60)) identity
            (Int 1) Tiny 5 Demo.engine))
  = getCurrentStateConfig Demo.engine.
Proof.
  exact (@X10_inverseKinematics_keeps_state number three Demo.engine
           (getCurrentStateConfig Demo.engine) "Effector_Head"
           (mkVector3 (Int 0) (Int 0) (Int 60)) identity (Int 1) Tiny 5
           demo_engine_constructed demo_engine_plain demo_head_in_tree).
Defined.

Lemma X11_witness :
  exists jac,
    fst (calcJacobian (getCurrentStateConfig Demo.engine) "Effector_Head"
           Demo.origin (Int 1) identity Demo.engine) = Normal jac /\
    length jac = qConfigLength Demo.engine /\
    getCurrentStateConfig
      (snd (calcJacobian (getCurrentStateConfig Demo.engine)
              "Effector_Head" Demo.origin (Int 1) identity Demo.engine))
    = getCurrentStateConfig Demo.engine.
Proof.
  exact (@X11_calcJacobian_columns number three Demo.engine
           (getCurrentStateConfig Demo.engine) "Effector_Head"
           Demo.origin (Int 1) identity
           demo_engine_constructed demo_engine_plain demo_head_in_tree).
Defined.

Lemma X12_witness :
  @findClosestHold Ordered.number Ordered.host
    (Ordered.at_ 0 0 0) Ordered.row (Ordered.at_ 0 0 10) true = Some 0.
Proof.
  refine (@X12_findClosestHold_default Ordered.number Ordered.host
            (Ordered.at_ 0 0 0) (Ordered.at_ 0 0 10) true Ordered.row _).
  intros h [<-|[<-|[<-|[<-|[]]]]] E; vm_compute in E; discriminate.
Defined.

Lemma X13_witness :
  obj_get "Effector_Head"
    (match fst (forwardKinematics [] identity Demo.engine) with
     | Normal links => links
     | Throw => []
     end) <> None <->
  In "Effector_Head" (treeNames (scene Demo.engine)).
Proof.
  refine (@X13_snapshot_names number three Demo.engine [] identity _ _
            "Effector_Head").
  vm_compute. reflexivity.
Defined.

Lemma ordered_lt_trans (a b c : Ordered.onum) :
  Ordered.ogt b a = true -> Ordered.ogt c b = true ->
  Ordered.ogt c a = true.
Proof.
  destruct a as [x| |], b as [y| |], c as [z| |]; simpl;
    try discriminate; try reflexivity.
  rewrite !Z.ltb_lt. lia.
Qed.

Lemma ordered_lt_irrefl (a : Ordered.onum) : Ordered.ogt a a = false.
Proof. destruct a; simpl; auto using Z.ltb_irrefl. Qed.

Lemma X14_witness :
  exists i r,
    @findClosestHold Ordered.number Ordered.host
      (Ordered.at_ 0 0 0) Ordered.row (Ordered.at_ 0 0 0) false = Some i /\
    nth_error Ordered.row i = Some r /\
    @eligible Ordered.number Ordered.host (Ordered.at_ 0 0 0) false r
    = true /\
    forall h, In h Ordered.row ->
      @eligible Ordered.number Ordered.host (Ordered.at_ 0 0 0) false h
      = true ->
      Ordered.ogt
        (@distanceToSquared Ordered.number (Ordered.at_ 0 0 0)
           (hold_position r))
        (@distanceToSquared Ordered.number (Ordered.at_ 0 0 0)
           (hold_position h)) = false.
Proof.
  refine (@X14_findClosestHold_closest Ordered.number Ordered.host
            (Ordered.at_ 0 0 0) (Ordered.at_ 0 0 0) false Ordered.row
            ordered_lt_trans ordered_lt_irrefl _).
  exists (@mkHold Ordered.number "Hold_Right_2" (Ordered.at_ (-1) 0 2)
            [false; true]).
  split; [simpl; tauto|]. split; vm_compute; reflexivity.
Defined.

Lemma X15_witness :
  exists b k' holds',
    @hang_on_wall number three HostDemo.host HostDemo.threeHost true
      (Demo.engine, HostDemo.holds)
    = (Normal b, (k', holds')) /\
    (b = true <->
     HostDemo.holds <> [] /\
     exists eff, In eff effectors /\
                 obj_get eff (homePositionFwd Demo.engine) <> None) /\
    sameEngine Demo.engine k' /\
    List.map hold_name holds' = List.map hold_name HostDemo.holds /\
    List.map hold_position holds'
    = List.map hold_position HostDemo.holds.
Proof.
  refine (@X15_hang_on_wall_returns number three HostDemo.host
            HostDemo.threeHost true Demo.engine HostDemo.holds
            demo_engine_constructed demo_engine_plain _ _).
  - intros eff [<-|[<-|[<-|[<-|[<-|[]]]]]] _; vm_compute; tauto.
  - repeat constructor.
Defined.

Lemma X16_witness :
  obj_get "Effector_Head" (homePositionFwd Demo.engine) <> None <->
  In "Effector_Head" (treeNames Demo.bearScene).
Proof.
  refine (@X16_home_snapshot_names number three Demo.bearScene false
            Demo.engine _ "Effector_Head").
  apply newKinematics_returned. vm_compute. reflexivity.
Defined.

Lemma X17_witness :
  obj_get "B"
    (sortObjectKeys
       (getNameChildMap
          (Demo.sceneOf
             (mkObject3D "A" (0, 0, 0)%Z [Demo.leaf "B"; Demo.leaf "B"])
             [])))
  = Some [1].
Proof.
  refine (@X17_last_node_of_a_name_stays number three
            (Demo.sceneOf
               (mkObject3D "A" (0, 0, 0)%Z [Demo.leaf "B"; Demo.leaf "B"])
               [])
            "B" [1] [("A", []); ("B", [0])] [] _ _).
  - vm_compute. reflexivity.
  - simpl. tauto.
Defined.

Lemma X18_witness :
  exists i,
    obj_get "Tail_Z_Base" (qConfigIndex Demo.engineWithTail) = Some i /\
    nth_error (getCurrentStateVector Demo.engineWithTail) i
    = Some (if startsWith "RJoint_" "Tail_Z_Base"
            then ez (rotationOf (scene Demo.engineWithTail) [5])
            else lit (-1000)).
Proof.
  refine (@X18_state_vector_slot number three Demo.engineWithTail
            "Tail_Z_Base" [5] demo_engineWithTail_constructed _ _ _);
    vm_compute; reflexivity.
Defined.

Lemma X21_witness :
  fst (inverseKinematics (getCurrentStateConfig Demo.engine)
         "Effector_Tail" (mkVector3 (Int 0) (Int 0) (Int 60)) identity
         (Int 1) Tiny 5 Demo.engine) = Throw.
Proof.
  refine (@X21_inverseKinematics_absent_effector_throws number three
            Demo.engine (getCurrentStateConfig Demo.engine)
            "Effector_Tail" (mkVector3 (Int 0) (Int 0) (Int 60)) identity
            (Int 1) Tiny 5 _).
  vm_compute. intuition discriminate.
Defined.
